(** * containerd server configuration: loading, merging and validation

    A shallow embedding of [services/server/config/config.go]: the
    [Config] tree, [GetVersion], [ValidateV2], [loadConfigFile],
    [resolveImports], [mergeConfig] and [LoadConfig], together with the
    properties of these functions that the specification states.

    Data. Go strings are [string], Go [int] is [Z] (no arithmetic is
    performed on configuration integers, so no wrap-around is involved),
    slices are lists, Go maps are finite maps that may be [nil], and a
    [range] loop over a map visits the entries in an order that is a
    parameter ([RangeOrder]).

    Effects. A call returns the list of its events (files opened,
    patterns expanded, log lines, merges) and its result or error ([M]).
    The file system is a finite map from paths to files and a function
    from glob patterns to matches.

    Libraries. The code calls four libraries that are not part of the
    repository. [strings] and [path/filepath] are written out as Go
    documents them (Unix paths). The TOML decoder works on documents
    that are already parsed ([Decoder]). Of [mergo.Merge] the rules for
    scalars, slices and structs are those that the comment of
    [mergeConfig] tabulates; its treatment of the entries of a map is a
    parameter ([mergo.ElemMerge]). *)

From Stdlib Require Import ZArith Ascii String DecimalString.
From stdpp Require Import gmap strings list fin_maps sorting.

Local Open Scope string_scope.
Local Open Scope list_scope.
Local Open Scope stdpp_scope.

(** ** Go's [strings] package (the functions the configuration code calls) *)

Module strings.

(** [strings.HasPrefix(s, prefix)]. *)
Definition HasPrefix (s prefix : string) : bool := String.prefix prefix s.

(** [strings.Index(s, substr)]: position of the first occurrence. *)
Fixpoint Index (s substr : string) : option nat :=
  if String.prefix substr s then Some 0
  else match s with
       | EmptyString => None
       | String _ s' => S <$> Index s' substr
       end.

(** [strings.Contains(s, substr)] is [Index(s, substr) >= 0]. *)
Definition Contains (s substr : string) : bool := bool_decide (is_Some (Index s substr)).

(** Loop of [genSplit] for a non-empty separator: [k] is [n - 1 - i],
    the number of cuts still allowed; the remainder is the last piece. *)
Fixpoint genSplit (k : nat) (s sep : string) : list string :=
  match k with
  | O => [s]
  | S k' =>
      match Index s sep with
      | None => [s]
      | Some m =>
          String.substring 0 m s
            :: genSplit k' (String.substring (m + String.length sep)
                              (String.length s - (m + String.length sep)) s) sep
      end
  end.

(** [strings.SplitN(s, sep, n)] for [n > 0] and a non-empty [sep]
    (the only way the configuration code calls it); [n = 0] gives nil. *)
Definition SplitN (s sep : string) (n : nat) : list string :=
  match n with
  | O => []
  | S k => genSplit k s sep
  end.

End strings.

(** ** Go's [path/filepath] package on Unix (separator [/], no volume names) *)

Module filepath.

Definition Separator : ascii := "/"%char.

(** [filepath.IsAbs(path)] on Unix: the path starts with a slash. *)
Definition IsAbs (path : string) : bool := strings.HasPrefix path "/".

(** The elements of a path: the pieces between slashes (possibly empty). *)
Fixpoint elements_go (cur : string) (path : string) : list string :=
  match path with
  | EmptyString => [String.rev cur]
  | String c rest =>
      if Ascii.eqb c Separator then String.rev cur :: elements_go "" rest
      else elements_go (String c cur) rest
  end.
Definition elements (path : string) : list string := elements_go "" path.

(** One element processed by [Clean]. [out] is the stack of elements
    written so far, last one first. Empty elements and [.] are dropped;
    [..] removes the last real element if there is one, is dropped at the
    root of a rooted path, and is kept otherwise. *)
Definition clean_step (rooted : bool) (out : list string) (e : string) : list string :=
  if decide (e = "") then out
  else if decide (e = ".") then out
  else if decide (e = "..") then
    match out with
    | top :: out' => if decide (top = "..") then e :: out else out'
    | [] => if rooted then out else [e]
    end
  else e :: out.

Fixpoint join_slash (es : list string) : string :=
  match es with
  | [] => ""
  | [e] => e
  | e :: es' => e +:+ "/" +:+ join_slash es'
  end.

(** [filepath.Clean(path)]: the shortest equivalent path by purely
    lexical processing. *)
Definition Clean (path : string) : string :=
  if decide (path = "") then "."
  else
    let rooted := IsAbs path in
    let out := foldl (clean_step rooted) [] (elements path) in
    let body := join_slash (rev out) in
    if rooted then "/" +:+ body
    else if decide (body = "") then "." else body.

(** The prefix of [path] up to and including its last slash. *)
Fixpoint upto_last_slash (path : string) : string :=
  match path with
  | EmptyString => ""
  | String c rest =>
      if strings.Contains path "/" then String c (upto_last_slash rest) else ""
  end.

(** [filepath.Dir(path)]: all but the last element, cleaned. *)
Definition Dir (path : string) : string := Clean (upto_last_slash path).

(** [filepath.Join(elem...)]: the elements from the first non-empty one
    on, joined with slashes and cleaned; empty if all are empty. *)
Fixpoint Join (elem : list string) : string :=
  match elem with
  | [] => ""
  | e :: rest => if decide (e = "") then Join rest else Clean (join_slash elem)
  end.

End filepath.

(** ** Errors, results and effects *)

(** The errors the configuration package returns, one constructor per
    place that creates one. [%w] wrapping is kept as a [cause]. *)
Inductive error : Type :=
  | ErrInvalidArgument
      (* errdefs.ErrInvalidArgument *)
  | ErrOutNil (cause : error)
      (* fmt.Errorf("argument out must not be nil: %w", errdefs.ErrInvalidArgument) *)
  | ErrOpen (path : string)
      (* the error of os.Open(path), returned as it is *)
  | ErrSeek (path : string)
      (* "unable to seek file to start %w: failed to unmarshal TOML with unknown fields: %w" *)
  | ErrUnmarshalAt (path : string)
      (* "failed to unmarshal TOML at row %d column %d: %w", around a toml.DecodeError *)
  | ErrUnmarshal (path : string)
      (* "failed to unmarshal TOML: %w", around any other decoding error *)
  | ErrBadPattern (pattern : string)
      (* filepath.ErrBadPattern, from filepath.Glob *)
  | ErrMerge (detail : string)
      (* an error of mergo.Merge, returned as it is *)
  | ErrVersion1
      (* errors.New("containerd config version `1` is no longer supported ...") *)
  | ErrExpectedVersion2 (version : Z)
      (* fmt.Errorf("expected containerd config version `2`, got `%d`", version) *)
  | ErrDisabledPlugin (p : string)
      (* fmt.Errorf("invalid disabled plugin URI %q expect io.containerd.x.vx", p) *)
  | ErrRequiredPlugin (p : string)
      (* fmt.Errorf("invalid required plugin URI %q expect io.containerd.x.vx", p) *)
  | ErrPluginKey (p : string)
      (* fmt.Errorf("invalid plugin key URI %q expect io.containerd.x.vx", p) *)
  | ErrLoadTOML (path : string) (cause : error)
      (* fmt.Errorf("failed to load TOML from %s: %w", path, err) *)
  | PanicNilMap
      (* run-time panic: assignment to entry in nil map *)
  | OutOfFuel.
      (* not a Go error: the bounded model of the [for] loop ran out of
         steps; [LoadConfig] is shown never to produce it *)

(** [errors.Unwrap]. *)
Definition Unwrap (e : error) : option error :=
  match e with
  | ErrOutNil cause | ErrLoadTOML _ cause => Some cause
  | _ => None
  end.

Global Instance error_eq_dec : EqDecision error.
Proof. solve_decision. Defined.

(** [errors.Is(e, target)]: [target] occurs in the chain of causes of [e]. *)
Fixpoint errors_Is (e target : error) : bool :=
  bool_decide (e = target) ||
  match e with
  | ErrOutNil cause | ErrLoadTOML _ cause => errors_Is cause target
  | _ => false
  end.

(** The text of the two version errors of [ValidateV2]. *)
Definition version1_message : string :=
  "containerd config version `1` is no longer supported since containerd v2.0, please switch to version `2`, "
  +:+ "see https://github.com/containerd/containerd/blob/main/docs/PLUGINS.md#version-header".

Definition expected_version2_message (version : Z) : string :=
  "expected containerd config version `2`, got `"
  +:+ DecimalString.NilZero.string_of_int (Z.to_int version) +:+ "`".

Inductive result (A : Type) : Type :=
  | Ok (a : A)
  | Err (e : error).
Arguments Ok {A} a.
Arguments Err {A} e.

(** What a call does to the outside world, in order. [EvMerge] is not an
    effect of its own: it records that [LoadConfig] called [mergeConfig]
    with the tree decoded from that path. *)
Inductive event : Type :=
  | EvOpen (path : string)                      (* os.Open(path) *)
  | EvWarnUnknownKey (file : string) (key : string)
      (* log Warn "Ignoring unknown key in TOML", fields file and key *)
  | EvErrorUnmarshal (file : string)            (* log Error "Failure unmarshaling TOML" *)
  | EvGlob (pattern : string)                   (* filepath.Glob(pattern) *)
  | EvMerge (path : string).                    (* mergeConfig(out, config) *)

Global Instance event_eq_dec : EqDecision event.
Proof. solve_decision. Defined.

(** A computation: the events it performed and how it ended. *)
Definition M (A : Type) : Type := list event * result A.

Definition ret {A} (a : A) : M A := ([], Ok a).
Definition fail {A} (e : error) : M A := ([], Err e).
Definition emit (ev : event) : M unit := ([ev], Ok tt).
Definition lift {A} (r : result A) : M A := ([], r).
Definition bind {A B} (m : M A) (f : A -> M B) : M B :=
  match m with
  | (t, Ok a) => let '(t', r) := f a in (t ++ t', r)
  | (t, Err e) => (t, Err e)
  end.

(** With these instances stdpp's [x ← m; k] and [m;; k] thread the events
    and stop at the first error. *)
Global Instance M_ret : MRet M := @ret.
Global Instance M_bind : MBind M := fun A B f m => bind m f.

Global Instance result_ret : MRet result := @Ok.
Global Instance result_bind : MBind result := fun A B f r =>
  match r with
  | Ok a => f a
  | Err e => Err e
  end.

Global Instance result_fmap : FMap result := fun A B f r =>
  match r with
  | Ok a => Ok (f a)
  | Err e => Err e
  end.

Definition events {A} (m : M A) : list event := fst m.
Definition outcome {A} (m : M A) : result A := snd m.

(** ** Go maps *)

(** A Go map with string keys is [nil] ([None]) or a finite map. Reading a
    nil map finds nothing; assigning to an entry of a nil map panics. *)
Abbreviation gomap V := (option (gmap string V)).

Definition map_index {V} (m : gomap V) (k : string) : option V :=
  m ≫= (.!! k).

Definition map_assign {V} (m : gomap V) (k : string) (v : V) : result (gomap V) :=
  match m with
  | None => Err PanicNilMap
  | Some g => Ok (Some (<[k := v]> g))
  end.

(** The order in which a [for ... range] over a map visits the entries is
    not specified by Go and differs from run to run. A [RangeOrder] is one
    such choice: any rearrangement of the entries. *)
Record RangeOrder : Type := {
  range_order : forall V : Type, list (string * V) -> list (string * V);
  range_order_perm : forall V (l : list (string * V)), range_order V l ≡ₚ l
}.

(** The entries of a map as a [range] loop meets them. *)
Definition range {V} (ro : RangeOrder) (m : gomap V) : list (string * V) :=
  match m with
  | None => []
  | Some g => range_order ro V (map_to_list g)
  end.

(** Two range orders: the order of the map representation, and its reverse. *)
Definition range_id : RangeOrder :=
  {| range_order := fun V l => l; range_order_perm := fun V l => reflexivity l |}.

Definition range_rev : RangeOrder :=
  {| range_order := fun V l => rev l;
     range_order_perm := fun V l => Permutation_sym (Permutation_rev l) |}.

(** ** The configuration tree *)

Set Warnings "-register-all".

(** A value of type [interface{}] as the TOML decoder produces it: the
    opaque configuration of one plugin. Floats and date-times are kept as
    their literal text. *)
Inductive toml : Type :=
  | TInt (z : Z)
  | TString (s : string)
  | TBool (b : bool)
  | TOther (literal : string)
  | TArray (items : list toml)
  | TTable (entries : list (string * toml)).

(** [StreamProcessor] provides configuration for diff content processors. *)
Module StreamProcessor.
Record t : Type := {
  Accepts : list string;
  Returns : string;
  Path : string;
  Args : list string;
  Env : list string
}.
Definition zero : t :=
  {| Accepts := []; Returns := ""; Path := ""; Args := []; Env := [] |}.
End StreamProcessor.

(** [GRPCConfig] provides GRPC configuration for the socket. *)
Module GRPCConfig.
Record t : Type := {
  Address : string;
  TCPAddress : string;
  TCPTLSCA : string;
  TCPTLSCert : string;
  TCPTLSKey : string;
  UID : Z;
  GID : Z;
  MaxRecvMsgSize : Z;
  MaxSendMsgSize : Z
}.
Definition zero : t :=
  {| Address := ""; TCPAddress := ""; TCPTLSCA := ""; TCPTLSCert := "";
     TCPTLSKey := ""; UID := 0; GID := 0; MaxRecvMsgSize := 0;
     MaxSendMsgSize := 0 |}.
End GRPCConfig.

(** [TTRPCConfig] provides TTRPC configuration for the socket. *)
Module TTRPCConfig.
Record t : Type := { Address : string; UID : Z; GID : Z }.
Definition zero : t := {| Address := ""; UID := 0; GID := 0 |}.
End TTRPCConfig.

(** [Debug] provides debug configuration. *)
Module Debug.
Record t : Type := {
  Address : string;
  UID : Z;
  GID : Z;
  Level : string;
  Format : string
}.
Definition zero : t :=
  {| Address := ""; UID := 0; GID := 0; Level := ""; Format := "" |}.
End Debug.

(** [MetricsConfig] provides metrics configuration. *)
Module MetricsConfig.
Record t : Type := { Address : string; GRPCHistogram : bool }.
Definition zero : t := {| Address := ""; GRPCHistogram := false |}.
End MetricsConfig.

(** [CgroupConfig] provides cgroup configuration. *)
Module CgroupConfig.
Record t : Type := { Path : string }.
Definition zero : t := {| Path := "" |}.
End CgroupConfig.

(** [ProxyPlugin] provides a proxy plugin configuration. *)
Module ProxyPlugin.
Record t : Type := { Type_ : string; Address : string; Platform : string }.
Definition zero : t := {| Type_ := ""; Address := ""; Platform := "" |}.
End ProxyPlugin.

(** [Config] provides containerd configuration data for the server. *)
Module Config.
Record t : Type := {
  Version : Z;
  Root : string;
  State : string;
  TempDir : string;
  PluginDir : string;
  GRPC : GRPCConfig.t;
  TTRPC : TTRPCConfig.t;
  Debug : Debug.t;
  Metrics : MetricsConfig.t;
  DisabledPlugins : list string;
  RequiredPlugins : list string;
  Plugins : gomap toml;
  OOMScore : Z;
  Cgroup : CgroupConfig.t;
  ProxyPlugins : gomap ProxyPlugin.t;
  Timeouts : gomap string;
  Imports : list string;
  StreamProcessors : gomap StreamProcessor.t
}.

(** The zero value, [Config{}]: empty strings, zero integers, nil slices
    and nil maps. *)
Definition zero : t :=
  {| Version := 0; Root := ""; State := ""; TempDir := ""; PluginDir := "";
     GRPC := GRPCConfig.zero; TTRPC := TTRPCConfig.zero; Debug := Debug.zero;
     Metrics := MetricsConfig.zero; DisabledPlugins := [];
     RequiredPlugins := []; Plugins := None; OOMScore := 0;
     Cgroup := CgroupConfig.zero; ProxyPlugins := None; Timeouts := None;
     Imports := []; StreamProcessors := None |}.

(** [out.Imports = ...]. *)
Definition set_Imports (c : t) (imports : list string) : t :=
  {| Version := Version c; Root := Root c; State := State c;
     TempDir := TempDir c; PluginDir := PluginDir c; GRPC := GRPC c;
     TTRPC := TTRPC c; Debug := Debug c; Metrics := Metrics c;
     DisabledPlugins := DisabledPlugins c;
     RequiredPlugins := RequiredPlugins c; Plugins := Plugins c;
     OOMScore := OOMScore c; Cgroup := Cgroup c;
     ProxyPlugins := ProxyPlugins c; Timeouts := Timeouts c;
     Imports := imports; StreamProcessors := StreamProcessors c |}.

(** [to.Plugins], [to.StreamProcessors], [to.ProxyPlugins] and
    [to.Timeouts] after the assignments of [mergeConfig]. *)
Definition set_maps (c : t) (plugins : gomap toml)
    (processors : gomap StreamProcessor.t) (proxies : gomap ProxyPlugin.t)
    (timeouts : gomap string) : t :=
  {| Version := Version c; Root := Root c; State := State c;
     TempDir := TempDir c; PluginDir := PluginDir c; GRPC := GRPC c;
     TTRPC := TTRPC c; Debug := Debug c; Metrics := Metrics c;
     DisabledPlugins := DisabledPlugins c;
     RequiredPlugins := RequiredPlugins c; Plugins := plugins;
     OOMScore := OOMScore c; Cgroup := Cgroup c;
     ProxyPlugins := proxies; Timeouts := timeouts;
     Imports := Imports c; StreamProcessors := processors |}.
End Config.

(** ** [GetVersion] and [ValidateV2] *)

(** [GetVersion] returns the config file's version: a missing version
    (the zero value) reads as version 1. *)
Definition GetVersion (c : Config.t) : Z :=
  if decide (Config.Version c = 0%Z) then 1%Z else Config.Version c.

(** The test applied to every identifier:
    [!strings.HasPrefix(p, "io.containerd.") || len(strings.SplitN(p, ".", 4)) < 4]. *)
Definition invalid_URI (p : string) : bool :=
  negb (strings.HasPrefix p "io.containerd.")
  || bool_decide (length (strings.SplitN p "." 4) < 4).

(** A [for] loop that returns [mk p] at the first invalid identifier. *)
Fixpoint check_URIs (mk : string -> error) (ps : list string) : result unit :=
  match ps with
  | [] => Ok tt
  | p :: ps' => if invalid_URI p then Err (mk p) else check_URIs mk ps'
  end.

(** [ValidateV2] validates the config for a v2 file. [None] is Go's [nil]
    error. The keys of [c.Plugins] are visited in range order. *)
Definition ValidateV2 (ro : RangeOrder) (c : Config.t) : option error :=
  let version := GetVersion c in
  if decide (version = 1%Z) then Some ErrVersion1
  else if decide (version = 2%Z) then
    match check_URIs ErrDisabledPlugin (Config.DisabledPlugins c) with
    | Err e => Some e
    | Ok _ =>
        match check_URIs ErrRequiredPlugin (Config.RequiredPlugins c) with
        | Err e => Some e
        | Ok _ =>
            match check_URIs ErrPluginKey (fst <$> range ro (Config.Plugins c)) with
            | Err e => Some e
            | Ok _ => None
            end
        end
    end
  else Some (ErrExpectedVersion2 version).

(** ** The structural merge of [mergo.Merge] *)

(** [mergo.Merge(to, from, mergo.WithOverride, mergo.WithAppendSlice)] on
    two [Config] values, field by field, by the rules that the comment of
    [mergeConfig] tabulates: a scalar of [from] that is not the zero value
    replaces the scalar of [to]; slices are appended; struct fields are
    merged field by field. For a map field the library visits the keys of
    [from]; what it stores for a key depends on the kind of the values and
    is left open here ([ElemMerge]), because [mergeConfig] overwrites
    these entries afterwards. The library is not part of the repository. *)
Module mergo.

Definition merge_string (dst src : string) : string :=
  if decide (src = "") then dst else src.

Definition merge_int (dst src : Z) : Z :=
  if decide (src = 0%Z) then dst else src.

Definition merge_bool (dst src : bool) : bool :=
  if src then src else dst.

Definition merge_slice {A} (dst src : list A) : list A := dst ++ src.

(** What the library does with one entry [k: v] of a map of [from],
    given the entry of [to] for [k] if there is one: leave the entry of
    [to] as it is, store a value, or fail with an error of its own. *)
Inductive stored (V : Type) : Type :=
  | Keep
  | Store (v : V)
  | Fail (detail : string).
Arguments Keep {V}.
Arguments Store {V} v.
Arguments Fail {V} detail.

Record ElemMerge : Type := {
  elem_plugin : option toml -> toml -> stored toml;
  elem_processor : option StreamProcessor.t -> StreamProcessor.t -> stored StreamProcessor.t;
  elem_proxy : option ProxyPlugin.t -> ProxyPlugin.t -> stored ProxyPlugin.t;
  elem_timeout : option string -> string -> stored string
}.

Definition merge_entry {V} (elem : option V -> V -> stored V)
    (acc : result (gmap string V)) (kv : string * V) : result (gmap string V) :=
  dst ← acc;
  match elem (dst !! kv.1) kv.2 with
  | Keep => Ok dst
  | Store v => Ok (<[kv.1 := v]> dst)
  | Fail detail => Err (ErrMerge detail)
  end.

(** A map field: a nil [dst] is replaced by a new empty map when [src]
    is not nil, then the entries of [src] are visited. *)
Definition merge_map {V} (ro : RangeOrder) (elem : option V -> V -> stored V)
    (dst src : gomap V) : result (gomap V) :=
  match src with
  | None => Ok dst
  | Some _ => Some <$> foldl (merge_entry elem) (Ok (default ∅ dst)) (range ro src)
  end.

Definition merge_GRPC (dst src : GRPCConfig.t) : GRPCConfig.t :=
  {| GRPCConfig.Address := merge_string (GRPCConfig.Address dst) (GRPCConfig.Address src);
     GRPCConfig.TCPAddress := merge_string (GRPCConfig.TCPAddress dst) (GRPCConfig.TCPAddress src);
     GRPCConfig.TCPTLSCA := merge_string (GRPCConfig.TCPTLSCA dst) (GRPCConfig.TCPTLSCA src);
     GRPCConfig.TCPTLSCert := merge_string (GRPCConfig.TCPTLSCert dst) (GRPCConfig.TCPTLSCert src);
     GRPCConfig.TCPTLSKey := merge_string (GRPCConfig.TCPTLSKey dst) (GRPCConfig.TCPTLSKey src);
     GRPCConfig.UID := merge_int (GRPCConfig.UID dst) (GRPCConfig.UID src);
     GRPCConfig.GID := merge_int (GRPCConfig.GID dst) (GRPCConfig.GID src);
     GRPCConfig.MaxRecvMsgSize := merge_int (GRPCConfig.MaxRecvMsgSize dst) (GRPCConfig.MaxRecvMsgSize src);
     GRPCConfig.MaxSendMsgSize := merge_int (GRPCConfig.MaxSendMsgSize dst) (GRPCConfig.MaxSendMsgSize src) |}.

Definition merge_TTRPC (dst src : TTRPCConfig.t) : TTRPCConfig.t :=
  {| TTRPCConfig.Address := merge_string (TTRPCConfig.Address dst) (TTRPCConfig.Address src);
     TTRPCConfig.UID := merge_int (TTRPCConfig.UID dst) (TTRPCConfig.UID src);
     TTRPCConfig.GID := merge_int (TTRPCConfig.GID dst) (TTRPCConfig.GID src) |}.

Definition merge_Debug (dst src : Debug.t) : Debug.t :=
  {| Debug.Address := merge_string (Debug.Address dst) (Debug.Address src);
     Debug.UID := merge_int (Debug.UID dst) (Debug.UID src);
     Debug.GID := merge_int (Debug.GID dst) (Debug.GID src);
     Debug.Level := merge_string (Debug.Level dst) (Debug.Level src);
     Debug.Format := merge_string (Debug.Format dst) (Debug.Format src) |}.

Definition merge_Metrics (dst src : MetricsConfig.t) : MetricsConfig.t :=
  {| MetricsConfig.Address := merge_string (MetricsConfig.Address dst) (MetricsConfig.Address src);
     MetricsConfig.GRPCHistogram :=
       merge_bool (MetricsConfig.GRPCHistogram dst) (MetricsConfig.GRPCHistogram src) |}.

Definition merge_Cgroup (dst src : CgroupConfig.t) : CgroupConfig.t :=
  {| CgroupConfig.Path := merge_string (CgroupConfig.Path dst) (CgroupConfig.Path src) |}.

(** The fields are visited in the order of their declaration, so the
    first map that fails decides the error. *)
Definition Merge (E : ElemMerge) (ro : RangeOrder) (dst src : Config.t) : result Config.t :=
  plugins ← merge_map ro (elem_plugin E) (Config.Plugins dst) (Config.Plugins src);
  proxies ← merge_map ro (elem_proxy E) (Config.ProxyPlugins dst) (Config.ProxyPlugins src);
  timeouts ← merge_map ro (elem_timeout E) (Config.Timeouts dst) (Config.Timeouts src);
  processors ←
    merge_map ro (elem_processor E) (Config.StreamProcessors dst) (Config.StreamProcessors src);
  Ok {| Config.Version := merge_int (Config.Version dst) (Config.Version src);
        Config.Root := merge_string (Config.Root dst) (Config.Root src);
        Config.State := merge_string (Config.State dst) (Config.State src);
        Config.TempDir := merge_string (Config.TempDir dst) (Config.TempDir src);
        Config.PluginDir := merge_string (Config.PluginDir dst) (Config.PluginDir src);
        Config.GRPC := merge_GRPC (Config.GRPC dst) (Config.GRPC src);
        Config.TTRPC := merge_TTRPC (Config.TTRPC dst) (Config.TTRPC src);
        Config.Debug := merge_Debug (Config.Debug dst) (Config.Debug src);
        Config.Metrics := merge_Metrics (Config.Metrics dst) (Config.Metrics src);
        Config.DisabledPlugins :=
          merge_slice (Config.DisabledPlugins dst) (Config.DisabledPlugins src);
        Config.RequiredPlugins :=
          merge_slice (Config.RequiredPlugins dst) (Config.RequiredPlugins src);
        Config.Plugins := plugins;
        Config.OOMScore := merge_int (Config.OOMScore dst) (Config.OOMScore src);
        Config.Cgroup := merge_Cgroup (Config.Cgroup dst) (Config.Cgroup src);
        Config.ProxyPlugins := proxies;
        Config.Timeouts := timeouts;
        Config.Imports := merge_slice (Config.Imports dst) (Config.Imports src);
        Config.StreamProcessors := processors |}.

(** Two element merges. [replace_elems] stores the value of [from] for
    every key. [union_elems] does the same except that two plugin tables
    are combined key by key, the entries of [from] first: a field-level
    combination of the two values. *)
Definition replace_elems : ElemMerge :=
  {| elem_plugin := fun _ v => Store v;
     elem_processor := fun _ v => Store v;
     elem_proxy := fun _ v => Store v;
     elem_timeout := fun _ v => Store v |}.

Definition union_elems : ElemMerge :=
  {| elem_plugin := fun old v =>
       match old, v with
       | Some (TTable d), TTable s =>
           Store (TTable (s ++ filter (fun kv => kv.1 ∉ s.*1) d))
       | _, _ => Store v
       end;
     elem_processor := fun _ v => Store v;
     elem_proxy := fun _ v => Store v;
     elem_timeout := fun _ v => Store v |}.

End mergo.

(** ** [mergeConfig] *)

(** [for k, v := range src { dst[k] = v }]. *)
Definition assign_all {V} (ro : RangeOrder) (dst src : gomap V) : result (gomap V) :=
  foldl (fun acc kv => d ← acc; map_assign d kv.1 kv.2) (Ok dst) (range ro src).

(** [mergeConfig] merges [from] into [to]: the structural merge, then the
    entries of the four maps of [from] replace those of [to]. The tree
    that Go updates in place is returned. *)
Definition mergeConfig (E : mergo.ElemMerge) (ro : RangeOrder)
    (to from : Config.t) : result Config.t :=
  to ← mergo.Merge E ro to from;
  plugins ← assign_all ro (Config.Plugins to) (Config.Plugins from);
  processors ← assign_all ro (Config.StreamProcessors to) (Config.StreamProcessors from);
  proxies ← assign_all ro (Config.ProxyPlugins to) (Config.ProxyPlugins from);
  timeouts ← assign_all ro (Config.Timeouts to) (Config.Timeouts from);
  Ok (Config.set_maps to plugins processors proxies timeouts).

(** ** TOML documents and their decoding *)

(** The decoder of the TOML library, on documents that are already
    parsed. A document is the list of its top-level keys with their
    values, in the order of the file; each pair stands for one expression
    of the file (a [key = value] line or a [[key]] table with its body).
    Keys are matched with the [toml] tags of the struct fields. The
    decoder reports positions with its errors; they are not kept here. *)
Module Decoder.

Definition document : Type := list (string * toml).

(** What is behind an open file. *)
Inductive file_content : Type :=
  | Unreadable                  (* reading fails: an error that is not a TOML error *)
  | Malformed                   (* not TOML: the decoder returns a DecodeError *)
  | Parsed (doc : document).

Inductive decode_error : Type :=
  | StrictMissingError (errors : list (list string))
      (* one key path for every field of the document that the target lacks *)
  | DecodeError
  | ReadError.

Definition as_string (v : toml) : option string :=
  match v with TString s => Some s | _ => None end.
Definition as_int (v : toml) : option Z :=
  match v with TInt z => Some z | _ => None end.
Definition as_bool (v : toml) : option bool :=
  match v with TBool b => Some b | _ => None end.
Definition as_strings (v : toml) : option (list string) :=
  match v with TArray items => mapM as_string items | _ => None end.
(** A table; a key defined twice is an error. *)
Definition as_table (v : toml) : option (list (string * toml)) :=
  match v with
  | TTable es => if bool_decide (NoDup es.*1) then Some es else None
  | _ => None
  end.
Definition as_any (v : toml) : option toml := Some v.

Fixpoint assoc (k : string) (es : list (string * toml)) : option toml :=
  match es with
  | [] => None
  | (k', v) :: es' => if decide (k' = k) then Some v else assoc k es'
  end.

(** The field with tag [k]: decoded from the document if the key is
    there, left as it was in the target otherwise. *)
Definition field {A} (conv : toml -> option A) (k : string)
    (es : list (string * toml)) (old : A) : option A :=
  match assoc k es with
  | None => Some old
  | Some v => conv v
  end.

(** A map field: the entries of the table are added to the target map. *)
Definition as_map {V} (conv : toml -> option V) (old : gomap V) (v : toml) : option (gomap V) :=
  es ← as_table v;
  vs ← mapM (fun kv : string * toml => (fun x => (kv.1, x)) <$> conv kv.2) es;
  Some (Some (list_to_map vs ∪ default ∅ old)).

Definition GRPC_keys : list string :=
  ["address"; "tcp_address"; "tcp_tls_ca"; "tcp_tls_cert"; "tcp_tls_key"; "uid"; "gid";
   "max_recv_message_size"; "max_send_message_size"].
Definition TTRPC_keys : list string := ["address"; "uid"; "gid"].
Definition Debug_keys : list string := ["address"; "uid"; "gid"; "level"; "format"].
Definition Metrics_keys : list string := ["address"; "grpc_histogram"].
Definition Cgroup_keys : list string := ["path"].
Definition ProxyPlugin_keys : list string := ["type"; "address"; "platform"].
Definition StreamProcessor_keys : list string := ["accepts"; "returns"; "path"; "args"; "env"].
Definition Config_keys : list string :=
  ["version"; "root"; "state"; "temp"; "plugin_dir"; "grpc"; "ttrpc"; "debug"; "metrics";
   "disabled_plugins"; "required_plugins"; "plugins"; "oom_score"; "cgroup"; "proxy_plugins";
   "timeouts"; "imports"; "stream_processors"].

Definition decode_GRPC (old : GRPCConfig.t) (v : toml) : option GRPCConfig.t :=
  es ← as_table v;
  address ← field as_string "address" es (GRPCConfig.Address old);
  tcp_address ← field as_string "tcp_address" es (GRPCConfig.TCPAddress old);
  tcp_tls_ca ← field as_string "tcp_tls_ca" es (GRPCConfig.TCPTLSCA old);
  tcp_tls_cert ← field as_string "tcp_tls_cert" es (GRPCConfig.TCPTLSCert old);
  tcp_tls_key ← field as_string "tcp_tls_key" es (GRPCConfig.TCPTLSKey old);
  uid ← field as_int "uid" es (GRPCConfig.UID old);
  gid ← field as_int "gid" es (GRPCConfig.GID old);
  max_recv ← field as_int "max_recv_message_size" es (GRPCConfig.MaxRecvMsgSize old);
  max_send ← field as_int "max_send_message_size" es (GRPCConfig.MaxSendMsgSize old);
  Some {| GRPCConfig.Address := address; GRPCConfig.TCPAddress := tcp_address;
          GRPCConfig.TCPTLSCA := tcp_tls_ca; GRPCConfig.TCPTLSCert := tcp_tls_cert;
          GRPCConfig.TCPTLSKey := tcp_tls_key; GRPCConfig.UID := uid;
          GRPCConfig.GID := gid; GRPCConfig.MaxRecvMsgSize := max_recv;
          GRPCConfig.MaxSendMsgSize := max_send |}.

Definition decode_TTRPC (old : TTRPCConfig.t) (v : toml) : option TTRPCConfig.t :=
  es ← as_table v;
  address ← field as_string "address" es (TTRPCConfig.Address old);
  uid ← field as_int "uid" es (TTRPCConfig.UID old);
  gid ← field as_int "gid" es (TTRPCConfig.GID old);
  Some {| TTRPCConfig.Address := address; TTRPCConfig.UID := uid; TTRPCConfig.GID := gid |}.

Definition decode_Debug (old : Debug.t) (v : toml) : option Debug.t :=
  es ← as_table v;
  address ← field as_string "address" es (Debug.Address old);
  uid ← field as_int "uid" es (Debug.UID old);
  gid ← field as_int "gid" es (Debug.GID old);
  level ← field as_string "level" es (Debug.Level old);
  format ← field as_string "format" es (Debug.Format old);
  Some {| Debug.Address := address; Debug.UID := uid; Debug.GID := gid;
          Debug.Level := level; Debug.Format := format |}.

Definition decode_Metrics (old : MetricsConfig.t) (v : toml) : option MetricsConfig.t :=
  es ← as_table v;
  address ← field as_string "address" es (MetricsConfig.Address old);
  histogram ← field as_bool "grpc_histogram" es (MetricsConfig.GRPCHistogram old);
  Some {| MetricsConfig.Address := address; MetricsConfig.GRPCHistogram := histogram |}.

Definition decode_Cgroup (old : CgroupConfig.t) (v : toml) : option CgroupConfig.t :=
  es ← as_table v;
  path ← field as_string "path" es (CgroupConfig.Path old);
  Some {| CgroupConfig.Path := path |}.

Definition decode_ProxyPlugin (v : toml) : option ProxyPlugin.t :=
  es ← as_table v;
  type ← field as_string "type" es "";
  address ← field as_string "address" es "";
  platform ← field as_string "platform" es "";
  Some {| ProxyPlugin.Type_ := type; ProxyPlugin.Address := address;
          ProxyPlugin.Platform := platform |}.

Definition decode_StreamProcessor (v : toml) : option StreamProcessor.t :=
  es ← as_table v;
  accepts ← field as_strings "accepts" es [];
  returns ← field as_string "returns" es "";
  path ← field as_string "path" es "";
  args ← field as_strings "args" es [];
  env ← field as_strings "env" es [];
  Some {| StreamProcessor.Accepts := accepts; StreamProcessor.Returns := returns;
          StreamProcessor.Path := path; StreamProcessor.Args := args;
          StreamProcessor.Env := env |}.

(** The tree that decoding [doc] into [old] leaves; [None] when a key is
    defined twice or a value has the wrong type. Unknown keys are passed
    over. *)
Definition decode_Config (doc : document) (old : Config.t) : option Config.t :=
  es ← as_table (TTable doc);
  version ← field as_int "version" es (Config.Version old);
  root ← field as_string "root" es (Config.Root old);
  state ← field as_string "state" es (Config.State old);
  temp ← field as_string "temp" es (Config.TempDir old);
  plugin_dir ← field as_string "plugin_dir" es (Config.PluginDir old);
  grpc ← field (decode_GRPC (Config.GRPC old)) "grpc" es (Config.GRPC old);
  ttrpc ← field (decode_TTRPC (Config.TTRPC old)) "ttrpc" es (Config.TTRPC old);
  debug ← field (decode_Debug (Config.Debug old)) "debug" es (Config.Debug old);
  metrics ← field (decode_Metrics (Config.Metrics old)) "metrics" es (Config.Metrics old);
  disabled ← field as_strings "disabled_plugins" es (Config.DisabledPlugins old);
  required ← field as_strings "required_plugins" es (Config.RequiredPlugins old);
  plugins ← field (as_map as_any (Config.Plugins old)) "plugins" es (Config.Plugins old);
  oom_score ← field as_int "oom_score" es (Config.OOMScore old);
  cgroup ← field (decode_Cgroup (Config.Cgroup old)) "cgroup" es (Config.Cgroup old);
  proxies ← field (as_map decode_ProxyPlugin (Config.ProxyPlugins old)) "proxy_plugins" es
              (Config.ProxyPlugins old);
  timeouts ← field (as_map as_string (Config.Timeouts old)) "timeouts" es (Config.Timeouts old);
  imports ← field as_strings "imports" es (Config.Imports old);
  processors ← field (as_map decode_StreamProcessor (Config.StreamProcessors old))
                 "stream_processors" es (Config.StreamProcessors old);
  Some {| Config.Version := version; Config.Root := root; Config.State := state;
          Config.TempDir := temp; Config.PluginDir := plugin_dir; Config.GRPC := grpc;
          Config.TTRPC := ttrpc; Config.Debug := debug; Config.Metrics := metrics;
          Config.DisabledPlugins := disabled; Config.RequiredPlugins := required;
          Config.Plugins := plugins; Config.OOMScore := oom_score; Config.Cgroup := cgroup;
          Config.ProxyPlugins := proxies; Config.Timeouts := timeouts;
          Config.Imports := imports; Config.StreamProcessors := processors |}.

(** The keys of a struct table that the struct has no field for. *)
Definition unknown (prefix : list string) (known : list string) (v : toml) : list (list string) :=
  match v with
  | TTable es => (fun k => prefix ++ [k]) <$> filter (fun k => k ∉ known) es.*1
  | _ => []
  end.

(** The same for every struct of a map of structs. *)
Definition unknown_in_map (prefix : list string) (known : list string) (v : toml)
    : list (list string) :=
  match v with
  | TTable es => concat ((fun kv : string * toml => unknown (prefix ++ [kv.1]) known kv.2) <$> es)
  | _ => []
  end.

Definition missing_of_entry (kv : string * toml) : list (list string) :=
  let '(k, v) := kv in
  if decide (k = "grpc") then unknown [k] GRPC_keys v
  else if decide (k = "ttrpc") then unknown [k] TTRPC_keys v
  else if decide (k = "debug") then unknown [k] Debug_keys v
  else if decide (k = "metrics") then unknown [k] Metrics_keys v
  else if decide (k = "cgroup") then unknown [k] Cgroup_keys v
  else if decide (k = "proxy_plugins") then unknown_in_map [k] ProxyPlugin_keys v
  else if decide (k = "stream_processors") then unknown_in_map [k] StreamProcessor_keys v
  else if decide (k ∈ Config_keys) then []
  else [[k]].

(** The fields of the document that [Config] lacks, in document order. *)
Definition missing (doc : document) : list (list string) :=
  concat (missing_of_entry <$> doc).

(** [toml.NewDecoder(f).Decode(target)], and with [strict] the same
    after [DisallowUnknownFields()]: the strict decoder reads the whole
    document and then fails if any field was missing in the target. *)
Definition Decode (strict : bool) (f : file_content) (target : Config.t)
    : decode_error + Config.t :=
  match f with
  | Unreadable => inl ReadError
  | Malformed => inl DecodeError
  | Parsed doc =>
      match decode_Config doc target with
      | None => inl DecodeError
      | Some config =>
          if strict && bool_decide (missing doc ≠ [])
          then inl (StrictMissingError (missing doc))
          else inr config
      end
  end.

End Decoder.

(** ** The file system *)

(** An open file: what it holds, and whether [f.Seek(0, io.SeekStart)]
    succeeds on it (it does on regular files). *)
Record file : Type := {
  content : Decoder.file_content;
  seekable : bool
}.

(** The files that [os.Open] can open, by path as written, and the
    matches of [filepath.Glob] for every pattern; [None] for a malformed
    pattern, the only error [Glob] returns. *)
Record FileSystem : Type := {
  fs_files : gmap string file;
  fs_glob : string -> option (list string)
}.

Definition os_Open (fs : FileSystem) (path : string) : M file :=
  emit (EvOpen path);;
  match fs_files fs !! path with
  | Some f => ret f
  | None => fail (ErrOpen path)
  end.

Definition filepath_Glob (fs : FileSystem) (pattern : string) : M (list string) :=
  emit (EvGlob pattern);;
  match fs_glob fs pattern with
  | Some matches => ret matches
  | None => fail (ErrBadPattern pattern)
  end.

(** ** [loadConfigFile] *)

(** One warning for every error of the strict decoder. *)
Fixpoint warn_unknown_keys (path : string) (errors : list (list string)) : M unit :=
  match errors with
  | [] => ret tt
  | key :: errors' =>
      emit (EvWarnUnknownKey path (String.concat " " key));;
      warn_unknown_keys path errors'
  end.

(** [loadConfigFile] decodes a TOML file at the given path. *)
Definition loadConfigFile (fs : FileSystem) (path : string) : M Config.t :=
  f ← os_Open fs path;
  match Decoder.Decode true (content f) Config.zero with
  | inr config => ret config
  | inl err =>
      (* the second attempt, if the first failed on unknown fields only *)
      second ←
        match err with
        | Decoder.StrictMissingError errors =>
            warn_unknown_keys path errors;;
            if seekable f
            then ret (Decoder.Decode false (content f) Config.zero)
            else fail (ErrSeek path)
        | _ => ret (inl err)
        end;
      match second with
      | inr config => ret config
      | inl Decoder.DecodeError =>
          emit (EvErrorUnmarshal path);; fail (ErrUnmarshalAt path)
      | inl _ => fail (ErrUnmarshal path)
      end
  end.

(** ** [resolveImports] *)

(** The loop of [resolveImports]; [out] is the slice built so far. *)
Fixpoint resolveImports_loop (fs : FileSystem) (parent : string)
    (imports : list string) (out : list string) : M (list string) :=
  match imports with
  | [] => ret out
  | path :: imports' =>
      if strings.Contains path "*" then
        matches ← filepath_Glob fs path;
        resolveImports_loop fs parent imports' (out ++ matches)
      else
        let path := filepath.Clean path in
        let path :=
          if filepath.IsAbs path then path
          else filepath.Join [filepath.Dir parent; path] in
        resolveImports_loop fs parent imports' (out ++ [path])
  end.

(** [resolveImports] resolves the import strings of the file [parent]. *)
Definition resolveImports (fs : FileSystem) (parent : string) (imports : list string)
    : M (list string) :=
  resolveImports_loop fs parent imports [].

(** ** [LoadConfig] *)

(** The state of the [for len(pending) > 0] loop. [path] is the variable
    of that name: the loop assigns every path it takes from the queue to
    it. *)
Record load_state : Type := {
  ls_path : string;
  ls_out : Config.t;
  ls_loaded : gmap string bool;
  ls_pending : list string
}.

(** At most [fuel] iterations of the loop. *)
Fixpoint LoadConfig_loop (E : mergo.ElemMerge) (ro : RangeOrder) (fs : FileSystem)
    (fuel : nat) (st : load_state) : M load_state :=
  match ls_pending st with
  | [] => ret st
  | path :: pending =>
      match fuel with
      | O => fail OutOfFuel
      | S fuel' =>
          if decide (is_Some (ls_loaded st !! path)) then
            LoadConfig_loop E ro fs fuel'
              {| ls_path := path; ls_out := ls_out st; ls_loaded := ls_loaded st;
                 ls_pending := pending |}
          else
            config ← loadConfigFile fs path;
            emit (EvMerge path);;
            out ← lift (mergeConfig E ro (ls_out st) config);
            imports ← resolveImports fs path (Config.Imports config);
            LoadConfig_loop E ro fs fuel'
              {| ls_path := path; ls_out := out;
                 ls_loaded := <[path := true]> (ls_loaded st);
                 ls_pending := pending ++ imports |}
      end
  end.

(** The number of paths that the file at [path] adds to the queue. *)
Definition import_count (fs : FileSystem) (path : string) : nat :=
  match outcome (loadConfigFile fs path) with
  | Ok config =>
      match outcome (resolveImports fs path (Config.Imports config)) with
      | Ok imports => length imports
      | Err _ => 0
      end
  | Err _ => 0
  end.

(** A bound on the iterations still to come: the paths in the queue, and
    what the files not loaded yet can add to it. *)
Definition potential (fs : FileSystem) (loaded : gmap string bool) (pending : list string) : nat :=
  length pending
  + sum_list_with (import_count fs) (elements (dom (fs_files fs) ∖ dom loaded)).

(** [LoadConfig] loads the containerd server config from the provided
    path. [out] is [None] for a nil pointer; the tree that Go leaves
    behind [out] is returned on success. *)
Definition LoadConfig (E : mergo.ElemMerge) (ro : RangeOrder) (fs : FileSystem)
    (path : string) (out : option Config.t) : M Config.t :=
  match out with
  | None => fail (ErrOutNil ErrInvalidArgument)
  | Some out =>
      st ← LoadConfig_loop E ro fs (potential fs ∅ [path])
             {| ls_path := path; ls_out := out; ls_loaded := ∅; ls_pending := [path] |};
      (* Fix up the list of config files loaded *)
      let out := Config.set_Imports (ls_out st) (fst <$> range ro (Some (ls_loaded st))) in
      match ValidateV2 ro out with
      | Some err => fail (ErrLoadTOML (ls_path st) err)
      | None => ret out
      end
  end.

(** ** Runs of the loop of [LoadConfig] *)

(** The paths that a sequence of events opens and merges, in order. *)
Definition opened (tr : list event) : list string :=
  omap (fun ev => match ev with EvOpen p => Some p | _ => None end) tr.

Definition merged (tr : list event) : list string :=
  omap (fun ev => match ev with EvMerge p => Some p | _ => None end) tr.

(** The import graph: [q] is reachable from the root if it is the root or
    is among the resolved imports of a reachable file that decodes. *)
Inductive reachable (fs : FileSystem) (root : string) : string -> Prop :=
  | reachable_root : reachable fs root root
  | reachable_import p q config imports :
      reachable fs root p ->
      outcome (loadConfigFile fs p) = Ok config ->
      outcome (resolveImports fs p (Config.Imports config)) = Ok imports ->
      q ∈ imports ->
      reachable fs root q.

(** The loop without a bound: [loop_run E ro fs st tr r] says that the
    loop started in state [st] performs the events [tr] and ends with [r],
    the state at the exit of the loop or the error returned from inside
    it. One rule for the exit, one for a path that is skipped, one for
    each [return err], one for a full iteration. *)
Inductive loop_run (E : mergo.ElemMerge) (ro : RangeOrder) (fs : FileSystem)
    : load_state -> list event -> result load_state -> Prop :=
  | run_exit st :
      ls_pending st = [] ->
      loop_run E ro fs st [] (Ok st)
  | run_skip st path pending tr r :
      ls_pending st = path :: pending ->
      is_Some (ls_loaded st !! path) ->
      loop_run E ro fs
        {| ls_path := path; ls_out := ls_out st; ls_loaded := ls_loaded st;
           ls_pending := pending |} tr r ->
      loop_run E ro fs st tr r
  | run_load_error st path pending e :
      ls_pending st = path :: pending ->
      ls_loaded st !! path = None ->
      outcome (loadConfigFile fs path) = Err e ->
      loop_run E ro fs st (events (loadConfigFile fs path)) (Err e)
  | run_merge_error st path pending config e :
      ls_pending st = path :: pending ->
      ls_loaded st !! path = None ->
      outcome (loadConfigFile fs path) = Ok config ->
      mergeConfig E ro (ls_out st) config = Err e ->
      loop_run E ro fs st (events (loadConfigFile fs path) ++ [EvMerge path]) (Err e)
  | run_resolve_error st path pending config out e :
      ls_pending st = path :: pending ->
      ls_loaded st !! path = None ->
      outcome (loadConfigFile fs path) = Ok config ->
      mergeConfig E ro (ls_out st) config = Ok out ->
      outcome (resolveImports fs path (Config.Imports config)) = Err e ->
      loop_run E ro fs st
        (events (loadConfigFile fs path) ++ [EvMerge path]
         ++ events (resolveImports fs path (Config.Imports config))) (Err e)
  | run_iteration st path pending config out imports tr r :
      ls_pending st = path :: pending ->
      ls_loaded st !! path = None ->
      outcome (loadConfigFile fs path) = Ok config ->
      mergeConfig E ro (ls_out st) config = Ok out ->
      outcome (resolveImports fs path (Config.Imports config)) = Ok imports ->
      loop_run E ro fs
        {| ls_path := path; ls_out := out; ls_loaded := <[path := true]> (ls_loaded st);
           ls_pending := pending ++ imports |} tr r ->
      loop_run E ro fs st
        (events (loadConfigFile fs path) ++ [EvMerge path]
         ++ events (resolveImports fs path (Config.Imports config)) ++ tr) r.

(** The state in which [LoadConfig] enters the loop. *)
Definition initial_state (path : string) (out : Config.t) : load_state :=
  {| ls_path := path; ls_out := out; ls_loaded := ∅; ls_pending := [path] |}.

(** The call got through the loop: it returned nil, or the error of the
    final validation. *)
Definition traversal_completed (r : result Config.t) : Prop :=
  match r with
  | Ok _ => True
  | Err (ErrLoadTOML _ _) => True
  | Err _ => False
  end.

(** ** The scalar and list fields of a tree *)

(** A scalar field: an integer, a string or a boolean. *)
Inductive scalar : Type :=
  | SInt (z : Z)
  | SString (s : string)
  | SBool (b : bool).

(** The zero value of the kind: [0], the empty string, [false]. *)
Definition is_zero (x : scalar) : bool :=
  match x with
  | SInt z => bool_decide (z = 0%Z)
  | SString s => bool_decide (s = "")
  | SBool b => negb b
  end.

(** All scalar fields of a tree, those of the struct sections included,
    in the order of declaration. *)
Definition scalars (c : Config.t) : list scalar :=
  [ SInt (Config.Version c); SString (Config.Root c); SString (Config.State c);
    SString (Config.TempDir c); SString (Config.PluginDir c);
    SString (GRPCConfig.Address (Config.GRPC c));
    SString (GRPCConfig.TCPAddress (Config.GRPC c));
    SString (GRPCConfig.TCPTLSCA (Config.GRPC c));
    SString (GRPCConfig.TCPTLSCert (Config.GRPC c));
    SString (GRPCConfig.TCPTLSKey (Config.GRPC c));
    SInt (GRPCConfig.UID (Config.GRPC c)); SInt (GRPCConfig.GID (Config.GRPC c));
    SInt (GRPCConfig.MaxRecvMsgSize (Config.GRPC c));
    SInt (GRPCConfig.MaxSendMsgSize (Config.GRPC c));
    SString (TTRPCConfig.Address (Config.TTRPC c));
    SInt (TTRPCConfig.UID (Config.TTRPC c)); SInt (TTRPCConfig.GID (Config.TTRPC c));
    SString (Debug.Address (Config.Debug c));
    SInt (Debug.UID (Config.Debug c)); SInt (Debug.GID (Config.Debug c));
    SString (Debug.Level (Config.Debug c)); SString (Debug.Format (Config.Debug c));
    SString (MetricsConfig.Address (Config.Metrics c));
    SBool (MetricsConfig.GRPCHistogram (Config.Metrics c));
    SInt (Config.OOMScore c);
    SString (CgroupConfig.Path (Config.Cgroup c)) ].

(** The scalar rule of the merge. *)
Definition merge_scalar (dst src : scalar) : scalar :=
  if is_zero src then dst else src.

(** All ordered-list fields of a tree. *)
Definition lists (c : Config.t) : list (list string) :=
  [ Config.DisabledPlugins c; Config.RequiredPlugins c; Config.Imports c ].

(** ** The shape of identifiers *)

Fixpoint count_char (c : ascii) (s : string) : nat :=
  match s with
  | EmptyString => 0
  | String c' s' => (if Ascii.eqb c' c then 1 else 0) + count_char c s'
  end.

(** The number of dot-separated segments of an identifier (a segment may
    be empty): one more than the number of dots. *)
Definition segment_count (p : string) : nat := S (count_char "." p).

(** The dotted-URI shape: the prefix [io.containerd.] and at least four
    dot-separated segments. *)
Definition well_formed_URI (p : string) : Prop :=
  strings.HasPrefix p "io.containerd." = true ∧ (4 ≤ segment_count p)%nat.

(** ** Notions used in the statements *)

(** [result] is [to] with the entries of [from] put over it: a key of
    [from] has the value of [from], any other key is as in [to]. *)
Definition replaced_by {V} (to from result : gomap V) : Prop :=
  (∀ k v, map_index from k = Some v → map_index result k = Some v)
  ∧ (∀ k, map_index from k = None → map_index result k = map_index to k).

(** What one import expression of the file [parent] contributes to the
    result of [resolveImports]: the matches of a glob expression as
    [filepath.Glob] returns them, and for any other expression the one
    cleaned path, joined to the directory of [parent] if it is relative. *)
Definition import_group (fs : FileSystem) (parent expr : string) (group : list string) : Prop :=
  if strings.Contains expr "*" then fs_glob fs expr = Some group
  else group = [ if filepath.IsAbs (filepath.Clean expr) then filepath.Clean expr
                 else filepath.Join [filepath.Dir parent; filepath.Clean expr] ].

(** The import list of the tree that a call returned. *)
Definition imports_of (m : M Config.t) : option (list string) :=
  match outcome m with
  | Ok c => Some (Config.Imports c)
  | Err _ => None
  end.

(** ** Example trees *)

(** Two trees that set the same scalar, the same list and the same plugin
    identifier. *)
Definition plugin_cri : string := "io.containerd.grpc.v1.cri".
Definition plugin_snap : string := "io.containerd.snapshotter.v1.overlayfs".

Definition tree_A : Config.t :=
  {| Config.Version := 2; Config.Root := "/var/lib/a"; Config.State := "";
     Config.TempDir := ""; Config.PluginDir := ""; Config.GRPC := GRPCConfig.zero;
     Config.TTRPC := TTRPCConfig.zero; Config.Debug := Debug.zero;
     Config.Metrics := MetricsConfig.zero; Config.DisabledPlugins := ["1"];
     Config.RequiredPlugins := [];
     Config.Plugins := Some {[ plugin_cri := TTable [("sandbox_image", TString "pause:1")] ]};
     Config.OOMScore := 0; Config.Cgroup := CgroupConfig.zero;
     Config.ProxyPlugins := None;
     Config.Timeouts := Some {[ "io.containerd.timeout.shim.load" := "1s" ]};
     Config.Imports := []; Config.StreamProcessors := None |}.

Definition tree_B : Config.t :=
  {| Config.Version := 2; Config.Root := "/var/lib/b"; Config.State := "";
     Config.TempDir := ""; Config.PluginDir := ""; Config.GRPC := GRPCConfig.zero;
     Config.TTRPC := TTRPCConfig.zero; Config.Debug := Debug.zero;
     Config.Metrics := MetricsConfig.zero; Config.DisabledPlugins := ["2"];
     Config.RequiredPlugins := [];
     Config.Plugins :=
       Some (<[ plugin_cri := TTable [("enable_selinux", TBool true)] ]>
               {[ plugin_snap := TTable [] ]});
     Config.OOMScore := 0; Config.Cgroup := CgroupConfig.zero;
     Config.ProxyPlugins := Some {[ "stargz" := ProxyPlugin.zero ]};
     Config.Timeouts := Some {[ "io.containerd.timeout.shim.load" := "5s" ]};
     Config.Imports := []; Config.StreamProcessors := None |}.

(** A tree of version 2 whose plugin identifiers have the required shape
    and whose proxy plugin and stream processor are named freely. *)
Definition tree_valid : Config.t :=
  {| Config.Version := 2; Config.Root := ""; Config.State := "";
     Config.TempDir := ""; Config.PluginDir := ""; Config.GRPC := GRPCConfig.zero;
     Config.TTRPC := TTRPCConfig.zero; Config.Debug := Debug.zero;
     Config.Metrics := MetricsConfig.zero; Config.DisabledPlugins := [plugin_cri];
     Config.RequiredPlugins := [plugin_snap];
     Config.Plugins := Some {[ plugin_cri := TTable [] ]};
     Config.OOMScore := 0; Config.Cgroup := CgroupConfig.zero;
     Config.ProxyPlugins := Some {[ "stargz" := ProxyPlugin.zero ]};
     Config.Timeouts := None;
     Config.Imports := [];
     Config.StreamProcessors := Some {[ "decoder" := StreamProcessor.zero ]} |}.

(** A tree with the given version and nothing else. *)
Definition tree_version (version : Z) : Config.t :=
  {| Config.Version := version; Config.Root := ""; Config.State := "";
     Config.TempDir := ""; Config.PluginDir := ""; Config.GRPC := GRPCConfig.zero;
     Config.TTRPC := TTRPCConfig.zero; Config.Debug := Debug.zero;
     Config.Metrics := MetricsConfig.zero; Config.DisabledPlugins := [];
     Config.RequiredPlugins := []; Config.Plugins := None; Config.OOMScore := 0;
     Config.Cgroup := CgroupConfig.zero; Config.ProxyPlugins := None;
     Config.Timeouts := None; Config.Imports := []; Config.StreamProcessors := None |}.

(** ** Example file systems *)

(** No file at all, and no pattern matches anything. *)
Definition fs_none : FileSystem :=
  {| fs_files := ∅; fs_glob := fun _ => Some [] |}.

(** A regular file holding a parsed document. *)
Definition regular (doc : Decoder.document) : file :=
  {| content := Decoder.Parsed doc; seekable := true |}.

(** One configuration file, without and with a top-level key that
    [Config] has no field for. *)
Definition doc_plain : Decoder.document :=
  [ ("version", TInt 2); ("root", TString "/var/lib/containerd");
    ("grpc", TTable [("address", TString "/run/containerd/containerd.sock")]) ].

Definition doc_unknown : Decoder.document :=
  [ ("version", TInt 2); ("subreaper", TBool true);
    ("root", TString "/var/lib/containerd");
    ("grpc", TTable [("address", TString "/run/containerd/containerd.sock")]) ].

Definition fs_plain : FileSystem :=
  {| fs_files := {[ "/etc/containerd/config.toml" := regular doc_plain ]};
     fs_glob := fun _ => Some [] |}.

Definition fs_unknown : FileSystem :=
  {| fs_files := {[ "/etc/containerd/config.toml" := regular doc_unknown ]};
     fs_glob := fun _ => Some [] |}.

(** A directory of drop-in files under the working directory of the
    process: [filepath.Glob] answers a relative pattern with relative
    matches. *)
Definition fs_dropins : FileSystem :=
  {| fs_files := {[ "conf.d/10-cri.toml" := regular []; "conf.d/20-nri.toml" := regular [] ]};
     fs_glob := fun pattern =>
       if decide (pattern = "conf.d/*.toml")
       then Some ["conf.d/10-cri.toml"; "conf.d/20-nri.toml"]
       else Some [] |}.

(** Three files that import each other in a cycle; the first one also
    imports itself, the last one is imported twice. *)
Definition root_toml : string := "/etc/containerd/config.toml".
Definition b_toml : string := "/etc/containerd/conf.d/b.toml".
Definition c_toml : string := "/etc/containerd/conf.d/c.toml".

Definition fs_cycle : FileSystem :=
  {| fs_files :=
       {[ root_toml :=
            regular [ ("version", TInt 2);
                      ("imports", TArray [TString "conf.d/b.toml"; TString root_toml;
                                          TString "conf.d/c.toml"]) ];
          b_toml :=
            regular [ ("root", TString "/var/lib/b");
                      ("imports", TArray [TString "../config.toml"; TString "c.toml"]) ];
          c_toml :=
            regular [ ("imports", TArray [TString "b.toml"]) ] ]};
     fs_glob := fun _ => Some [] |}.

(** ** Plugin registrations, [V2DisabledFilter] and [Decode] *)

Module plugin.

(** Modelled from the spec: the package [plugin] is not among the
    sources. A registration is kept as the identifier that its method
    [URI()] returns and its field [Config], the configuration of the
    plugin that [Decode] fills in. *)
Record Registration (T : Type) : Type := {
  URI : string;
  Config : T
}.
Arguments URI {T} _.
Arguments Config {T} _.

End plugin.

(** [V2DisabledFilter] matches based on URI: the list is put into a set,
    and the filter that is returned looks the URI of a registration up in
    it. *)
Definition V2DisabledFilter {T} (list : list string) : plugin.Registration T -> bool :=
  let set := foldl (fun (set : gmap string unit) l => <[l := tt]> set) ∅ list in
  fun r => bool_decide (is_Some (set !! plugin.URI r)).

(** What [Decode] asks of the TOML library for a plugin configuration of
    type [T]: [toml.Marshal] of the plugin's data gives bytes or fails;
    the strict decoder and [toml.Unmarshal] write into the configuration
    they are given and may return an error. *)
Record PluginCodec (T : Type) : Type := {
  encoded : Type;
  toml_Marshal : toml -> option encoded;
  decode_strict : encoded -> T -> T * option Decoder.decode_error;
  toml_Unmarshal : encoded -> T -> T * option Decoder.decode_error
}.
Arguments encoded {T} _.
Arguments toml_Marshal {T} _ _.
Arguments decode_strict {T} _ _ _.
Arguments toml_Unmarshal {T} _ _ _.

(** The errors of [Decode], returned as the library made them. *)
Inductive plugin_error : Type :=
  | MarshalError
  | DecodeFailed (err : Decoder.decode_error).

(** [Decode] unmarshals a plugin specific configuration by plugin id. The
    result is the warnings logged (plugin id and key) and the
    configuration returned or the error. The second attempt decodes into
    the configuration as the first one left it. *)
Definition Config_Decode {T} (codec : PluginCodec T) (c : Config.t)
    (p : plugin.Registration T) : list (string * string) * (plugin_error + T) :=
  let id := plugin.URI p in
  match map_index (Config.Plugins c) id with
  | None => ([], inr (plugin.Config p))
  | Some data =>
      match toml_Marshal codec data with
      | None => ([], inl MarshalError)
      | Some b =>
          match decode_strict codec b (plugin.Config p) with
          | (config, None) => ([], inr config)
          | (config, Some (Decoder.StrictMissingError errors)) =>
              let warnings := (fun key => (id, String.concat " " key)) <$> errors in
              match toml_Unmarshal codec b config with
              | (config', None) => (warnings, inr config')
              | (_, Some err) => (warnings, inl (DecodeFailed err))
              end
          | (_, Some err) => ([], inl (DecodeFailed err))
          end
      end
  end.

(** ** [LoadConfig] as a sequence of merges *)

(** [mergeConfig] of the trees of a list, one after the other, into
    [out]; the first error ends it. *)
Definition merge_all (E : mergo.ElemMerge) (ro : RangeOrder) (out : Config.t)
    (trees : list Config.t) : result Config.t :=
  foldl (fun acc tree => out ← acc; mergeConfig E ro out tree) (Ok out) trees.

(** The tree that [loadConfigFile] returns for a path, if it returns one. *)
Definition decoded (fs : FileSystem) (path : string) : option Config.t :=
  match outcome (loadConfigFile fs path) with
  | Ok config => Some config
  | Err _ => None
  end.

(** The trees of the files that a sequence of events opens, in order. *)
Definition visited_trees (fs : FileSystem) (tr : list event) : list Config.t :=
  omap (decoded fs) (opened tr).

(** The resolved imports of the file at a path (none if the file does not
    decode or its imports do not resolve). *)
Definition resolved (fs : FileSystem) (path : string) : list string :=
  match decoded fs path with
  | Some config =>
      match outcome (resolveImports fs path (Config.Imports config)) with
      | Ok imports => imports
      | Err _ => []
      end
  | None => []
  end.

(** Every path that enters the queue during a sequence of events: the
    root, then the resolved imports of each file opened, in order. *)
Definition enqueued (fs : FileSystem) (root : string) (tr : list event) : list string :=
  root :: concat (resolved fs <$> opened tr).

(** The values that the trees of a list have under a key of one of
    their maps, in the order of the list. *)
Definition values_at {V} (f : Config.t -> gomap V) (k : string) (trees : list Config.t)
    : list V :=
  omap (fun tree => map_index (f tree) k) trees.

(** The values other than the zero value that the trees of a list have
    in the scalar field number [i], in the order of the list. *)
Definition settings_at (i : nat) (trees : list Config.t) : list scalar :=
  omap (fun tree => match scalars tree !! i with
                    | Some y => if is_zero y then None else Some y
                    | None => None
                    end) trees.

(** Two trees with the same scalars, the same lists and the same entries
    in their four maps. *)
Definition same_content (c c' : Config.t) : Prop :=
  scalars c = scalars c'
  ∧ lists c = lists c'
  ∧ (∀ k, map_index (Config.Plugins c) k = map_index (Config.Plugins c') k)
  ∧ (∀ k, map_index (Config.StreamProcessors c) k = map_index (Config.StreamProcessors c') k)
  ∧ (∀ k, map_index (Config.ProxyPlugins c) k = map_index (Config.ProxyPlugins c') k)
  ∧ (∀ k, map_index (Config.Timeouts c) k = map_index (Config.Timeouts c') k).

(** The errors of [ValidateV2] about the version. *)
Definition version_error (e : error) : Prop :=
  e = ErrVersion1 ∨ ∃ version, e = ErrExpectedVersion2 version.

(** The errors of [ValidateV2] about an identifier. *)
Definition identifier_error (e : error) : Prop :=
  ∃ p, e = ErrDisabledPlugin p ∨ e = ErrRequiredPlugin p ∨ e = ErrPluginKey p.

(** A codec for a plugin whose configuration is a [ProxyPlugin]: the
    encoded form of a table is the table; the decoders are those of
    [Decoder] for the struct, the strict one reporting the keys that the
    struct lacks. *)
Definition example_codec : PluginCodec ProxyPlugin.t :=
  {| encoded := list (string * toml);
     toml_Marshal := fun data =>
       match data with
       | TTable es => Some es
       | _ => None
       end;
     decode_strict := fun es config =>
       match Decoder.decode_ProxyPlugin (TTable es) with
       | None => (config, Some Decoder.DecodeError)
       | Some decoded =>
           match Decoder.unknown [] Decoder.ProxyPlugin_keys (TTable es) with
           | [] => (decoded, None)
           | errors => (decoded, Some (Decoder.StrictMissingError errors))
           end
       end;
     toml_Unmarshal := fun es config =>
       match Decoder.decode_ProxyPlugin (TTable es) with
       | None => (config, Some Decoder.DecodeError)
       | Some decoded => (decoded, None)
       end |}.

(** A file that disables a plugin and configures one, imported by a root
    that configures the same plugin. *)
Definition a_toml : string := "/etc/containerd/a.toml".
Definition fs_overlay : FileSystem :=
  {| fs_files :=
       {[ root_toml :=
            regular [ ("version", TInt 2); ("root", TString "/var/lib/containerd");
                      ("imports", TArray [TString "a.toml"]);
                      ("disabled_plugins", TArray [TString plugin_cri]);
                      ("plugins", TTable [(plugin_snap, TTable [("a", TInt 1)])]) ];
          a_toml :=
            regular [ ("root", TString "/var/lib/a");
                      ("disabled_plugins", TArray [TString plugin_snap]);
                      ("plugins", TTable [(plugin_snap, TTable [("b", TInt 2)])]) ] ]};
     fs_glob := fun _ => Some [] |}.

(** A root that imports a file whose table of plugins has a malformed
    key, and then an empty file. *)
Definition fs_bad_key : FileSystem :=
  {| fs_files :=
       {[ root_toml :=
            regular [ ("version", TInt 2);
                      ("imports", TArray [TString "a.toml"; TString "conf.d/b.toml"]) ];
          a_toml := regular [ ("plugins", TTable [("cri", TTable [])]) ];
          b_toml := regular [] ]};
     fs_glob := fun _ => Some [] |}.

(** ** Properties of the merge *)

Section merge.
Context (E : mergo.ElemMerge) (ro : RangeOrder).

Lemma range_perm {V} (g : gmap string V) : range ro (Some g) ≡ₚ map_to_list g.
Proof. apply range_order_perm. Qed.

Lemma range_NoDup {V} (m : gomap V) : NoDup (range ro m).*1.
Proof.
  destruct m as [g|]; [|constructor].
  rewrite range_perm. apply NoDup_fst_map_to_list.
Qed.

Lemma range_lookup {V} (m : gomap V) k v : (k, v) ∈ range ro m ↔ map_index m k = Some v.
Proof.
  destruct m as [g|]; simpl.
  - change (range_order ro V (map_to_list g)) with (range ro (Some g)).
    rewrite range_perm. apply elem_of_map_to_list.
  - split; [by intros ?%elem_of_nil | done].
Qed.

Lemma range_keys {V} (m : gomap V) k : k ∈ (range ro m).*1 ↔ is_Some (map_index m k).
Proof.
  rewrite list_elem_of_fmap. split.
  - intros [[k' v] [-> Hin]]. exists v. by apply range_lookup.
  - intros [v Hv]. exists (k, v). split; [done | by apply range_lookup].
Qed.

(** The structural merge of a map field leaves alone every key that
    [src] lacks, and leaves a map behind whenever [src] is one. *)
Lemma merge_entries_err {V} (elem : option V -> V -> mergo.stored V) l e :
  foldl (mergo.merge_entry elem) (Err e) l = Err e.
Proof. induction l as [|kv l IH]; simpl; [done | apply IH]. Qed.

Lemma merge_entries_other {V} (elem : option V -> V -> mergo.stored V) l :
  ∀ g r k, foldl (mergo.merge_entry elem) (Ok g) l = Ok r → k ∉ l.*1 → r !! k = g !! k.
Proof.
  induction l as [|[k' v] l IH]; intros g r k Hfold Hk; simpl in Hfold.
  - by injection Hfold as <-.
  - apply not_elem_of_cons in Hk as [Hne Hk].
    simpl in Hne.
    destruct (elem (g !! k') v) as [|v'|detail] eqn:He; simpl in Hfold.
    + by apply IH.
    + rewrite (IH _ _ _ Hfold Hk). by rewrite lookup_insert_ne.
    + by rewrite merge_entries_err in Hfold.
Qed.

Lemma merge_map_other {V} (elem : option V -> V -> mergo.stored V) (dst src r : gomap V) k :
  mergo.merge_map ro elem dst src = Ok r →
  map_index src k = None → map_index r k = map_index dst k.
Proof.
  unfold mergo.merge_map. destruct src as [s|]; [|by intros [= ->]].
  intros Hr Hk.
  destruct (foldl _ _ _) as [g|e] eqn:Hfold; [|done].
  injection Hr as <-. simpl.
  rewrite (merge_entries_other _ _ _ _ k Hfold).
  - by destruct dst.
  - rewrite range_keys, Hk. by intros [? ?].
Qed.

Lemma merge_map_not_nil {V} (elem : option V -> V -> mergo.stored V) (dst src r : gomap V) :
  mergo.merge_map ro elem dst src = Ok r → is_Some src → is_Some r.
Proof.
  unfold mergo.merge_map. intros Hr [s ->].
  destruct (foldl _ _ _); [|done]. injection Hr as <-. by eexists.
Qed.

(** The assignment loop of [mergeConfig]: afterwards every key of [src]
    has the value of [src], and the other keys are as before. *)
Lemma assign_entries {V} (l : list (string * V)) :
  ∀ d, NoDup l.*1 →
    foldl (fun acc kv => d ← acc; map_assign d kv.1 kv.2) (Ok (Some d)) l
    = Ok (Some (list_to_map l ∪ d)).
Proof.
  induction l as [|[k v] l IH]; intros d Hnd.
  - cbn [foldl]. by rewrite list_to_map_nil, (left_id_L ∅ (∪)).
  - rewrite fmap_cons in Hnd. apply NoDup_cons in Hnd as [Hk Hnd].
    cbn [foldl].
    change (Ok (Some d) ≫= _) with (Ok (Some (<[k:=v]> d)) : result (gomap V)).
    rewrite (IH _ Hnd). do 2 f_equal.
    rewrite list_to_map_cons.
    apply map_eq. intros i. rewrite !lookup_union.
    destruct (decide (i = k)) as [->|Hne].
    + rewrite !lookup_insert_eq.
      rewrite (not_elem_of_list_to_map_1 l k Hk). by destruct (d !! k).
    + by rewrite !lookup_insert_ne.
Qed.

Lemma assign_all_lookup {V} (dst src r : gomap V) k :
  assign_all ro dst src = Ok r →
  map_index r k = match map_index src k with
                  | Some v => Some v
                  | None => map_index dst k
                  end.
Proof.
  unfold assign_all. intros Hr.
  destruct src as [s|]; [|by injection Hr as <-].
  destruct dst as [d|].
  - rewrite assign_entries in Hr by apply (range_NoDup (Some s)).
    injection Hr as <-.
    rewrite (list_to_map_proper _ (map_to_list s)), list_to_map_to_list.
    + cbn. rewrite lookup_union. destruct (s !! k), (d !! k); done.
    + apply (range_NoDup (Some s)).
    + apply range_perm.
  - destruct (range ro (Some s)) as [|[k' v'] l] eqn:Hl.
    + injection Hr as <-. cbn.
      destruct (s !! k) as [v|] eqn:Hv; [|done].
      apply (range_lookup (Some s)) in Hv. rewrite Hl in Hv. by apply elem_of_nil in Hv.
    + exfalso. cbn [foldl] in Hr. clear -Hr.
      change (Ok None ≫= _) with (Err PanicNilMap : result (gomap V)) in Hr.
      induction l as [|? l IHl]; cbn [foldl] in Hr; [done | by apply IHl].
Qed.

Lemma assign_all_ok {V} (dst src : gomap V) :
  (is_Some src → is_Some dst) → ∃ r, assign_all ro dst src = Ok r.
Proof.
  intros Hnil. unfold assign_all.
  destruct src as [s|]; [|by eexists].
  destruct Hnil as [d ->]; [by eexists|].
  rewrite assign_entries by apply (range_NoDup (Some s)). by eexists.
Qed.

Lemma merge_scalar_string dst src :
  SString (mergo.merge_string dst src) = merge_scalar (SString dst) (SString src).
Proof.
  unfold mergo.merge_string, merge_scalar, is_zero.
  case_decide; case_bool_decide; done.
Qed.

Lemma merge_scalar_int dst src :
  SInt (mergo.merge_int dst src) = merge_scalar (SInt dst) (SInt src).
Proof.
  unfold mergo.merge_int, merge_scalar, is_zero.
  case_decide; case_bool_decide; done.
Qed.

Lemma merge_scalar_bool dst src :
  SBool (mergo.merge_bool dst src) = merge_scalar (SBool dst) (SBool src).
Proof. by destruct src. Qed.

Lemma Merge_inv dst src m :
  mergo.Merge E ro dst src = Ok m →
  ∃ plugins proxies timeouts processors,
    mergo.merge_map ro (mergo.elem_plugin E) (Config.Plugins dst) (Config.Plugins src) = Ok plugins
    ∧ mergo.merge_map ro (mergo.elem_proxy E) (Config.ProxyPlugins dst) (Config.ProxyPlugins src)
      = Ok proxies
    ∧ mergo.merge_map ro (mergo.elem_timeout E) (Config.Timeouts dst) (Config.Timeouts src)
      = Ok timeouts
    ∧ mergo.merge_map ro (mergo.elem_processor E) (Config.StreamProcessors dst)
        (Config.StreamProcessors src) = Ok processors
    ∧ Config.Plugins m = plugins ∧ Config.ProxyPlugins m = proxies
    ∧ Config.Timeouts m = timeouts ∧ Config.StreamProcessors m = processors
    ∧ scalars m = zip_with merge_scalar (scalars dst) (scalars src)
    ∧ lists m = zip_with app (lists dst) (lists src).
Proof.
  unfold mergo.Merge. intros Hm.
  destruct (mergo.merge_map ro (mergo.elem_plugin E) _ _) as [plugins|] eqn:H1; [|done].
  destruct (mergo.merge_map ro (mergo.elem_proxy E) _ _) as [proxies|] eqn:H2; [|done].
  destruct (mergo.merge_map ro (mergo.elem_timeout E) _ _) as [timeouts|] eqn:H3; [|done].
  destruct (mergo.merge_map ro (mergo.elem_processor E) _ _) as [processors|] eqn:H4; [|done].
  cbn in Hm. injection Hm as <-.
  exists plugins, proxies, timeouts, processors.
  repeat (split; [done|]). split; [|done].
  unfold scalars; cbn [zip_with Config.Version Config.Root Config.State Config.TempDir
    Config.PluginDir Config.GRPC Config.TTRPC Config.Debug Config.Metrics Config.OOMScore
    Config.Cgroup].
  repeat (apply (f_equal2 cons);
          [first [apply merge_scalar_string | apply merge_scalar_int | apply merge_scalar_bool]|]).
  done.
Qed.

(** [mergeConfig] fails only where the structural merge fails: the
    assignments never meet a nil map. *)
Lemma mergeConfig_inv to from m :
  mergo.Merge E ro to from = Ok m →
  ∃ plugins processors proxies timeouts,
    assign_all ro (Config.Plugins m) (Config.Plugins from) = Ok plugins
    ∧ assign_all ro (Config.StreamProcessors m) (Config.StreamProcessors from) = Ok processors
    ∧ assign_all ro (Config.ProxyPlugins m) (Config.ProxyPlugins from) = Ok proxies
    ∧ assign_all ro (Config.Timeouts m) (Config.Timeouts from) = Ok timeouts
    ∧ mergeConfig E ro to from
      = Ok (Config.set_maps m plugins processors proxies timeouts).
Proof.
  intros Hm. unfold mergeConfig. rewrite Hm. cbn.
  destruct (Merge_inv _ _ _ Hm)
    as (plugins & proxies & timeouts & processors & H1 & H2 & H3 & H4 & E1 & E2 & E3 & E4 & _).
  destruct (assign_all_ok (Config.Plugins m) (Config.Plugins from)) as [r1 Hr1].
  { rewrite E1. by eapply merge_map_not_nil. }
  destruct (assign_all_ok (Config.StreamProcessors m) (Config.StreamProcessors from)) as [r2 Hr2].
  { rewrite E4. by eapply merge_map_not_nil. }
  destruct (assign_all_ok (Config.ProxyPlugins m) (Config.ProxyPlugins from)) as [r3 Hr3].
  { rewrite E2. by eapply merge_map_not_nil. }
  destruct (assign_all_ok (Config.Timeouts m) (Config.Timeouts from)) as [r4 Hr4].
  { rewrite E3. by eapply merge_map_not_nil. }
  exists r1, r2, r3, r4. rewrite Hr1, Hr2, Hr3, Hr4. by cbn.
Qed.

Lemma mergeConfig_Ok_inv to from to' :
  mergeConfig E ro to from = Ok to' → ∃ m, mergo.Merge E ro to from = Ok m.
Proof.
  unfold mergeConfig. destruct (mergo.Merge E ro to from) as [m|e]; [by eexists | done].
Qed.

Lemma replaced_by_assign {V} (elem : option V -> V -> mergo.stored V)
    (to from merged r : gomap V) :
  mergo.merge_map ro elem to from = Ok merged →
  assign_all ro merged from = Ok r →
  replaced_by to from r.
Proof.
  intros Hm Hr. split.
  - intros k v Hk. by rewrite (assign_all_lookup _ _ _ k Hr), Hk.
  - intros k Hk. rewrite (assign_all_lookup _ _ _ k Hr), Hk.
    by eapply merge_map_other.
Qed.

End merge.

(** With an element merge that cannot fail the structural merge cannot
    fail, so [mergeConfig] returns a tree for every pair of trees. *)
Lemma merge_map_replace_ok {V} ro (elem : option V -> V -> mergo.stored V) (dst src : gomap V) :
  (∀ o v detail, elem o v ≠ mergo.Fail detail) → ∃ r, mergo.merge_map ro elem dst src = Ok r.
Proof.
  intros Helem. unfold mergo.merge_map. destruct src as [s|]; [|by eexists].
  generalize (default ∅ dst). induction (range ro (Some s)) as [|[k v] l IH]; intros g.
  - by eexists.
  - cbn [foldl]. unfold mergo.merge_entry at 2. cbn.
    destruct (elem (g !! k) v) as [|v'|detail] eqn:He; cbn; [apply IH | apply IH |].
    by destruct (Helem _ _ _ He).
Qed.

Lemma mergeConfig_replace_total ro to from :
  ∃ to', mergeConfig mergo.replace_elems ro to from = Ok to'.
Proof.
  assert (∃ m, mergo.Merge mergo.replace_elems ro to from = Ok m) as [m Hm].
  { unfold mergo.Merge.
    destruct (merge_map_replace_ok ro (mergo.elem_plugin mergo.replace_elems)
                (Config.Plugins to) (Config.Plugins from)) as [r1 ->]; [done|].
    destruct (merge_map_replace_ok ro (mergo.elem_proxy mergo.replace_elems)
                (Config.ProxyPlugins to) (Config.ProxyPlugins from)) as [r2 ->]; [done|].
    destruct (merge_map_replace_ok ro (mergo.elem_timeout mergo.replace_elems)
                (Config.Timeouts to) (Config.Timeouts from)) as [r3 ->]; [done|].
    destruct (merge_map_replace_ok ro (mergo.elem_processor mergo.replace_elems)
                (Config.StreamProcessors to) (Config.StreamProcessors from)) as [r4 ->];
      [done|].
    by eexists. }
  destruct (mergeConfig_inv _ ro _ _ _ Hm) as (? & ? & ? & ? & _ & _ & _ & _ & ->).
  by eexists.
Qed.

(** C1. Whenever the structural merge of [to] and [from] goes through,
    [mergeConfig] returns a tree in which each of the four maps (plugins,
    stream processors, proxy plugins, timeouts) has, for every key of
    [from], exactly the value of [from], and for every other key what [to]
    had. This holds whatever the structural merge stores for the entries
    of these maps, in particular when it combines two values field by
    field. *)
Theorem mergeConfig_maps_replaced E ro to from m :
  mergo.Merge E ro to from = Ok m →
  ∃ to', mergeConfig E ro to from = Ok to'
    ∧ replaced_by (Config.Plugins to) (Config.Plugins from) (Config.Plugins to')
    ∧ replaced_by (Config.StreamProcessors to) (Config.StreamProcessors from)
        (Config.StreamProcessors to')
    ∧ replaced_by (Config.ProxyPlugins to) (Config.ProxyPlugins from) (Config.ProxyPlugins to')
    ∧ replaced_by (Config.Timeouts to) (Config.Timeouts from) (Config.Timeouts to').
Proof.
  intros Hm.
  destruct (mergeConfig_inv _ _ _ _ _ Hm)
    as (plugins & processors & proxies & timeouts & A1 & A2 & A3 & A4 & ->).
  destruct (Merge_inv _ _ _ _ _ Hm)
    as (? & ? & ? & ? & H1 & H2 & H3 & H4 & E1 & E2 & E3 & E4 & _).
  subst. eexists. split; [done|]. cbn.
  repeat split; eapply replaced_by_assign; eauto.
Qed.

Lemma mergeConfig_maps_replaced_witness :
  ∃ to', mergeConfig mergo.union_elems range_id tree_A tree_B = Ok to'
    ∧ replaced_by (Config.Plugins tree_A) (Config.Plugins tree_B) (Config.Plugins to')
    ∧ replaced_by (Config.StreamProcessors tree_A) (Config.StreamProcessors tree_B)
        (Config.StreamProcessors to')
    ∧ replaced_by (Config.ProxyPlugins tree_A) (Config.ProxyPlugins tree_B)
        (Config.ProxyPlugins to')
    ∧ replaced_by (Config.Timeouts tree_A) (Config.Timeouts tree_B) (Config.Timeouts to').
Proof.
  eapply mergeConfig_maps_replaced. vm_compute. reflexivity.
Defined.

(** The scalar and list fields after [mergeConfig]. *)
Lemma mergeConfig_fields E ro to from to' :
  mergeConfig E ro to from = Ok to' →
  scalars to' = zip_with merge_scalar (scalars to) (scalars from)
  ∧ lists to' = zip_with app (lists to) (lists from).
Proof.
  intros Hto'.
  destruct (mergeConfig_Ok_inv _ _ _ _ _ Hto') as [m Hm].
  destruct (mergeConfig_inv _ _ _ _ _ Hm) as (? & ? & ? & ? & _ & _ & _ & _ & Heq).
  rewrite Heq in Hto'. injection Hto' as <-.
  destruct (Merge_inv _ _ _ _ _ Hm) as (? & ? & ? & ? & _ & _ & _ & _ & _ & _ & _ & _ & Hs & Hl).
  by rewrite <- Hs, <- Hl.
Qed.

Lemma mergeConfig_scalar E ro to from to' i x y :
  mergeConfig E ro to from = Ok to' →
  scalars to !! i = Some x → scalars from !! i = Some y →
  scalars to' !! i = Some (merge_scalar x y).
Proof.
  intros [Hs _]%mergeConfig_fields Hx Hy.
  by rewrite Hs, lookup_zip_with, Hx, Hy.
Qed.

Lemma scalars_length c : length (scalars c) = 26.
Proof. done. Qed.

Lemma scalars_lookup_is_Some c c' i : is_Some (scalars c !! i) → is_Some (scalars c' !! i).
Proof. rewrite !lookup_lt_is_Some, !scalars_length. done. Qed.

(** C5. The merge is order-sensitive for scalars. Let [A] and [B] both
    set the scalar field number [i] to a value that is not the zero value.
    Merging [A] then [B] into an accumulator leaves the value of [B];
    merging [B] then [A] leaves the value of [A]. And in any merge, a
    scalar of [from] that is the zero value leaves the scalar of [to] as
    it is. The scalar fields are all integer, string and boolean fields
    of the tree, those of the nested sections included. *)
Theorem mergeConfig_scalars_order_sensitive E ro acc A B accA accAB accB accBA i a b :
  mergeConfig E ro acc A = Ok accA → mergeConfig E ro accA B = Ok accAB →
  mergeConfig E ro acc B = Ok accB → mergeConfig E ro accB A = Ok accBA →
  scalars A !! i = Some a → scalars B !! i = Some b →
  is_zero a = false → is_zero b = false →
  scalars accAB !! i = Some b
  ∧ scalars accBA !! i = Some a
  ∧ (∀ to from to' x, mergeConfig E ro to from = Ok to' →
       scalars from !! i = Some x → is_zero x = true →
       scalars to' !! i = scalars to !! i).
Proof.
  intros HA HAB HB HBA Ha Hb Za Zb.
  destruct (scalars_lookup_is_Some A accA i) as [x Hx]; [by eexists|].
  destruct (scalars_lookup_is_Some A accB i) as [y Hy]; [by eexists|].
  split; [|split].
  - rewrite (mergeConfig_scalar _ _ _ _ _ _ _ _ HAB Hx Hb).
    unfold merge_scalar. by rewrite Zb.
  - rewrite (mergeConfig_scalar _ _ _ _ _ _ _ _ HBA Hy Ha).
    unfold merge_scalar. by rewrite Za.
  - intros to from to' z Hm Hz Zz.
    destruct (scalars_lookup_is_Some from to i) as [w Hw]; [by eexists|].
    rewrite (mergeConfig_scalar _ _ _ _ _ _ _ _ Hm Hw Hz), Hw.
    unfold merge_scalar. by rewrite Zz.
Qed.

Lemma mergeConfig_scalars_order_sensitive_witness :
  ∃ accA accAB accB accBA,
    mergeConfig mergo.union_elems range_id Config.zero tree_A = Ok accA
    ∧ mergeConfig mergo.union_elems range_id accA tree_B = Ok accAB
    ∧ mergeConfig mergo.union_elems range_id Config.zero tree_B = Ok accB
    ∧ mergeConfig mergo.union_elems range_id accB tree_A = Ok accBA
    ∧ scalars accAB !! 1 = Some (SString "/var/lib/b")
    ∧ scalars accBA !! 1 = Some (SString "/var/lib/a")
    ∧ (∀ to from to' x, mergeConfig mergo.union_elems range_id to from = Ok to' →
         scalars from !! 1 = Some x → is_zero x = true →
         scalars to' !! 1 = scalars to !! 1).
Proof.
  do 4 eexists.
  split; [vm_compute; reflexivity|]. split; [vm_compute; reflexivity|].
  split; [vm_compute; reflexivity|]. split; [vm_compute; reflexivity|].
  eapply (mergeConfig_scalars_order_sensitive mergo.union_elems range_id
            Config.zero tree_A tree_B);
    vm_compute; reflexivity.
Defined.

(** C6. The merge appends the ordered-list fields (disabled plugins,
    required plugins, imports): after [mergeConfig] each list is the list
    of [to] followed by the list of [from]. So merging [A] then [B] gives
    the elements of [A] before those of [B] and the opposite order gives
    them after, and an empty list of [from] leaves the list of [to] as it
    is. *)
Theorem mergeConfig_lists_append E ro to from to' :
  mergeConfig E ro to from = Ok to' →
  Config.DisabledPlugins to' = Config.DisabledPlugins to ++ Config.DisabledPlugins from
  ∧ Config.RequiredPlugins to' = Config.RequiredPlugins to ++ Config.RequiredPlugins from
  ∧ Config.Imports to' = Config.Imports to ++ Config.Imports from
  ∧ (∀ i, lists from !! i = Some [] → lists to' !! i = lists to !! i)
  ∧ (∀ next to'', mergeConfig E ro to' next = Ok to'' →
       lists to'' = zip_with app (zip_with app (lists to) (lists from)) (lists next)).
Proof.
  intros Hm. destruct (mergeConfig_fields _ _ _ _ _ Hm) as [_ Hl].
  split; [|split; [|split; [|split]]].
  - by injection Hl.
  - by injection Hl.
  - by injection Hl.
  - intros i Hi. rewrite Hl, lookup_zip_with, Hi.
    destruct (lists to !! i) as [l|]; cbn; [|done]. by rewrite (right_id_L [] (++)).
  - intros next to'' Hn. destruct (mergeConfig_fields _ _ _ _ _ Hn) as [_ Hl'].
    by rewrite Hl', Hl.
Qed.

Lemma mergeConfig_lists_append_witness :
  ∃ to',
    mergeConfig mergo.union_elems range_id tree_A tree_B = Ok to'
    ∧ Config.DisabledPlugins to' = Config.DisabledPlugins tree_A ++ Config.DisabledPlugins tree_B
    ∧ Config.RequiredPlugins to' = Config.RequiredPlugins tree_A ++ Config.RequiredPlugins tree_B
    ∧ Config.Imports to' = Config.Imports tree_A ++ Config.Imports tree_B
    ∧ (∀ i, lists tree_B !! i = Some [] → lists to' !! i = lists tree_A !! i)
    ∧ (∀ next to'', mergeConfig mergo.union_elems range_id to' next = Ok to'' →
         lists to'' = zip_with app (zip_with app (lists tree_A) (lists tree_B)) (lists next)).
Proof.
  eexists. split; [vm_compute; reflexivity|].
  apply mergeConfig_lists_append. vm_compute. reflexivity.
Defined.

(** The example of the specification: lists [["1"]] and [["2"]], merged in
    both orders into an empty tree. *)
Example merge_lists_both_orders :
  ∃ accA accAB accB accBA,
    mergeConfig mergo.union_elems range_id Config.zero tree_A = Ok accA
    ∧ mergeConfig mergo.union_elems range_id accA tree_B = Ok accAB
    ∧ mergeConfig mergo.union_elems range_id Config.zero tree_B = Ok accB
    ∧ mergeConfig mergo.union_elems range_id accB tree_A = Ok accBA
    ∧ Config.DisabledPlugins accAB = ["1"; "2"]
    ∧ Config.DisabledPlugins accBA = ["2"; "1"].
Proof.
  do 4 eexists.
  split; [vm_compute; reflexivity|]. split; [vm_compute; reflexivity|].
  split; [vm_compute; reflexivity|]. split; [vm_compute; reflexivity|].
  split; reflexivity.
Qed.

(** ** Properties of the validation *)

Lemma substring_all s : String.substring 0 (String.length s) s = s.
Proof. induction s as [|c s IH]; cbn; [done | by rewrite IH]. Qed.

Lemma prefix_single a c s : String.prefix (String a "") (String c s) = bool_decide (a = c).
Proof.
  change (String.prefix (String a "") (String c s))
    with (if ascii_dec a c then String.prefix "" s else false).
  destruct (ascii_dec a c) as [->|Hne].
  - rewrite bool_decide_eq_true_2 by done. by destruct s.
  - by rewrite bool_decide_eq_false_2.
Qed.

Lemma Index_single_nil a : strings.Index "" (String a "") = None.
Proof. done. Qed.

Lemma Index_single_cons a c s :
  strings.Index (String c s) (String a "")
  = if bool_decide (a = c) then Some 0 else S <$> strings.Index s (String a "").
Proof.
  change (strings.Index (String c s) (String a ""))
    with (if String.prefix (String a "") (String c s) then Some 0
          else S <$> strings.Index s (String a "")).
  by rewrite prefix_single.
Qed.

Lemma count_char_cons a c s :
  count_char a (String c s) = (if bool_decide (a = c) then 1 else 0) + count_char a s.
Proof.
  cbn [count_char]. destruct (Ascii.eqb_spec c a) as [->|Hne].
  - by rewrite bool_decide_eq_true_2.
  - by rewrite bool_decide_eq_false_2.
Qed.

Lemma substring_cons n m c s :
  String.substring (S n) m (String c s) = String.substring n m s.
Proof. done. Qed.

Lemma Index_dot_None s : strings.Index s "." = None → count_char "." s = 0.
Proof.
  induction s as [|c s IH]; [done|].
  rewrite Index_single_cons, count_char_cons.
  case_bool_decide; [done|].
  destruct (strings.Index s ".") eqn:Hi; [done | auto].
Qed.

Lemma Index_dot_Some s : ∀ m,
  strings.Index s "." = Some m →
  count_char "." s
  = S (count_char "." (String.substring (m + 1) (String.length s - (m + 1)) s)).
Proof.
  induction s as [|c s IH]; intros m; [done|].
  rewrite Index_single_cons, count_char_cons.
  case_bool_decide.
  - intros [= <-]. cbn [String.length plus]. rewrite substring_cons.
    replace (S (String.length s) - 1) with (String.length s) by lia.
    by rewrite substring_all.
  - destruct (strings.Index s ".") as [m'|] eqn:Hi; [|done].
    intros [= <-]. cbn [String.length plus]. rewrite substring_cons.
    replace (S (String.length s) - S (m' + 1)) with (String.length s - (m' + 1)) by lia.
    by apply IH.
Qed.

(** [SplitN] cuts at the first [k] dots. *)
Lemma genSplit_dot_length k : ∀ s,
  length (strings.genSplit k s ".") = S (min k (count_char "." s)).
Proof.
  induction k as [|k IH]; intros s; [done|].
  cbn [strings.genSplit].
  destruct (strings.Index s ".") as [m|] eqn:Hi.
  - cbn [length]. rewrite IH. rewrite (Index_dot_Some _ _ Hi). cbn [String.length]. done.
  - by rewrite (Index_dot_None _ Hi), Nat.min_0_r.
Qed.

Lemma SplitN_dot_4 p :
  (4 ≤ length (strings.SplitN p "." 4))%nat ↔ (4 ≤ segment_count p)%nat.
Proof. unfold strings.SplitN, segment_count. rewrite genSplit_dot_length. lia. Qed.

(** Split without a limit gives all segments. *)
Lemma SplitN_dot_all p n :
  count_char "." p < n → length (strings.SplitN p "." n) = segment_count p.
Proof.
  destruct n as [|k]; [lia|]. intros Hk. unfold strings.SplitN, segment_count.
  rewrite genSplit_dot_length. lia.
Qed.

(** The test of [ValidateV2] accepts exactly the well-formed identifiers. *)
Lemma invalid_URI_false p : invalid_URI p = false ↔ well_formed_URI p.
Proof.
  unfold invalid_URI, well_formed_URI. rewrite <- SplitN_dot_4.
  rewrite orb_false_iff, negb_false_iff, bool_decide_eq_false.
  split; intros [? ?]; (split; [done | lia]).
Qed.

Lemma check_URIs_Ok mk ps : check_URIs mk ps = Ok tt ↔ Forall well_formed_URI ps.
Proof.
  induction ps as [|p ps IH]; cbn.
  - split; [constructor | done].
  - rewrite Forall_cons, <- IH, <- invalid_URI_false.
    destruct (invalid_URI p); [|tauto].
    split; [done | by intros [? _]].
Qed.

(** A failing check returns the error made for one of the identifiers. *)
Lemma check_URIs_Err mk ps e :
  check_URIs mk ps = Err e → ¬ Forall well_formed_URI ps ∧ ∃ p, p ∈ ps ∧ e = mk p.
Proof.
  intros He. split.
  - rewrite <- (check_URIs_Ok mk). by rewrite He.
  - induction ps as [|p ps IH]; cbn in He; [done|].
    destruct (invalid_URI p).
    + injection He as <-. exists p. split; [left | done].
    + destruct (IH He) as (q & Hq & ->). exists q. split; [by right | done].
Qed.

(** When [ValidateV2] returns nil. *)
Lemma ValidateV2_None ro c :
  ValidateV2 ro c = None ↔
    Config.Version c = 2%Z
    ∧ Forall well_formed_URI (Config.DisabledPlugins c)
    ∧ Forall well_formed_URI (Config.RequiredPlugins c)
    ∧ (∀ k, is_Some (map_index (Config.Plugins c) k) → well_formed_URI k).
Proof.
  assert (Hkeys : Forall well_formed_URI (range ro (Config.Plugins c)).*1
                  ↔ ∀ k, is_Some (map_index (Config.Plugins c) k) → well_formed_URI k).
  { rewrite Forall_forall. by setoid_rewrite range_keys. }
  rewrite <- Hkeys. clear Hkeys.
  unfold ValidateV2, GetVersion.
  destruct (check_URIs ErrDisabledPlugin (Config.DisabledPlugins c)) as [[]|e1] eqn:H1;
    [apply check_URIs_Ok in H1 | apply check_URIs_Err in H1 as [H1 _]];
  (destruct (check_URIs ErrRequiredPlugin (Config.RequiredPlugins c)) as [[]|e2] eqn:H2;
    [apply check_URIs_Ok in H2 | apply check_URIs_Err in H2 as [H2 _]]);
  (destruct (check_URIs ErrPluginKey (range ro (Config.Plugins c)).*1) as [[]|e3] eqn:H3;
    [apply check_URIs_Ok in H3 | apply check_URIs_Err in H3 as [H3 _]]);
  repeat case_decide; split; try done; try tauto; try (intros [? _]; lia).
Qed.

(** The error of [ValidateV2] for a tree of version 2 is about an
    identifier. *)
Lemma ValidateV2_version2_error ro c e :
  Config.Version c = 2%Z → ValidateV2 ro c = Some e →
  ∃ p, e = ErrDisabledPlugin p ∨ e = ErrRequiredPlugin p ∨ e = ErrPluginKey p.
Proof.
  intros Hv. unfold ValidateV2, GetVersion. rewrite Hv. cbn.
  destruct (check_URIs ErrDisabledPlugin _) as [[]|e1] eqn:H1.
  2:{ intros [= <-]. apply check_URIs_Err in H1 as (_ & p & _ & ->). eauto. }
  destruct (check_URIs ErrRequiredPlugin _) as [[]|e2] eqn:H2.
  2:{ intros [= <-]. apply check_URIs_Err in H2 as (_ & p & _ & ->). eauto. }
  destruct (check_URIs ErrPluginKey _) as [[]|e3] eqn:H3; [done|].
  intros [= <-]. apply check_URIs_Err in H3 as (_ & p & _ & ->). eauto.
Qed.

(** C2, as the code has it. [ValidateV2] accepts version 2: it returns
    nil for a tree of version 2 exactly when the disabled and required
    plugins and the plugin keys are well formed, and it never returns a
    version error for it. It rejects version 1, and also version 0 (a
    missing version, which [GetVersion] reads as 1), with the "no longer
    supported" error. It rejects every other version, such as 3, with the
    "expected version 2" error, whose text differs from the version 1
    text. *)
Theorem ValidateV2_versions ro c :
  (Config.Version c = 2%Z →
     (ValidateV2 ro c = None ↔
        Forall well_formed_URI (Config.DisabledPlugins c)
        ∧ Forall well_formed_URI (Config.RequiredPlugins c)
        ∧ (∀ k, is_Some (map_index (Config.Plugins c) k) → well_formed_URI k))
     ∧ ValidateV2 ro c ≠ Some ErrVersion1
     ∧ ∀ v, ValidateV2 ro c ≠ Some (ErrExpectedVersion2 v))
  ∧ (Config.Version c = 1%Z ∨ Config.Version c = 0%Z → ValidateV2 ro c = Some ErrVersion1)
  ∧ (Config.Version c ≠ 0%Z → Config.Version c ≠ 1%Z → Config.Version c ≠ 2%Z →
       ValidateV2 ro c = Some (ErrExpectedVersion2 (Config.Version c)))
  ∧ (∀ v, version1_message ≠ expected_version2_message v).
Proof.
  split; [|split; [|split]].
  - intros Hv. split; [|split].
    + rewrite ValidateV2_None. tauto.
    + intros He. by destruct (ValidateV2_version2_error _ _ _ Hv He) as [p [?|[?|?]]].
    + intros v He. by destruct (ValidateV2_version2_error _ _ _ Hv He) as [p [?|[?|?]]].
  - unfold ValidateV2, GetVersion. intros [-> | ->]; done.
  - unfold ValidateV2, GetVersion. intros. repeat case_decide; done.
  - intros v. unfold version1_message, expected_version2_message. done.
Qed.

(** C2 as stated fails at version 0: the error is that of version 1, not
    the generic one. And a tree of version 2 is rejected when one of its
    identifiers is malformed. *)
Lemma ValidateV2_version0_counterexample :
  ValidateV2 range_id (tree_version 0) = Some ErrVersion1
  ∧ ValidateV2 range_id (tree_version 0) ≠ Some (ErrExpectedVersion2 0)
  ∧ Config.Version tree_A = 2%Z
  ∧ ValidateV2 range_id tree_A = Some (ErrDisabledPlugin "1").
Proof. split; [done|]. split; [done|]. split; [done|]. vm_compute. reflexivity. Qed.

(** C9, as the code has it. On a tree for which [ValidateV2] returns nil,
    every entry of the disabled and required plugin lists and every key of
    the plugin map has the prefix [io.containerd.] and at least four
    dot-separated segments. The keys of the stream processor and proxy
    plugin maps are not examined. *)
Theorem ValidateV2_identifiers ro c :
  ValidateV2 ro c = None →
  (∀ p, p ∈ Config.DisabledPlugins c → well_formed_URI p)
  ∧ (∀ p, p ∈ Config.RequiredPlugins c → well_formed_URI p)
  ∧ (∀ k, is_Some (map_index (Config.Plugins c) k) → well_formed_URI k).
Proof.
  rewrite ValidateV2_None, !Forall_forall. tauto.
Qed.

Lemma ValidateV2_identifiers_witness :
  ValidateV2 range_id tree_valid = None
  ∧ (∀ p, p ∈ Config.DisabledPlugins tree_valid → well_formed_URI p)
  ∧ (∀ p, p ∈ Config.RequiredPlugins tree_valid → well_formed_URI p)
  ∧ (∀ k, is_Some (map_index (Config.Plugins tree_valid) k) → well_formed_URI k).
Proof.
  split; [vm_compute; reflexivity|].
  apply (ValidateV2_identifiers range_id tree_valid). vm_compute. reflexivity.
Defined.

(** C9 as stated fails for the keys of the proxy plugin and stream
    processor maps: the tree is accepted although [stargz] and [decoder]
    have neither the prefix nor four segments. *)
Lemma ValidateV2_proxy_key_counterexample :
  ValidateV2 range_id tree_valid = None
  ∧ map_index (Config.ProxyPlugins tree_valid) "stargz" = Some ProxyPlugin.zero
  ∧ strings.HasPrefix "stargz" "io.containerd." = false
  ∧ segment_count "stargz" = 1
  ∧ map_index (Config.StreamProcessors tree_valid) "decoder" = Some StreamProcessor.zero
  ∧ strings.HasPrefix "decoder" "io.containerd." = false
  ∧ segment_count "decoder" = 1.
Proof. vm_compute. repeat split; reflexivity. Qed.

(** ** Properties of [LoadConfig]: the nil output tree *)

(** C10. With a nil [out], [LoadConfig] returns the error that wraps
    [ErrInvalidArgument] and does nothing else: no file is opened, no
    pattern expanded, nothing logged and nothing merged. *)
Theorem LoadConfig_nil_out E ro fs path :
  LoadConfig E ro fs path None = ([], Err (ErrOutNil ErrInvalidArgument))
  ∧ errors_Is (ErrOutNil ErrInvalidArgument) ErrInvalidArgument = true.
Proof. split; reflexivity. Qed.

(** ** Computations: events and outcome of a sequence *)

Lemma outcome_bind {A B} (m : M A) (f : A -> M B) :
  outcome (m ≫= f) = match outcome m with
                     | Ok a => outcome (f a)
                     | Err e => Err e
                     end.
Proof.
  destruct m as [t [a|e]]; [|done].
  unfold mbind, M_bind, bind, outcome. cbn. by destruct (f a).
Qed.

Lemma events_bind {A B} (m : M A) (f : A -> M B) :
  events (m ≫= f) = events m ++ match outcome m with
                                | Ok a => events (f a)
                                | Err _ => []
                                end.
Proof.
  destruct m as [t [a|e]].
  - unfold mbind, M_bind, bind, events. cbn. by destruct (f a).
  - unfold mbind, M_bind, bind, events. cbn. by rewrite (right_id_L [] (++)).
Qed.

Lemma M_eta {A} (m : M A) : m = (events m, outcome m).
Proof. by destruct m. Qed.

(** ** Properties of [filepath] *)

Lemma IsAbs_true p : filepath.IsAbs p = true ↔ ∃ s, p = String "/" s.
Proof.
  unfold filepath.IsAbs, strings.HasPrefix. destruct p as [|c s].
  - split; [done | by intros [? ?]].
  - rewrite prefix_single. rewrite bool_decide_eq_true. split.
    + intros <-. by eexists.
    + by intros [? [= -> _]].
Qed.

(** [Clean] keeps a rooted path rooted. *)
Lemma Clean_IsAbs p : filepath.IsAbs p = true → filepath.IsAbs (filepath.Clean p) = true.
Proof.
  intros Habs. unfold filepath.Clean. rewrite Habs.
  apply IsAbs_true in Habs as [s ->].
  rewrite decide_False by done. apply IsAbs_true. by eexists.
Qed.

Lemma upto_last_slash_IsAbs p :
  filepath.IsAbs p = true → filepath.IsAbs (filepath.upto_last_slash p) = true.
Proof.
  intros [s ->]%IsAbs_true. apply IsAbs_true.
  exists (filepath.upto_last_slash s).
  change (filepath.upto_last_slash (String "/" s))
    with (if strings.Contains (String "/" s) "/"
          then String "/" (filepath.upto_last_slash s) else "").
  unfold strings.Contains. rewrite Index_single_cons.
  rewrite (bool_decide_eq_true_2 ("/"%char = "/"%char)) by done.
  by rewrite bool_decide_eq_true_2 by by eexists.
Qed.

(** The directory of an absolute path is absolute. *)
Lemma Dir_IsAbs p : filepath.IsAbs p = true → filepath.IsAbs (filepath.Dir p) = true.
Proof. intros Habs. by apply Clean_IsAbs, upto_last_slash_IsAbs. Qed.

(** Joining onto an absolute directory gives an absolute path. *)
Lemma Join_IsAbs dir p :
  filepath.IsAbs dir = true → filepath.IsAbs (filepath.Join [dir; p]) = true.
Proof.
  intros [s ->]%IsAbs_true. cbn [filepath.Join].
  rewrite decide_False by done. apply Clean_IsAbs. by apply IsAbs_true; eexists.
Qed.

(** ** Properties of [resolveImports] *)

Lemma filepath_Glob_outcome fs pattern :
  outcome (filepath_Glob fs pattern)
  = match fs_glob fs pattern with
    | Some matches => Ok matches
    | None => Err (ErrBadPattern pattern)
    end.
Proof. unfold filepath_Glob. rewrite outcome_bind. cbn. by destruct (fs_glob fs pattern). Qed.

Lemma filepath_Glob_events fs pattern :
  events (filepath_Glob fs pattern) = [EvGlob pattern].
Proof. unfold filepath_Glob. rewrite events_bind. cbn. by destruct (fs_glob fs pattern). Qed.

(** The result is the slice built so far followed by one group of paths
    for every expression, in the order of the expressions. *)
Lemma resolveImports_loop_groups fs parent imports : ∀ acc out,
  outcome (resolveImports_loop fs parent imports acc) = Ok out →
  ∃ groups, out = acc ++ concat groups ∧ Forall2 (import_group fs parent) imports groups.
Proof.
  induction imports as [|expr imports IH]; intros acc out; cbn [resolveImports_loop].
  - intros [= <-]. exists []. cbn [concat]. by rewrite (right_id_L [] (++)).
  - destruct (strings.Contains expr "*") eqn:Hglob.
    + rewrite outcome_bind, filepath_Glob_outcome.
      destruct (fs_glob fs expr) as [matches|] eqn:Hm; [|done].
      intros (groups & -> & Hgroups)%IH.
      exists (matches :: groups). split; [by rewrite <- (assoc_L (++))|].
      constructor; [|done]. unfold import_group. by rewrite Hglob.
    + intros (groups & -> & Hgroups)%IH.
      eexists (_ :: groups). split; [by rewrite <- (assoc_L (++))|].
      constructor; [|done]. unfold import_group. by rewrite Hglob.
Qed.

(** Without glob expressions [resolveImports] cannot fail. *)
Lemma resolveImports_no_glob_total fs parent imports :
  Forall (fun expr => strings.Contains expr "*" = false) imports →
  ∃ out, resolveImports fs parent imports = ([], Ok out).
Proof.
  unfold resolveImports. generalize (@nil string).
  induction imports as [|expr imports IH]; intros acc Hno; cbn [resolveImports_loop].
  - by eexists.
  - apply Forall_cons in Hno as [-> Hno]. by apply IH.
Qed.

(** For an absolute parent path, the result of [resolveImports] is flat
    and order-preserving: the concatenation of one group of paths per
    import expression, in the order of the expressions. The group of an
    expression without a wildcard is one absolute path: the cleaned
    expression if that is absolute, the cleaned expression joined to the
    directory of the declaring file otherwise. The group of a glob
    expression is what [filepath.Glob] returns for the expression as it
    is written. *)
Lemma resolveImports_groups_absolute fs parent imports out :
  filepath.IsAbs parent = true →
  outcome (resolveImports fs parent imports) = Ok out →
  ∃ groups,
    out = concat groups
    ∧ Forall2 (fun expr group =>
                 (strings.Contains expr "*" = true → fs_glob fs expr = Some group)
                 ∧ (strings.Contains expr "*" = false →
                    group = [ if filepath.IsAbs (filepath.Clean expr) then filepath.Clean expr
                              else filepath.Join [filepath.Dir parent; filepath.Clean expr] ]
                    ∧ Forall (fun p => filepath.IsAbs p = true) group)) imports groups.
Proof.
  intros Habs (groups & -> & Hgroups)%resolveImports_loop_groups.
  exists groups. split; [done|].
  eapply Forall2_impl; [exact Hgroups|].
  intros expr group Hgroup. unfold import_group in Hgroup.
  destruct (strings.Contains expr "*"); (split; [done|]); intros Hno; [done|].
  split; [exact Hgroup|]. rewrite Hgroup. apply Forall_singleton.
  destruct (filepath.IsAbs (filepath.Clean expr)) eqn:Hc; [done|].
  by apply Join_IsAbs, Dir_IsAbs.
Qed.

Lemma resolveImports_groups_absolute_witness :
  filepath.IsAbs "/etc/containerd/config.toml" = true
  ∧ outcome (resolveImports fs_none "/etc/containerd/config.toml"
               ["conf.d/a.toml"; "/opt/x/../b.toml"; "../c.toml"])
    = Ok ["/etc/containerd/conf.d/a.toml"; "/opt/b.toml"; "/etc/c.toml"]
  ∧ ∃ groups,
      ["/etc/containerd/conf.d/a.toml"; "/opt/b.toml"; "/etc/c.toml"] = concat groups
      ∧ Forall2 (fun expr group =>
                   (strings.Contains expr "*" = true → fs_glob fs_none expr = Some group)
                   ∧ (strings.Contains expr "*" = false →
                      group = [ if filepath.IsAbs (filepath.Clean expr)
                                then filepath.Clean expr
                                else filepath.Join [filepath.Dir "/etc/containerd/config.toml";
                                                    filepath.Clean expr] ]
                      ∧ Forall (fun p => filepath.IsAbs p = true) group))
          ["conf.d/a.toml"; "/opt/x/../b.toml"; "../c.toml"] groups.
Proof.
  split; [reflexivity|]. split; [vm_compute; reflexivity|].
  apply (resolveImports_groups_absolute fs_none "/etc/containerd/config.toml");
    vm_compute; reflexivity.
Defined.

(** C4. [resolveImports] returns paths that are not absolute, against its
    own comment, which promises a list of absolute paths. A glob
    expression is handed to [filepath.Glob] as it is written, also when
    it is relative: its matches are then relative, and they are looked for
    under the working directory of the process, not under the directory
    of the declaring file. And a relative import of a file that was given
    by a relative path is joined to a relative directory. *)
Theorem resolveImports_relative_results :
  resolveImports fs_dropins "/etc/containerd/config.toml" ["conf.d/*.toml"]
  = ([EvGlob "conf.d/*.toml"], Ok ["conf.d/10-cri.toml"; "conf.d/20-nri.toml"])
  ∧ Forall (fun p => filepath.IsAbs p = false) ["conf.d/10-cri.toml"; "conf.d/20-nri.toml"]
  ∧ filepath.IsAbs "/etc/containerd/config.toml" = true
  ∧ resolveImports fs_none "config.toml" ["conf.d/a.toml"] = ([], Ok ["conf.d/a.toml"])
  ∧ filepath.IsAbs "conf.d/a.toml" = false.
Proof.
  split; [vm_compute; reflexivity|]. split; [by repeat constructor|].
  split; [reflexivity|]. split; vm_compute; reflexivity.
Qed.

(** ** Properties of the decoder and of [loadConfigFile] *)

Lemma assoc_app_unknown key k v pre post :
  key ≠ k →
  Decoder.assoc key (pre ++ (k, v) :: post) = Decoder.assoc key (pre ++ post).
Proof.
  intros Hne. induction pre as [|[k' v'] pre IH]; cbn.
  - by rewrite decide_False by done.
  - by rewrite IH.
Qed.

Lemma field_ext {A} (conv : toml -> option A) key es es' old :
  Decoder.assoc key es = Decoder.assoc key es' →
  Decoder.field conv key es old = Decoder.field conv key es' old.
Proof. unfold Decoder.field. by intros ->. Qed.

(** The decoded tree depends on the document only through the values of
    the keys that [Config] has fields for. *)
Lemma decode_Config_ext doc doc' old :
  NoDup doc.*1 → NoDup doc'.*1 →
  (∀ key, key ∈ Decoder.Config_keys → Decoder.assoc key doc = Decoder.assoc key doc') →
  Decoder.decode_Config doc old = Decoder.decode_Config doc' old.
Proof.
  intros Hnd Hnd' Hext. unfold Decoder.decode_Config, Decoder.as_table.
  rewrite !bool_decide_eq_true_2 by done. cbn [mbind option_bind].
  repeat (erewrite (field_ext _ _ doc doc'); [|apply Hext; compute_done]).
  done.
Qed.

Lemma missing_app doc doc' :
  Decoder.missing (doc ++ doc') = Decoder.missing doc ++ Decoder.missing doc'.
Proof. unfold Decoder.missing. by rewrite fmap_app, concat_app. Qed.

Lemma missing_cons e doc :
  Decoder.missing (e :: doc) = Decoder.missing_of_entry e ++ Decoder.missing doc.
Proof. done. Qed.

(** A top-level key that [Config] has no field for is reported once,
    whatever its value. *)
Lemma missing_of_unknown_entry k v :
  k ∉ Decoder.Config_keys → Decoder.missing_of_entry (k, v) = [[k]].
Proof.
  intros Hk. unfold Decoder.missing_of_entry.
  repeat match goal with
         | |- context [decide (k = ?x)] =>
             destruct (decide (k = x)) as [Hd|_]; [exfalso; apply Hk; rewrite Hd; compute_done|]
         end.
  by rewrite decide_False.
Qed.

(** If nothing is reported, every top-level key is a field of [Config]. *)
Lemma missing_nil_keys doc :
  Decoder.missing doc = [] → ∀ k, k ∈ doc.*1 → k ∈ Decoder.Config_keys.
Proof.
  induction doc as [|[k' v'] doc IH]; intros Hmiss k Hk.
  - by apply elem_of_nil in Hk.
  - rewrite missing_cons in Hmiss. apply app_eq_nil in Hmiss as [He Hmiss].
    rewrite fmap_cons in Hk. apply elem_of_cons in Hk as [->|Hk]; [|by apply IH].
    cbn [fst]. destruct (decide (k' ∈ Decoder.Config_keys)) as [|Hno]; [done|].
    by rewrite missing_of_unknown_entry in He.
Qed.

(** The strict decoder succeeds exactly when the lenient one does and
    nothing is reported. *)
Lemma Decode_strict_inr doc target c :
  Decoder.Decode true (Decoder.Parsed doc) target = inr c ↔
    Decoder.decode_Config doc target = Some c ∧ Decoder.missing doc = [].
Proof.
  cbn [Decoder.Decode]. destruct (Decoder.decode_Config doc target) as [c'|].
  - cbn [andb]. case_bool_decide as Hm.
    + split; [done | by intros [_ ?]].
    + split; [intros [= ->]; split; [done|] | by intros [[= ->] _]].
      by destruct (decide (Decoder.missing doc = [])).
  - split; [done | by intros [? _]].
Qed.

Lemma warn_unknown_keys_run path errors :
  warn_unknown_keys path errors
  = ((fun key => EvWarnUnknownKey path (String.concat " " key)) <$> errors, Ok tt).
Proof.
  induction errors as [|key errors IH]; [done|].
  cbn [warn_unknown_keys]. rewrite IH. done.
Qed.

(** The run of [loadConfigFile] on a file that the strict decoder accepts. *)
Lemma loadConfigFile_strict fs path f c :
  fs_files fs !! path = Some f →
  Decoder.Decode true (content f) Config.zero = inr c →
  loadConfigFile fs path = ([EvOpen path], Ok c).
Proof.
  intros Hf Hd. unfold loadConfigFile, os_Open. rewrite Hf.
  cbn. by rewrite Hd.
Qed.

(** The run on a seekable file that the strict decoder rejects for unknown
    fields only: one warning per field, then the tree of the second,
    lenient decoding into a fresh [Config]. *)
Lemma loadConfigFile_lenient fs path f errors c :
  fs_files fs !! path = Some f →
  Decoder.Decode true (content f) Config.zero = inl (Decoder.StrictMissingError errors) →
  seekable f = true →
  Decoder.Decode false (content f) Config.zero = inr c →
  loadConfigFile fs path
  = (EvOpen path :: ((fun key => EvWarnUnknownKey path (String.concat " " key)) <$> errors),
     Ok c).
Proof.
  intros Hf Hd Hseek Hl. unfold loadConfigFile, os_Open. rewrite Hf.
  cbn. rewrite Hd, warn_unknown_keys_run, Hseek, Hl. cbn.
  by rewrite !(right_id_L [] (++)).
Qed.

(** A run that opens the file and does nothing else before returning a
    tree is a run in which the strict decoder succeeded. *)
Lemma loadConfigFile_strict_inv fs path f c :
  fs_files fs !! path = Some f →
  loadConfigFile fs path = ([EvOpen path], Ok c) →
  Decoder.Decode true (content f) Config.zero = inr c.
Proof.
  intros Hf. unfold loadConfigFile, os_Open. rewrite Hf. cbn.
  destruct (Decoder.Decode true (content f) Config.zero) as [err|c'] eqn:Hd.
  - destruct err as [errors| |]; cbn.
    + rewrite warn_unknown_keys_run.
      destruct errors as [|key errors].
      * exfalso. destruct (content f) as [| |doc]; cbn [Decoder.Decode] in Hd; try done.
        destruct (Decoder.decode_Config doc Config.zero); [|done].
        cbn [andb] in Hd. case_bool_decide; [|done]. by injection Hd as Hd.
      * cbn. destruct (seekable f); cbn; [|done].
        destruct (Decoder.Decode false (content f) Config.zero) as [[]|]; cbn; done.
    + done.
    + done.
  - cbn. by intros [= ->].
Qed.

(** Taking an unknown top-level key out of a document changes neither
    what the decoder stores nor what else it reports. *)
Lemma decode_Config_unknown_key pre k v post old :
  k ∉ Decoder.Config_keys → k ∉ (pre ++ post).*1 → NoDup (pre ++ post).*1 →
  Decoder.decode_Config (pre ++ (k, v) :: post) old = Decoder.decode_Config (pre ++ post) old.
Proof.
  intros Hk Hfresh Hnd. apply decode_Config_ext; [|done|].
  - rewrite fmap_app, fmap_cons. rewrite fmap_app in Hnd, Hfresh.
    apply NoDup_app in Hnd as (Hpre & Hdisj & Hpost).
    apply not_elem_of_app in Hfresh as [Hk1 Hk2].
    apply NoDup_app. split; [done|]. split.
    + intros x Hx [->|Hx']%elem_of_cons; [done | by eapply Hdisj].
    + by apply NoDup_cons.
  - intros key Hkey. apply assoc_app_unknown. by intros ->.
Qed.

(** C8. Let a document conform to the schema except for one top-level
    key that [Config] has no field for, in a file that can be rewound.
    Then [loadConfigFile] opens the file, emits exactly one warning, for
    that key, and returns without error the tree that it returns for the
    document without the key. This tree is the result of the second,
    lenient decoding into a fresh [Config], in which nothing of the first
    attempt is left. *)
Theorem loadConfigFile_unknown_key fs fs' path f f' pre k v post c :
  k ∉ Decoder.Config_keys →
  fs_files fs' !! path = Some f' → content f' = Decoder.Parsed (pre ++ post) →
  fs_files fs !! path = Some f → content f = Decoder.Parsed (pre ++ (k, v) :: post) →
  seekable f = true →
  loadConfigFile fs' path = ([EvOpen path], Ok c) →
  loadConfigFile fs path = ([EvOpen path; EvWarnUnknownKey path k], Ok c)
  ∧ Decoder.Decode false (content f) Config.zero = inr c.
Proof.
  intros Hk Hf' Hc' Hf Hc Hseek Hrun'.
  apply (loadConfigFile_strict_inv _ _ _ _ Hf') in Hrun'.
  rewrite Hc' in Hrun'. apply Decode_strict_inr in Hrun' as [Hdec Hmiss].
  assert (Hnd : NoDup (pre ++ post).*1).
  { revert Hdec. unfold Decoder.decode_Config, Decoder.as_table.
    case_bool_decide; done. }
  assert (Hfresh : k ∉ (pre ++ post).*1).
  { intros Hin. by apply Hk, (missing_nil_keys _ Hmiss). }
  assert (Hmiss_k : Decoder.missing (pre ++ (k, v) :: post) = [[k]]).
  { rewrite missing_app in Hmiss. apply app_eq_nil in Hmiss as [Hm1 Hm2].
    by rewrite missing_app, missing_cons, Hm1, Hm2, missing_of_unknown_entry. }
  assert (Hlenient : Decoder.Decode false (content f) Config.zero = inr c).
  { rewrite Hc. cbn [Decoder.Decode]. by rewrite decode_Config_unknown_key, Hdec. }
  split; [|done].
  rewrite (loadConfigFile_lenient fs path f [[k]] c); try done.
  rewrite Hc. cbn [Decoder.Decode].
  rewrite decode_Config_unknown_key, Hdec, Hmiss_k by done. done.
Qed.

Lemma loadConfigFile_unknown_key_witness :
  ∃ c,
    loadConfigFile fs_plain "/etc/containerd/config.toml"
    = ([EvOpen "/etc/containerd/config.toml"], Ok c)
    ∧ loadConfigFile fs_unknown "/etc/containerd/config.toml"
      = ([EvOpen "/etc/containerd/config.toml";
          EvWarnUnknownKey "/etc/containerd/config.toml" "subreaper"], Ok c)
    ∧ Decoder.Decode false (content (regular doc_unknown)) Config.zero = inr c.
Proof.
  eexists. split; [vm_compute; reflexivity|].
  apply (loadConfigFile_unknown_key fs_unknown fs_plain "/etc/containerd/config.toml"
           (regular doc_unknown) (regular doc_plain)
           [("version", TInt 2)] "subreaper" (TBool true)
           [("root", TString "/var/lib/containerd");
            ("grpc", TTable [("address", TString "/run/containerd/containerd.sock")])]).
  - compute_done.
  - vm_compute; reflexivity.
  - reflexivity.
  - vm_compute; reflexivity.
  - reflexivity.
  - reflexivity.
  - vm_compute; reflexivity.
Defined.

(** ** Properties of [LoadConfig]: termination *)

(** A file that [loadConfigFile] decodes is a file of the file system. *)
Lemma loadConfigFile_Ok_file fs path config :
  outcome (loadConfigFile fs path) = Ok config → path ∈ dom (fs_files fs).
Proof.
  unfold loadConfigFile, os_Open. rewrite !outcome_bind. cbn.
  destruct (fs_files fs !! path) as [f|] eqn:Hf; [|done].
  intros _. apply elem_of_dom. by eexists.
Qed.

(** A full iteration lowers the potential by one: the path leaves the
    queue and the files still to load, and its imports join the queue. *)
Lemma potential_iteration fs loaded path pending config imports :
  loaded !! path = None →
  outcome (loadConfigFile fs path) = Ok config →
  outcome (resolveImports fs path (Config.Imports config)) = Ok imports →
  potential fs loaded (path :: pending)
  = S (potential fs (<[path := true]> loaded) (pending ++ imports)).
Proof.
  intros Hnew Hload Hres. unfold potential.
  assert (Hcount : import_count fs path = length imports).
  { unfold import_count. by rewrite Hload, Hres. }
  assert (Hsplit : dom (fs_files fs) ∖ dom loaded
                   = {[path]} ∪ (dom (fs_files fs) ∖ dom (<[path := true]> loaded))).
  { apply loadConfigFile_Ok_file in Hload. apply not_elem_of_dom in Hnew.
    rewrite dom_insert_L. apply set_eq. intros x.
    rewrite elem_of_union, !elem_of_difference, elem_of_union, elem_of_singleton.
    destruct (decide (x = path)) as [->|]; tauto. }
  rewrite Hsplit, elements_union_singleton.
  2:{ rewrite dom_insert_L, elem_of_difference, elem_of_union, elem_of_singleton. tauto. }
  cbn [sum_list_with length]. rewrite Hcount, length_app. lia.
Qed.

(** With fuel for the potential of the state, the bounded loop performs a
    run of the loop. *)
Lemma LoadConfig_loop_runs E ro fs fuel : ∀ st,
  (potential fs (ls_loaded st) (ls_pending st) ≤ fuel)%nat →
  loop_run E ro fs st (events (LoadConfig_loop E ro fs fuel st))
    (outcome (LoadConfig_loop E ro fs fuel st)).
Proof.
  induction fuel as [|fuel IH]; intros st Hfuel.
  - destruct (ls_pending st) as [|path pending] eqn:Hp.
    + unfold LoadConfig_loop. rewrite Hp. by apply run_exit.
    + unfold potential in Hfuel. cbn [length] in Hfuel. lia.
  - cbn [LoadConfig_loop].
    destruct (ls_pending st) as [|path pending] eqn:Hp; [by apply run_exit|].
    case_decide as Hloaded.
    + eapply run_skip; [done..|]. apply IH. cbn [ls_loaded ls_pending].
      unfold potential in *. cbn [length] in Hfuel. lia.
    + apply eq_None_not_Some in Hloaded.
      rewrite outcome_bind, events_bind.
      destruct (outcome (loadConfigFile fs path)) as [config|e] eqn:Hload; cbn beta iota.
      2:{ rewrite (right_id_L [] (++)). by eapply run_load_error. }
      rewrite outcome_bind, events_bind. cbn [emit outcome events fst snd]. cbn beta iota.
      rewrite outcome_bind, events_bind. cbn [lift outcome events fst snd]. cbn beta iota.
      destruct (mergeConfig E ro (ls_out st) config) as [out|e] eqn:Hmerge; cbn beta iota.
      2:{ rewrite !(right_id_L [] (++)). by eapply run_merge_error. }
      rewrite outcome_bind, events_bind. cbn [app].
      destruct (outcome (resolveImports fs path (Config.Imports config)))
        as [imports|e] eqn:Hres; cbn beta iota.
      2:{ rewrite !(right_id_L [] (++)). by eapply run_resolve_error. }
      eapply run_iteration; [done..|]. apply IH. cbn [ls_loaded ls_pending].
      rewrite (potential_iteration _ _ _ _ _ _ Hloaded Hload Hres) in Hfuel. lia.
Qed.

(** *** The errors of the calls inside the loop *)

Lemma loadConfigFile_Err fs path e :
  outcome (loadConfigFile fs path) = Err e →
  e = ErrOpen path ∨ e = ErrSeek path ∨ e = ErrUnmarshalAt path ∨ e = ErrUnmarshal path.
Proof.
  unfold loadConfigFile, os_Open. rewrite !outcome_bind. cbn.
  destruct (fs_files fs !! path) as [f|]; cbn; [|intros [= <-]; tauto].
  destruct (Decoder.Decode true (content f) Config.zero) as [err|c]; [|done].
  rewrite outcome_bind.
  destruct err as [errors| |]; cbn.
  - rewrite outcome_bind, warn_unknown_keys_run. cbn.
    destruct (seekable f); cbn; [|intros [= <-]; tauto].
    destruct (Decoder.Decode false (content f) Config.zero) as [[]|]; cbn;
      try done; intros [= <-]; tauto.
  - intros [= <-]; tauto.
  - intros [= <-]; tauto.
Qed.

Lemma merge_map_Err {V} ro (elem : option V -> V -> mergo.stored V) (dst src : gomap V) e :
  mergo.merge_map ro elem dst src = Err e → ∃ detail, e = ErrMerge detail.
Proof.
  unfold mergo.merge_map. destruct src as [s|]; [|done].
  generalize (default ∅ dst). induction (range ro (Some s)) as [|[k v] l IH]; intros g.
  - done.
  - cbn [foldl]. unfold mergo.merge_entry at 2. cbn.
    destruct (elem (g !! k) v) as [|v'|detail]; [apply IH | apply IH |].
    rewrite merge_entries_err. intros [= <-]. by eexists.
Qed.

Lemma Merge_Err E ro dst src e :
  mergo.Merge E ro dst src = Err e → ∃ detail, e = ErrMerge detail.
Proof.
  unfold mergo.Merge.
  destruct (mergo.merge_map ro (mergo.elem_plugin E) _ _) as [?|e1] eqn:H1;
    [|intros [= <-]; by eapply merge_map_Err].
  destruct (mergo.merge_map ro (mergo.elem_proxy E) _ _) as [?|e2] eqn:H2;
    [|intros [= <-]; by eapply merge_map_Err].
  destruct (mergo.merge_map ro (mergo.elem_timeout E) _ _) as [?|e3] eqn:H3;
    [|intros [= <-]; by eapply merge_map_Err].
  destruct (mergo.merge_map ro (mergo.elem_processor E) _ _) as [?|e4] eqn:H4;
    [|intros [= <-]; by eapply merge_map_Err].
  done.
Qed.

(** [mergeConfig] returns an error only if the structural merge does, and
    then that error. *)
Lemma mergeConfig_Err E ro to from e :
  mergeConfig E ro to from = Err e → ∃ detail, e = ErrMerge detail.
Proof.
  destruct (mergo.Merge E ro to from) as [m|e'] eqn:Hm.
  - destruct (mergeConfig_inv _ _ _ _ _ Hm) as (? & ? & ? & ? & _ & _ & _ & _ & ->). done.
  - unfold mergeConfig. rewrite Hm. intros [= <-]. by eapply Merge_Err.
Qed.

Lemma resolveImports_loop_Err fs parent imports : ∀ acc e,
  outcome (resolveImports_loop fs parent imports acc) = Err e →
  ∃ pattern, e = ErrBadPattern pattern.
Proof.
  induction imports as [|expr imports IH]; intros acc e; cbn [resolveImports_loop]; [done|].
  destruct (strings.Contains expr "*"); [|apply IH].
  rewrite outcome_bind, filepath_Glob_outcome.
  destruct (fs_glob fs expr); [apply IH|]. intros [= <-]. by eexists.
Qed.

(** A run of the loop never ends with the error of the bounded model. *)
Lemma loop_run_result E ro fs st tr r :
  loop_run E ro fs st tr r → r ≠ Err OutOfFuel.
Proof.
  induction 1 as [st Hp|st path pending tr r Hp Hl Hrun IH|st path pending e Hp Hl Hload
                 |st path pending config e Hp Hl Hload Hmerge
                 |st path pending config out e Hp Hl Hload Hmerge Hres
                 |st path pending config out imports tr r Hp Hl Hload Hmerge Hres Hrun IH];
    try done.
  - apply loadConfigFile_Err in Hload. intros [= ->]. by destruct Hload as [?|[?|[?|?]]].
  - apply mergeConfig_Err in Hmerge as [detail ->]. done.
  - apply resolveImports_loop_Err in Hres as [pattern ->]. done.
Qed.

(** The loop is deterministic: a state has one run. *)
Lemma loop_run_functional E ro fs st tr r :
  loop_run E ro fs st tr r → ∀ tr' r', loop_run E ro fs st tr' r' → tr = tr' ∧ r = r'.
Proof.
  induction 1 as [st Hp|st path pending tr r Hp Hl Hrun IH|st path pending e Hp Hl Hload
                 |st path pending config e Hp Hl Hload Hmerge
                 |st path pending config out e Hp Hl Hload Hmerge Hres
                 |st path pending config out imports tr r Hp Hl Hload Hmerge Hres Hrun IH];
    intros tr' r' Hrun'; inversion Hrun'; subst;
    repeat match goal with
           | H1 : ls_pending ?s = _, H2 : ls_pending ?s = _ |- _ =>
               rewrite H1 in H2; first [discriminate H2 | injection H2 as -> ->]
           | H1 : ls_loaded ?s !! ?p = None, H2 : is_Some (ls_loaded ?s !! ?p) |- _ =>
               rewrite H1 in H2; by destruct H2
           | H1 : outcome ?m = _, H2 : outcome ?m = _ |- _ =>
               rewrite H1 in H2; first [discriminate H2 | injection H2 as ->]
           | H1 : mergeConfig ?a ?b ?c ?d = _, H2 : mergeConfig ?a ?b ?c ?d = _ |- _ =>
               rewrite H1 in H2; first [discriminate H2 | injection H2 as ->]
           end;
    try done.
  - by apply IH.
  - destruct (IH _ _ ltac:(eassumption)) as [-> ->]. done.
Qed.

(** *** What a run opens and merges *)

Lemma opened_app tr tr' : opened (tr ++ tr') = opened tr ++ opened tr'.
Proof. apply omap_app. Qed.

Lemma merged_app tr tr' : merged (tr ++ tr') = merged tr ++ merged tr'.
Proof. apply omap_app. Qed.

Lemma warnings_opened_merged path (errors : list (list string)) :
  opened ((fun key => EvWarnUnknownKey path (String.concat " " key)) <$> errors) = []
  ∧ merged ((fun key => EvWarnUnknownKey path (String.concat " " key)) <$> errors) = [].
Proof. induction errors as [|key errors [IH1 IH2]]; [done|]. split; cbn; [apply IH1 | apply IH2]. Qed.

(** [loadConfigFile] opens its path, once, and merges nothing. *)
Lemma loadConfigFile_opened_merged fs path :
  opened (events (loadConfigFile fs path)) = [path]
  ∧ merged (events (loadConfigFile fs path)) = [].
Proof.
  assert (Hev : ∃ rest, events (loadConfigFile fs path) = EvOpen path :: rest
                        ∧ opened rest = [] ∧ merged rest = []).
  { unfold loadConfigFile, os_Open. rewrite !events_bind, ?outcome_bind.
    cbn [emit events outcome fst snd app].
    destruct (fs_files fs !! path) as [f|]; cbn [ret fail events outcome fst snd app];
      [|by eexists].
    destruct (Decoder.Decode true (content f) Config.zero) as [err|c]; [|by eexists].
    eexists. split; [reflexivity|].
    rewrite events_bind, opened_app, merged_app.
    destruct err as [errors| |]; [|done..].
    rewrite events_bind, outcome_bind, warn_unknown_keys_run.
    cbn [events outcome fst snd]. rewrite !opened_app, !merged_app.
    destruct (warnings_opened_merged path errors) as [-> ->].
    destruct (seekable f); [|done].
    destruct (Decoder.Decode false (content f) Config.zero) as [[]|]; done. }
  destruct Hev as (rest & -> & Ho & Hm).
  change (EvOpen path :: rest) with ([EvOpen path] ++ rest).
  rewrite opened_app, merged_app, Ho, Hm. done.
Qed.

(** [resolveImports] opens and merges nothing. *)
Lemma resolveImports_loop_opened_merged fs parent imports : ∀ acc,
  opened (events (resolveImports_loop fs parent imports acc)) = []
  ∧ merged (events (resolveImports_loop fs parent imports acc)) = [].
Proof.
  induction imports as [|expr imports IH]; intros acc; cbn [resolveImports_loop]; [done|].
  destruct (strings.Contains expr "*"); [|apply IH].
  rewrite events_bind, filepath_Glob_events, filepath_Glob_outcome.
  change ([EvGlob expr] ++ ?x) with (EvGlob expr :: x).
  destruct (fs_glob fs expr); [apply IH | done].
Qed.

(** In a run no path is opened twice, only paths not loaded before are
    opened, and the paths merged are the paths opened, except that the run
    may end between the opening and the merge of the last one. A run that
    leaves the loop has merged every path it opened, has emptied the queue
    and has added to the loaded paths exactly the paths it opened. *)
Lemma loop_run_visits E ro fs st tr r :
  loop_run E ro fs st tr r →
  NoDup (opened tr)
  ∧ (∀ p, p ∈ opened tr → ls_loaded st !! p = None)
  ∧ merged tr `prefix_of` opened tr
  ∧ (∀ st', r = Ok st' →
       merged tr = opened tr
       ∧ ls_pending st' = []
       ∧ dom (ls_loaded st') = dom (ls_loaded st) ∪ list_to_set (opened tr)).
Proof.
  induction 1 as [st Hp|st path pending tr r Hp Hl Hrun IH|st path pending e Hp Hl Hload
                 |st path pending config e Hp Hl Hload Hmerge
                 |st path pending config out e Hp Hl Hload Hmerge Hres
                 |st path pending config out imports tr r Hp Hl Hload Hmerge Hres Hrun IH].
  - split; [constructor|]. split; [by intros p ?%elem_of_nil|]. split; [done|].
    intros st' [= <-]. split; [done|]. split; [done|].
    cbn. by rewrite (right_id_L ∅ (∪)).
  - done.
  - destruct (loadConfigFile_opened_merged fs path) as [-> ->].
    split; [apply NoDup_singleton|].
    split; [by intros p ->%list_elem_of_singleton|].
    split; [apply prefix_nil | done].
  - rewrite opened_app, merged_app.
    destruct (loadConfigFile_opened_merged fs path) as [-> ->]. cbn.
    split; [apply NoDup_singleton|].
    split; [by intros p ->%list_elem_of_singleton|]. done.
  - rewrite !opened_app, !merged_app.
    destruct (loadConfigFile_opened_merged fs path) as [-> ->].
    destruct (resolveImports_loop_opened_merged fs path (Config.Imports config) [])
      as [Ho Hm].
    unfold resolveImports. rewrite Ho, Hm. cbn.
    split; [apply NoDup_singleton|].
    split; [by intros p ->%list_elem_of_singleton|]. done.
  - rewrite !opened_app, !merged_app.
    destruct (loadConfigFile_opened_merged fs path) as [-> ->].
    destruct (resolveImports_loop_opened_merged fs path (Config.Imports config) [])
      as [Ho Hm].
    unfold resolveImports. rewrite Ho, Hm. cbn.
    destruct IH as (Hnd & Hnew & Hpre & Hok). cbn [ls_loaded] in Hnew, Hok.
    split; [|split; [|split]].
    + apply NoDup_cons. split; [|done].
      intros Hin. apply Hnew in Hin. by rewrite lookup_insert_eq in Hin.
    + intros p [->|Hin]%elem_of_cons; [done|].
      apply Hnew in Hin. apply lookup_insert_None in Hin. tauto.
    + by apply prefix_cons.
    + intros st' Hr. destruct (Hok st' Hr) as (-> & Hq & ->).
      split; [done|]. split; [done|].
      rewrite dom_insert_L. cbn. by rewrite (assoc_L (∪)), (comm_L (∪) {[path]}).
Qed.

(** *** The paths visited are the reachable ones *)

(** Every path that a run opens is reachable, if the paths in the queue
    are. *)
Lemma loop_run_opened_reachable E ro fs root st tr r :
  loop_run E ro fs st tr r →
  (∀ p, p ∈ ls_pending st → reachable fs root p) →
  ∀ p, p ∈ opened tr → reachable fs root p.
Proof.
  induction 1 as [st Hp|st path pending tr r Hp Hl Hrun IH|st path pending e Hp Hl Hload
                 |st path pending config e Hp Hl Hload Hmerge
                 |st path pending config out e Hp Hl Hload Hmerge Hres
                 |st path pending config out imports tr r Hp Hl Hload Hmerge Hres Hrun IH];
    intros Hq p; rewrite Hp in Hq.
  - by intros ?%elem_of_nil.
  - apply IH. intros q Hin. apply Hq. by right.
  - destruct (loadConfigFile_opened_merged fs path) as [-> _].
    intros ->%list_elem_of_singleton. apply Hq. by left.
  - rewrite opened_app. destruct (loadConfigFile_opened_merged fs path) as [-> _].
    cbn. intros ->%list_elem_of_singleton. apply Hq. by left.
  - rewrite !opened_app. destruct (loadConfigFile_opened_merged fs path) as [-> _].
    destruct (resolveImports_loop_opened_merged fs path (Config.Imports config) []) as [Ho _].
    unfold resolveImports. rewrite Ho. cbn.
    intros ->%list_elem_of_singleton. apply Hq. by left.
  - rewrite !opened_app. destruct (loadConfigFile_opened_merged fs path) as [-> _].
    destruct (resolveImports_loop_opened_merged fs path (Config.Imports config) []) as [Ho _].
    unfold resolveImports. rewrite Ho. cbn.
    intros [->|Hin]%elem_of_cons; [apply Hq; by left|].
    apply IH; [|done]. cbn [ls_pending].
    intros q [Hin'|Hin']%elem_of_app.
    + apply Hq. by right.
    + eapply reachable_import; [|done..]. apply Hq. by left.
Qed.

(** A run that leaves the loop has loaded every path of the queue, and
    every import of every path it opened. *)
Lemma loop_run_closed E ro fs st tr st' :
  loop_run E ro fs st tr (Ok st') →
  (∀ p, p ∈ ls_pending st → p ∈ dom (ls_loaded st'))
  ∧ (∀ p config imports q,
       p ∈ opened tr →
       outcome (loadConfigFile fs p) = Ok config →
       outcome (resolveImports fs p (Config.Imports config)) = Ok imports →
       q ∈ imports → q ∈ dom (ls_loaded st')).
Proof.
  intros Hrun. remember (Ok st') as r eqn:Hr. revert st' Hr.
  induction Hrun as [st Hp|st path pending tr r Hp Hl Hrun IH|st path pending e Hp Hl Hload
                 |st path pending config e Hp Hl Hload Hmerge
                 |st path pending config out e Hp Hl Hload Hmerge Hres
                 |st path pending config out imports tr r Hp Hl Hload Hmerge Hres Hrun IH];
    intros st' Hr; try done.
  - injection Hr as <-. rewrite Hp. split.
    + by intros p ?%elem_of_nil.
    + by intros p config imports q ?%elem_of_nil.
  - destruct (IH _ Hr) as [Hq Hc]. cbn [ls_pending] in Hq. split; [|done].
    rewrite Hp. intros p [->|Hin]%elem_of_cons; [|by apply Hq].
    subst r. destruct (loop_run_visits _ _ _ _ _ _ Hrun) as (_ & _ & _ & Hok).
    destruct (Hok _ eq_refl) as (_ & _ & ->). cbn [ls_loaded].
    apply elem_of_union_l. by apply elem_of_dom.
  - destruct (IH _ Hr) as [Hq Hc]. cbn [ls_pending] in Hq.
    assert (Hpath : path ∈ dom (ls_loaded st')).
    { subst r. destruct (loop_run_visits _ _ _ _ _ _ Hrun) as (_ & _ & _ & Hok).
      destruct (Hok _ eq_refl) as (_ & _ & ->). cbn [ls_loaded].
      rewrite dom_insert_L. apply elem_of_union_l, elem_of_union_l.
      by apply elem_of_singleton. }
    split.
    + rewrite Hp. intros p [->|Hin]%elem_of_cons; [done|].
      apply Hq, elem_of_app. by left.
    + intros p config' imports' q.
      rewrite !opened_app. destruct (loadConfigFile_opened_merged fs path) as [-> _].
      destruct (resolveImports_loop_opened_merged fs path (Config.Imports config) [])
        as [Ho _].
      unfold resolveImports in *. rewrite Ho. cbn [app].
      intros [->|Hin]%elem_of_cons; [|by apply Hc].
      rewrite Hload. intros [= <-]. rewrite Hres. intros [= <-] Hin.
      apply Hq, elem_of_app. by right.
Qed.

(** ** Properties of [LoadConfig]: the whole call *)

(** [LoadConfig] performs the events of its loop, and returns the error
    of the loop, or the error of the final validation, or the tree with
    the import list made from the loaded paths. *)
Lemma LoadConfig_unfold E ro fs path out :
  let loop := LoadConfig_loop E ro fs (potential fs ∅ [path]) (initial_state path out) in
  events (LoadConfig E ro fs path (Some out)) = events loop
  ∧ outcome (LoadConfig E ro fs path (Some out))
    = match outcome loop with
      | Err e => Err e
      | Ok st =>
          let out := Config.set_Imports (ls_out st) (range ro (Some (ls_loaded st))).*1 in
          match ValidateV2 ro out with
          | Some err => Err (ErrLoadTOML (ls_path st) err)
          | None => Ok out
          end
      end.
Proof.
  intros loop. unfold LoadConfig. fold (initial_state path out). fold loop.
  rewrite events_bind, outcome_bind.
  destruct (outcome loop) as [st|e]; cbn beta iota zeta.
  - destruct (ValidateV2 ro _); cbn [fail ret mret M_ret events outcome fst snd];
      by rewrite (right_id_L [] (++)).
  - by rewrite (right_id_L [] (++)).
Qed.

Lemma LoadConfig_loop_run E ro fs path out :
  loop_run E ro fs (initial_state path out)
    (events (LoadConfig_loop E ro fs (potential fs ∅ [path]) (initial_state path out)))
    (outcome (LoadConfig_loop E ro fs (potential fs ∅ [path]) (initial_state path out))).
Proof. by apply LoadConfig_loop_runs. Qed.

(** When the call got through the loop, the loop ended in a state. *)
Lemma traversal_completed_loop E ro fs path out :
  traversal_completed (outcome (LoadConfig E ro fs path (Some out))) →
  ∃ st, outcome (LoadConfig_loop E ro fs (potential fs ∅ [path]) (initial_state path out))
        = Ok st.
Proof.
  destruct (LoadConfig_unfold E ro fs path out) as [_ ->].
  pose proof (LoadConfig_loop_run E ro fs path out) as Hrun.
  destruct (outcome (LoadConfig_loop _ _ _ _ _)) as [st|e] eqn:Hloop; [by eexists|].
  cbn. intros Hdone. exfalso.
  remember (initial_state path out) as st0 eqn:Hst0.
  remember (Err e) as r eqn:Hr. clear Hloop Hst0.
  induction Hrun as [st Hp|st p pending tr r Hp Hl Hrun IH|st p pending e' Hp Hl Hload
                 |st p pending config e' Hp Hl Hload Hmerge
                 |st p pending config out' e' Hp Hl Hload Hmerge Hres
                 |st p pending config out' imports tr r Hp Hl Hload Hmerge Hres Hrun IH];
    try done; try (by apply IH); injection Hr as <-.
  - apply loadConfigFile_Err in Hload. by destruct Hload as [->|[->|[->| ->]]].
  - apply mergeConfig_Err in Hmerge as [detail ->]. done.
  - apply resolveImports_loop_Err in Hres as [pattern ->]. done.
Qed.

(** The part of the visit property that the import list rests on. *)
Lemma LoadConfig_terminates_visits_once_aux E ro fs path out :
  NoDup (opened (events (LoadConfig E ro fs path (Some out))))
  ∧ (traversal_completed (outcome (LoadConfig E ro fs path (Some out))) →
     ∀ p, reachable fs path p ↔ p ∈ opened (events (LoadConfig E ro fs path (Some out)))).
Proof.
  destruct (LoadConfig_unfold E ro fs path out) as [Hev Hout].
  pose proof (LoadConfig_loop_run E ro fs path out) as Hrun.
  pose proof (traversal_completed_loop E ro fs path out) as Hdone.
  rewrite Hev.
  set (loop := LoadConfig_loop E ro fs (potential fs ∅ [path]) (initial_state path out)) in *.
  destruct (loop_run_visits _ _ _ _ _ _ Hrun) as (Hnd & Hnew & Hpre & Hok).
  split; [done|].
  intros [st Hst]%Hdone. destruct (Hok _ Hst) as (Hm & Hq & Hdom).
  intros p. split.
  - rewrite Hst in Hrun. destruct (loop_run_closed _ _ _ _ _ _ Hrun) as [Hroot Hclosed].
    assert (Hin : ∀ q, q ∈ dom (ls_loaded st) ↔ q ∈ opened (events loop)).
    { intros q. rewrite Hdom. cbn [initial_state ls_loaded].
      rewrite dom_empty_L, (left_id_L ∅ (∪)). apply elem_of_list_to_set. }
    induction 1 as [|p q config imports Hp IH Hload Hres Hq'].
    + apply Hin, Hroot. by left.
    + apply Hin. by eapply Hclosed.
  - eapply loop_run_opened_reachable; [exact Hrun|].
    intros q ->%list_elem_of_singleton. constructor.
Qed.

(** C7, as the code has it. After a successful call the import list of
    the tree holds exactly the paths that were visited, each once: it is
    a rearrangement of the paths opened, which are the reachable paths.
    It is made from the keys of the loaded map in the order in which the
    [range] loop meets them, an order that Go leaves open; whatever the
    merged files declared as imports is not in it. *)
Theorem LoadConfig_imports_visited E ro fs path out c :
  outcome (LoadConfig E ro fs path (Some out)) = Ok c →
  Config.Imports c ≡ₚ opened (events (LoadConfig E ro fs path (Some out)))
  ∧ NoDup (Config.Imports c)
  ∧ (∀ p, p ∈ Config.Imports c ↔ reachable fs path p)
  ∧ ∃ loaded : gmap string bool,
      Config.Imports c = (range ro (Some loaded)).*1
      ∧ ∀ p, is_Some (loaded !! p) ↔ p ∈ opened (events (LoadConfig E ro fs path (Some out))).
Proof.
  intros Hc.
  destruct (LoadConfig_terminates_visits_once_aux E ro fs path out) as (Hnd & Hvisit).
  destruct (LoadConfig_unfold E ro fs path out) as [Hev Hout].
  pose proof (LoadConfig_loop_run E ro fs path out) as Hrun.
  rewrite Hc in Hout. rewrite Hev in *.
  set (loop := LoadConfig_loop E ro fs (potential fs ∅ [path]) (initial_state path out)) in *.
  destruct (outcome loop) as [st|e] eqn:Hst; [|done].
  cbn zeta in Hout. destruct (ValidateV2 ro _); [done|]. injection Hout as ->.
  cbn [Config.set_Imports Config.Imports].
  destruct (loop_run_visits _ _ _ _ _ _ Hrun) as (_ & _ & _ & Hok).
  destruct (Hok _ eq_refl) as (_ & _ & Hdom).
  assert (Hin : ∀ p, is_Some (ls_loaded st !! p) ↔ p ∈ opened (events loop)).
  { intros p. rewrite <- elem_of_dom, Hdom. cbn [initial_state ls_loaded].
    rewrite dom_empty_L, (left_id_L ∅ (∪)). apply elem_of_list_to_set. }
  assert (Hkeys : ∀ p, p ∈ (range ro (Some (ls_loaded st))).*1 ↔ p ∈ opened (events loop)).
  { intros p. rewrite range_keys. apply Hin. }
  split; [|split; [|split]].
  - apply NoDup_Permutation; [apply (range_NoDup ro (Some (ls_loaded st))) | done | done].
  - apply (range_NoDup ro (Some (ls_loaded st))).
  - intros p. rewrite Hkeys. symmetry. apply Hvisit. by rewrite Hc.
  - by exists (ls_loaded st).
Qed.

Lemma LoadConfig_imports_visited_witness :
  ∃ c,
    outcome (LoadConfig mergo.replace_elems range_id fs_cycle root_toml (Some Config.zero)) = Ok c
    ∧ Config.Imports c
      ≡ₚ opened (events (LoadConfig mergo.replace_elems range_id fs_cycle root_toml
                           (Some Config.zero)))
    ∧ NoDup (Config.Imports c)
    ∧ (∀ p, p ∈ Config.Imports c ↔ reachable fs_cycle root_toml p)
    ∧ ∃ loaded : gmap string bool,
        Config.Imports c = (range range_id (Some loaded)).*1
        ∧ ∀ p, is_Some (loaded !! p)
               ↔ p ∈ opened (events (LoadConfig mergo.replace_elems range_id fs_cycle root_toml
                                       (Some Config.zero))).
Proof.
  eexists. split; [vm_compute; reflexivity|].
  apply LoadConfig_imports_visited. vm_compute. reflexivity.
Defined.

(** C7 as stated fails: the import list is in the order of the [range]
    loop, not sorted. With the three files of [fs_cycle] one order of
    iteration gives a list that begins with the greatest path; another
    order gives another list, so the result is not the same in every
    run. *)
Lemma LoadConfig_imports_unsorted_counterexample :
  imports_of (LoadConfig mergo.replace_elems range_id fs_cycle root_toml (Some Config.zero))
  = Some [root_toml; c_toml; b_toml]
  ∧ ¬ Sorted String.le [root_toml; c_toml; b_toml]
  ∧ imports_of (LoadConfig mergo.replace_elems range_rev fs_cycle root_toml (Some Config.zero))
    = Some [b_toml; c_toml; root_toml].
Proof.
  split; [vm_compute; reflexivity|]. split; [|vm_compute; reflexivity].
  intros Hsorted. apply Sorted_inv in Hsorted as [_ Hhd].
  apply HdRel_inv in Hhd. vm_compute in Hhd. done.
Qed.

(** The traversal of the cyclic file system: every file once, in
    breadth-first order, although the root imports itself and the other
    two files import each other. *)
Example LoadConfig_cycle :
  events (LoadConfig mergo.replace_elems range_id fs_cycle root_toml (Some Config.zero))
  = [EvOpen root_toml; EvMerge root_toml; EvOpen b_toml; EvMerge b_toml;
     EvOpen c_toml; EvMerge c_toml]
  ∧ traversal_completed
      (outcome (LoadConfig mergo.replace_elems range_id fs_cycle root_toml (Some Config.zero))).
Proof. split; vm_compute; [reflexivity | exact I]. Qed.

(** The structural merge may combine two plugin tables key by key;
    [mergeConfig] replaces the combination by the table of [from]. *)
Example merge_plugin_replaced :
  (Config.Plugins <$> mergo.Merge mergo.union_elems range_id tree_A tree_B)
  = Ok (Some (<[ plugin_cri := TTable [("enable_selinux", TBool true);
                                       ("sandbox_image", TString "pause:1")] ]>
                {[ plugin_snap := TTable [] ]}))
  ∧ (Config.Plugins <$> mergeConfig mergo.union_elems range_id tree_A tree_B)
    = Ok (Some (<[ plugin_cri := TTable [("enable_selinux", TBool true)] ]>
                  {[ plugin_snap := TTable [] ]})).
Proof. split; vm_compute; reflexivity. Qed.

(** The cleaning of paths, the split of identifiers. *)
Example Clean_examples :
  filepath.Clean "/etc//containerd/./conf.d/../config.toml" = "/etc/containerd/config.toml"
  ∧ filepath.Clean "../../a/../../b/" = "../../../b"
  ∧ filepath.Clean "/../a/.." = "/"
  ∧ filepath.Clean "a/.." = "."
  ∧ filepath.Dir "/etc/containerd/config.toml" = "/etc/containerd"
  ∧ filepath.Dir "config.toml" = "."
  ∧ filepath.Join ["/etc/containerd"; "../x.toml"] = "/etc/x.toml".
Proof. vm_compute. repeat split; reflexivity. Qed.

Example SplitN_examples :
  strings.SplitN "io.containerd.grpc.v1.cri" "." 4 = ["io"; "containerd"; "grpc"; "v1.cri"]
  ∧ strings.SplitN "io.containerd." "." 4 = ["io"; "containerd"; ""]
  ∧ invalid_URI "io.containerd." = true
  ∧ invalid_URI "io.containerd.grpc.v1.cri" = false.
Proof. vm_compute. repeat split; reflexivity. Qed.

(** ** Further properties of [mergeConfig] *)

Lemma assign_all_nil {V} ro (dst : gomap V) : assign_all ro dst None = Ok dst.
Proof. done. Qed.

(** X1. Merging a tree in which nothing is set (the tree of an empty
    file) changes nothing: [mergeConfig] returns [to] as it was, whatever
    the structural merge does with map entries. *)
Theorem mergeConfig_zero_from E ro to :
  mergeConfig E ro to Config.zero = Ok to.
Proof.
  destruct to as [version root state temp plugin_dir [] [] [] [] disabled required plugins
                    oom [] proxies timeouts imports processors].
  unfold mergeConfig, mergo.Merge, mergo.merge_map. cbn.
  unfold mergo.merge_slice, Config.set_maps. cbn.
  rewrite !(right_id_L [] (++)).
  unfold mergo.merge_GRPC, mergo.merge_TTRPC, mergo.merge_Debug, mergo.merge_Metrics,
    mergo.merge_Cgroup, mergo.merge_bool. cbn.
  done.
Qed.

(** X2. [mergeConfig] fails exactly when the structural merge fails, and
    with its error: the assignments to the maps of [to] after the merge
    never meet a nil map, also when the maps of [to] were nil. *)
Theorem mergeConfig_fails_as_Merge E ro to from :
  (∀ e, mergeConfig E ro to from = Err e ↔ mergo.Merge E ro to from = Err e)
  ∧ mergeConfig E ro to from ≠ Err PanicNilMap.
Proof.
  split.
  - intros e. destruct (mergo.Merge E ro to from) as [m|e'] eqn:Hm.
    + destruct (mergeConfig_inv _ _ _ _ _ Hm) as (? & ? & ? & ? & _ & _ & _ & _ & ->). done.
    + unfold mergeConfig. rewrite Hm. done.
  - intros Hpanic. by apply mergeConfig_Err in Hpanic as [detail ?].
Qed.

(** The entries of a map after [mergeConfig], as a function of the key. *)
Lemma replaced_by_lookup {V} (to from r : gomap V) k :
  replaced_by to from r →
  map_index r k = match map_index from k with
                  | Some v => Some v
                  | None => map_index to k
                  end.
Proof.
  intros [Hfrom Hto]. destruct (map_index from k) as [v|] eqn:Hk; [by apply Hfrom | by apply Hto].
Qed.

Lemma mergeConfig_replaced E ro to from to' :
  mergeConfig E ro to from = Ok to' →
  replaced_by (Config.Plugins to) (Config.Plugins from) (Config.Plugins to')
  ∧ replaced_by (Config.StreamProcessors to) (Config.StreamProcessors from)
      (Config.StreamProcessors to')
  ∧ replaced_by (Config.ProxyPlugins to) (Config.ProxyPlugins from) (Config.ProxyPlugins to')
  ∧ replaced_by (Config.Timeouts to) (Config.Timeouts from) (Config.Timeouts to').
Proof.
  intros Hto'.
  destruct (mergeConfig_Ok_inv _ _ _ _ _ Hto') as [m Hm].
  destruct (mergeConfig_inv _ _ _ _ _ Hm)
    as (plugins & processors & proxies & timeouts & A1 & A2 & A3 & A4 & Heq).
  rewrite Heq in Hto'. injection Hto' as <-.
  destruct (Merge_inv _ _ _ _ _ Hm)
    as (? & ? & ? & ? & H1 & H2 & H3 & H4 & E1 & E2 & E3 & E4 & _).
  subst. cbn. repeat split; eapply replaced_by_assign; eauto.
Qed.

Lemma merge_scalar_assoc x a b :
  merge_scalar (merge_scalar x a) b = merge_scalar x (merge_scalar a b).
Proof. unfold merge_scalar. destruct (is_zero b) eqn:Hb; [done|]. by rewrite Hb. Qed.

Lemma zip_with_assoc {A} (f : A → A → A) :
  (∀ x y z, f (f x y) z = f x (f y z)) →
  ∀ l1 l2 l3, zip_with f (zip_with f l1 l2) l3 = zip_with f l1 (zip_with f l2 l3).
Proof.
  intros Hf. induction l1 as [|x l1 IH]; intros [|y l2] [|z l3]; cbn; try done.
  by rewrite Hf, IH.
Qed.

(** X3. The merge is associative in what it leaves in the scalars, the
    lists and the entries of the four maps: merging [A] and then [B] into
    an accumulator gives the same content as merging into it the result
    of merging [B] into [A]. *)
Theorem mergeConfig_associative E ro acc A B accA accAB AB acc' :
  mergeConfig E ro acc A = Ok accA →
  mergeConfig E ro accA B = Ok accAB →
  mergeConfig E ro A B = Ok AB →
  mergeConfig E ro acc AB = Ok acc' →
  same_content accAB acc'.
Proof.
  intros H1 H2 H3 H4.
  destruct (mergeConfig_fields _ _ _ _ _ H1) as [S1 L1].
  destruct (mergeConfig_fields _ _ _ _ _ H2) as [S2 L2].
  destruct (mergeConfig_fields _ _ _ _ _ H3) as [S3 L3].
  destruct (mergeConfig_fields _ _ _ _ _ H4) as [S4 L4].
  destruct (mergeConfig_replaced _ _ _ _ _ H1) as (P1 & Q1 & R1 & T1).
  destruct (mergeConfig_replaced _ _ _ _ _ H2) as (P2 & Q2 & R2 & T2).
  destruct (mergeConfig_replaced _ _ _ _ _ H3) as (P3 & Q3 & R3 & T3).
  destruct (mergeConfig_replaced _ _ _ _ _ H4) as (P4 & Q4 & R4 & T4).
  split; [|split; [|split; [|split; [|split]]]].
  - rewrite S2, S1, S4, S3. apply zip_with_assoc, merge_scalar_assoc.
  - rewrite L2, L1, L4, L3. apply zip_with_assoc. intros x y z. by rewrite (assoc_L (++)).
  - intros k. rewrite (replaced_by_lookup _ _ _ k P2), (replaced_by_lookup _ _ _ k P1),
      (replaced_by_lookup _ _ _ k P4), (replaced_by_lookup _ _ _ k P3).
    by destruct (map_index (Config.Plugins B) k), (map_index (Config.Plugins A) k).
  - intros k. rewrite (replaced_by_lookup _ _ _ k Q2), (replaced_by_lookup _ _ _ k Q1),
      (replaced_by_lookup _ _ _ k Q4), (replaced_by_lookup _ _ _ k Q3).
    by destruct (map_index (Config.StreamProcessors B) k),
         (map_index (Config.StreamProcessors A) k).
  - intros k. rewrite (replaced_by_lookup _ _ _ k R2), (replaced_by_lookup _ _ _ k R1),
      (replaced_by_lookup _ _ _ k R4), (replaced_by_lookup _ _ _ k R3).
    by destruct (map_index (Config.ProxyPlugins B) k), (map_index (Config.ProxyPlugins A) k).
  - intros k. rewrite (replaced_by_lookup _ _ _ k T2), (replaced_by_lookup _ _ _ k T1),
      (replaced_by_lookup _ _ _ k T4), (replaced_by_lookup _ _ _ k T3).
    by destruct (map_index (Config.Timeouts B) k), (map_index (Config.Timeouts A) k).
Qed.

Lemma mergeConfig_associative_witness :
  ∃ accA accAB AB acc',
    mergeConfig mergo.union_elems range_id tree_valid tree_A = Ok accA
    ∧ mergeConfig mergo.union_elems range_id accA tree_B = Ok accAB
    ∧ mergeConfig mergo.union_elems range_id tree_A tree_B = Ok AB
    ∧ mergeConfig mergo.union_elems range_id tree_valid AB = Ok acc'
    ∧ same_content accAB acc'.
Proof.
  do 4 eexists.
  split; [vm_compute; reflexivity|]. split; [vm_compute; reflexivity|].
  split; [vm_compute; reflexivity|]. split; [vm_compute; reflexivity|].
  eapply (mergeConfig_associative mergo.union_elems range_id tree_valid tree_A tree_B);
    vm_compute; reflexivity.
Defined.

(** The three lists after [mergeConfig]. *)
Lemma mergeConfig_lists_append_parts E ro to from to' :
  mergeConfig E ro to from = Ok to' →
  Config.DisabledPlugins to' = Config.DisabledPlugins to ++ Config.DisabledPlugins from
  ∧ Config.RequiredPlugins to' = Config.RequiredPlugins to ++ Config.RequiredPlugins from
  ∧ Config.Imports to' = Config.Imports to ++ Config.Imports from.
Proof.
  intros Hm. destruct (mergeConfig_fields _ _ _ _ _ Hm) as [_ Hl].
  by injection Hl as -> -> ->.
Qed.

(** ** Properties of [V2DisabledFilter] *)

Lemma disabled_set_lookup (list : list string) : ∀ (set : gmap string unit) u,
  is_Some (foldl (fun (set : gmap string unit) l => <[l := tt]> set) set list !! u)
  ↔ is_Some (set !! u) ∨ u ∈ list.
Proof.
  induction list as [|l list IH]; intros set u; cbn [foldl].
  - rewrite elem_of_nil. tauto.
  - rewrite IH, elem_of_cons. destruct (decide (l = u)) as [->|Hne].
    + rewrite lookup_insert_eq. split; [intros _; right; by left|].
      intros _. left. by eexists.
    + rewrite lookup_insert_ne by done. split; [tauto|].
      intros [?|[?|?]]; [tauto | congruence | tauto].
Qed.

Lemma V2DisabledFilter_true {T} list (r : plugin.Registration T) :
  V2DisabledFilter list r = true ↔ plugin.URI r ∈ list.
Proof.
  unfold V2DisabledFilter. rewrite bool_decide_eq_true, disabled_set_lookup.
  rewrite lookup_empty. split; [|tauto]. intros [[? ?]|?]; done.
Qed.

(** X4. The filter made from a list matches exactly the registrations
    whose URI is in the list. After [mergeConfig] the filter made from the
    disabled plugins of the result matches a registration if and only if
    the filter of [to] or the filter of [from] does: a merge can disable
    more plugins, it cannot enable one again. *)
Theorem V2DisabledFilter_merge {T} E ro to from to' (r : plugin.Registration T) :
  mergeConfig E ro to from = Ok to' →
  V2DisabledFilter (Config.DisabledPlugins to') r
  = V2DisabledFilter (Config.DisabledPlugins to) r
    || V2DisabledFilter (Config.DisabledPlugins from) r
  ∧ (∀ list, V2DisabledFilter list r = true ↔ plugin.URI r ∈ list).
Proof.
  intros Hm. split; [|intros list; apply V2DisabledFilter_true].
  destruct (mergeConfig_lists_append_parts E ro to from to' Hm) as (-> & _).
  apply eq_true_iff_eq.
  rewrite orb_true_iff, !V2DisabledFilter_true, elem_of_app. done.
Qed.

Lemma V2DisabledFilter_merge_witness :
  ∃ to',
    mergeConfig mergo.union_elems range_id tree_A tree_valid = Ok to'
    ∧ V2DisabledFilter (Config.DisabledPlugins to')
        {| plugin.URI := plugin_cri; plugin.Config := tt |}
      = V2DisabledFilter (Config.DisabledPlugins tree_A)
          {| plugin.URI := plugin_cri; plugin.Config := tt |}
        || V2DisabledFilter (Config.DisabledPlugins tree_valid)
             {| plugin.URI := plugin_cri; plugin.Config := tt |}
    ∧ (∀ list, V2DisabledFilter list {| plugin.URI := plugin_cri; plugin.Config := tt |} = true
               ↔ plugin_cri ∈ list).
Proof.
  eexists. split; [vm_compute; reflexivity|].
  apply (V2DisabledFilter_merge mergo.union_elems range_id tree_A tree_valid).
  vm_compute. reflexivity.
Defined.

(** ** Further properties of [ValidateV2] *)

(** A failing check stops at the first malformed identifier. *)
Lemma check_URIs_first mk ps e :
  check_URIs mk ps = Err e →
  ∃ l1 p l2, ps = l1 ++ p :: l2 ∧ Forall well_formed_URI l1 ∧ ¬ well_formed_URI p ∧ e = mk p.
Proof.
  induction ps as [|q ps IH]; cbn; [done|].
  destruct (invalid_URI q) eqn:Hq.
  - intros [= <-]. exists [], q, ps. split; [done|]. split; [constructor|]. split; [|done].
    rewrite <- invalid_URI_false. by rewrite Hq.
  - intros (l1 & p & l2 & -> & Hl1 & Hp & ->)%IH.
    exists (q :: l1), p, l2. split; [done|]. split; [|done].
    constructor; [by apply invalid_URI_false | done].
Qed.

(** X5. Every error of [ValidateV2] describes the tree. The version 1
    error is returned for versions 0 and 1, the generic version error
    names the version of the tree, and an identifier error is returned for
    a tree of version 2 only: it names the first malformed entry of the
    disabled plugins, or else the first malformed entry of the required
    plugins, or else a malformed key of the plugin map. *)
Theorem ValidateV2_error_cases ro c e :
  ValidateV2 ro c = Some e →
  (e = ErrVersion1 ∧ (Config.Version c = 0%Z ∨ Config.Version c = 1%Z))
  ∨ (e = ErrExpectedVersion2 (Config.Version c)
     ∧ Config.Version c ≠ 0%Z ∧ Config.Version c ≠ 1%Z ∧ Config.Version c ≠ 2%Z)
  ∨ (Config.Version c = 2%Z
     ∧ ((∃ l1 p l2, e = ErrDisabledPlugin p
                    ∧ Config.DisabledPlugins c = l1 ++ p :: l2
                    ∧ Forall well_formed_URI l1 ∧ ¬ well_formed_URI p)
        ∨ (∃ l1 p l2, e = ErrRequiredPlugin p
                      ∧ Forall well_formed_URI (Config.DisabledPlugins c)
                      ∧ Config.RequiredPlugins c = l1 ++ p :: l2
                      ∧ Forall well_formed_URI l1 ∧ ¬ well_formed_URI p)
        ∨ (∃ p, e = ErrPluginKey p
                ∧ Forall well_formed_URI (Config.DisabledPlugins c)
                ∧ Forall well_formed_URI (Config.RequiredPlugins c)
                ∧ is_Some (map_index (Config.Plugins c) p) ∧ ¬ well_formed_URI p))).
Proof.
  unfold ValidateV2, GetVersion.
  destruct (decide (Config.Version c = 0%Z)) as [H0|H0].
  { rewrite decide_True by done. intros [= <-]. left. tauto. }
  destruct (decide (Config.Version c = 1%Z)) as [H1|H1].
  { intros [= <-]. left. tauto. }
  destruct (decide (Config.Version c = 2%Z)) as [H2|H2].
  2:{ intros [= <-]. right. left. tauto. }
  intros He. right. right. split; [done|].
  destruct (check_URIs ErrDisabledPlugin _) as [[]|e1] eqn:Hd.
  2:{ injection He as <-. left.
      apply check_URIs_first in Hd as (l1 & p & l2 & ? & ? & ? & ->). by exists l1, p, l2. }
  apply check_URIs_Ok in Hd.
  destruct (check_URIs ErrRequiredPlugin _) as [[]|e2] eqn:Hr.
  2:{ injection He as <-. right. left.
      apply check_URIs_first in Hr as (l1 & p & l2 & ? & ? & ? & ->). by exists l1, p, l2. }
  apply check_URIs_Ok in Hr.
  destruct (check_URIs ErrPluginKey _) as [[]|e3] eqn:Hk; [done|].
  injection He as <-. right. right.
  apply check_URIs_first in Hk as (l1 & p & l2 & Hkeys & _ & Hp & ->).
  exists p. repeat (split; [done|]). split; [|done].
  apply (range_keys ro). rewrite Hkeys. apply elem_of_app. right. by left.
Qed.

Lemma ValidateV2_error_cases_witness :
  ValidateV2 range_id tree_A = Some (ErrDisabledPlugin "1")
  ∧ ((ErrDisabledPlugin "1" = ErrVersion1
      ∧ (Config.Version tree_A = 0%Z ∨ Config.Version tree_A = 1%Z))
     ∨ (ErrDisabledPlugin "1" = ErrExpectedVersion2 (Config.Version tree_A)
        ∧ Config.Version tree_A ≠ 0%Z ∧ Config.Version tree_A ≠ 1%Z
        ∧ Config.Version tree_A ≠ 2%Z)
     ∨ (Config.Version tree_A = 2%Z
        ∧ ((∃ l1 p l2, ErrDisabledPlugin "1" = ErrDisabledPlugin p
                       ∧ Config.DisabledPlugins tree_A = l1 ++ p :: l2
                       ∧ Forall well_formed_URI l1 ∧ ¬ well_formed_URI p)
           ∨ (∃ l1 p l2, ErrDisabledPlugin "1" = ErrRequiredPlugin p
                         ∧ Forall well_formed_URI (Config.DisabledPlugins tree_A)
                         ∧ Config.RequiredPlugins tree_A = l1 ++ p :: l2
                         ∧ Forall well_formed_URI l1 ∧ ¬ well_formed_URI p)
           ∨ (∃ p, ErrDisabledPlugin "1" = ErrPluginKey p
                   ∧ Forall well_formed_URI (Config.DisabledPlugins tree_A)
                   ∧ Forall well_formed_URI (Config.RequiredPlugins tree_A)
                   ∧ is_Some (map_index (Config.Plugins tree_A) p)
                   ∧ ¬ well_formed_URI p)))).
Proof.
  split; [vm_compute; reflexivity|].
  apply (ValidateV2_error_cases range_id tree_A). vm_compute. reflexivity.
Defined.

(** ** Further properties of [loadConfigFile] *)

(** The run of [loadConfigFile] on a file whose decoding fails with a
    given error on the first attempt, other than for unknown fields. *)
Lemma loadConfigFile_decode_error fs path f :
  fs_files fs !! path = Some f →
  Decoder.Decode true (content f) Config.zero = inl Decoder.DecodeError →
  loadConfigFile fs path = ([EvOpen path; EvErrorUnmarshal path], Err (ErrUnmarshalAt path)).
Proof.
  intros Hf Hd. unfold loadConfigFile, os_Open. rewrite Hf. cbn. by rewrite Hd.
Qed.

Lemma loadConfigFile_read_error fs path f :
  fs_files fs !! path = Some f →
  Decoder.Decode true (content f) Config.zero = inl Decoder.ReadError →
  loadConfigFile fs path = ([EvOpen path], Err (ErrUnmarshal path)).
Proof.
  intros Hf Hd. unfold loadConfigFile, os_Open. rewrite Hf. cbn. by rewrite Hd.
Qed.

Lemma loadConfigFile_seek_error fs path f errors :
  fs_files fs !! path = Some f →
  Decoder.Decode true (content f) Config.zero = inl (Decoder.StrictMissingError errors) →
  seekable f = false →
  loadConfigFile fs path
  = (EvOpen path :: ((fun key => EvWarnUnknownKey path (String.concat " " key)) <$> errors),
     Err (ErrSeek path)).
Proof.
  intros Hf Hd Hseek. unfold loadConfigFile, os_Open. rewrite Hf.
  cbn. rewrite Hd, warn_unknown_keys_run, Hseek. cbn.
  by rewrite !(right_id_L [] (++)).
Qed.

Lemma loadConfigFile_open_error fs path :
  fs_files fs !! path = None →
  loadConfigFile fs path = ([EvOpen path], Err (ErrOpen path)).
Proof. intros Hf. unfold loadConfigFile, os_Open. by rewrite Hf. Qed.

(** The decoder on a document: the strict one fails with the list of the
    fields missing in [Config] if there are any. *)
Lemma Decode_parsed strict doc target :
  Decoder.Decode strict (Decoder.Parsed doc) target
  = match Decoder.decode_Config doc target with
    | None => inl Decoder.DecodeError
    | Some c =>
        if strict && bool_decide (Decoder.missing doc ≠ [])
        then inl (Decoder.StrictMissingError (Decoder.missing doc))
        else inr c
    end.
Proof. done. Qed.

(** X6. On a file that holds a document and can be rewound,
    [loadConfigFile] emits one warning for every field of the document
    that [Config] lacks, the nested ones included, in the order of the
    document, and returns the tree decoded from the other fields. It fails
    only if the document does not decode (a key defined twice, a value of
    the wrong type), and then logs the failure, emits no warning and
    returns the error that carries the position. *)
Theorem loadConfigFile_parsed fs path f doc :
  fs_files fs !! path = Some f →
  content f = Decoder.Parsed doc →
  seekable f = true →
  loadConfigFile fs path
  = match Decoder.decode_Config doc Config.zero with
    | Some c =>
        (EvOpen path
           :: ((fun key => EvWarnUnknownKey path (String.concat " " key))
                 <$> Decoder.missing doc),
         Ok c)
    | None => ([EvOpen path; EvErrorUnmarshal path], Err (ErrUnmarshalAt path))
    end.
Proof.
  intros Hf Hc Hseek.
  destruct (Decoder.decode_Config doc Config.zero) as [c|] eqn:Hdec.
  - destruct (decide (Decoder.missing doc = [])) as [Hm|Hm].
    + rewrite Hm. apply (loadConfigFile_strict fs path f c Hf).
      rewrite Hc. apply Decode_strict_inr. done.
    + apply (loadConfigFile_lenient fs path f); [done| |done|].
      * rewrite Hc, Decode_parsed, Hdec. cbn [andb]. by rewrite bool_decide_eq_true_2.
      * by rewrite Hc, Decode_parsed, Hdec.
  - apply (loadConfigFile_decode_error fs path f Hf).
    by rewrite Hc, Decode_parsed, Hdec.
Qed.

Lemma loadConfigFile_parsed_witness :
  fs_files fs_unknown !! root_toml = Some (regular doc_unknown)
  ∧ content (regular doc_unknown) = Decoder.Parsed doc_unknown
  ∧ seekable (regular doc_unknown) = true
  ∧ loadConfigFile fs_unknown root_toml
    = match Decoder.decode_Config doc_unknown Config.zero with
      | Some c =>
          (EvOpen root_toml
             :: ((fun key => EvWarnUnknownKey root_toml (String.concat " " key))
                   <$> Decoder.missing doc_unknown),
           Ok c)
      | None => ([EvOpen root_toml; EvErrorUnmarshal root_toml], Err (ErrUnmarshalAt root_toml))
      end.
Proof.
  split; [vm_compute; reflexivity|]. split; [reflexivity|]. split; [reflexivity|].
  apply (loadConfigFile_parsed fs_unknown root_toml (regular doc_unknown) doc_unknown);
    [vm_compute; reflexivity | reflexivity | reflexivity].
Defined.

Lemma loadConfigFile_seek_error_aux fs path f doc c :
  fs_files fs !! path = Some f →
  content f = Decoder.Parsed doc →
  Decoder.decode_Config doc Config.zero = Some c →
  Decoder.missing doc ≠ [] →
  seekable f = false →
  loadConfigFile fs path
  = (EvOpen path
       :: ((fun key => EvWarnUnknownKey path (String.concat " " key)) <$> Decoder.missing doc),
     Err (ErrSeek path)).
Proof.
  intros Hf Hc Hdec Hm Hseek. apply (loadConfigFile_seek_error fs path f); [done| |done].
  rewrite Hc, Decode_parsed, Hdec. cbn [andb]. by rewrite bool_decide_eq_true_2.
Qed.

(** X7. Every error of [loadConfigFile] tells what went wrong with the
    file: the open error for a path that is not a file, in which case
    nothing but the attempt to open happened; the plain unmarshal error
    for a file that cannot be read; the unmarshal error with a position,
    together with an error log, for contents that are not TOML or do not
    decode into [Config]; the seek error for a file that has fields
    unknown to [Config] and cannot be rewound. Unknown fields alone are
    never an error on a file that can be rewound. *)
Theorem loadConfigFile_error_cases fs path e :
  outcome (loadConfigFile fs path) = Err e →
  (e = ErrOpen path ∧ fs_files fs !! path = None
   ∧ events (loadConfigFile fs path) = [EvOpen path])
  ∨ ∃ f, fs_files fs !! path = Some f
         ∧ ((e = ErrUnmarshal path ∧ content f = Decoder.Unreadable)
            ∨ (e = ErrUnmarshalAt path
               ∧ (content f = Decoder.Malformed
                  ∨ ∃ doc, content f = Decoder.Parsed doc
                           ∧ Decoder.decode_Config doc Config.zero = None)
               ∧ events (loadConfigFile fs path) = [EvOpen path; EvErrorUnmarshal path])
            ∨ (e = ErrSeek path ∧ seekable f = false
               ∧ ∃ doc, content f = Decoder.Parsed doc ∧ Decoder.missing doc ≠ []
                        ∧ is_Some (Decoder.decode_Config doc Config.zero))).
Proof.
  destruct (fs_files fs !! path) as [f|] eqn:Hf.
  2:{ rewrite (loadConfigFile_open_error fs path Hf). intros [= <-]. left. done. }
  intros He. right. exists f. split; [done|].
  destruct (content f) as [| |doc] eqn:Hc.
  - rewrite (loadConfigFile_read_error fs path f Hf) in He by by rewrite Hc.
    injection He as <-. left. done.
  - rewrite (loadConfigFile_decode_error fs path f Hf) in * by by rewrite Hc.
    injection He as <-. right. left. split; [done|]. split; [by left | done].
  - destruct (Decoder.decode_Config doc Config.zero) as [c|] eqn:Hdec.
    + destruct (decide (Decoder.missing doc = [])) as [Hm|Hm].
      { rewrite (loadConfigFile_strict fs path f c Hf) in He; [done|].
        rewrite Hc. by apply Decode_strict_inr. }
      destruct (seekable f) eqn:Hseek.
      { rewrite (loadConfigFile_lenient fs path f (Decoder.missing doc) c Hf) in He; [done| |done|].
        - rewrite Hc, Decode_parsed, Hdec. cbn [andb]. by rewrite bool_decide_eq_true_2.
        - by rewrite Hc, Decode_parsed, Hdec. }
      rewrite (loadConfigFile_seek_error_aux fs path f doc c Hf Hc Hdec Hm Hseek) in He.
      injection He as <-. right. right. split; [done|]. split; [done|].
      exists doc. split; [done|]. split; [done|]. by eexists.
    + rewrite (loadConfigFile_decode_error fs path f Hf) in *
        by by rewrite Hc, Decode_parsed, Hdec.
      injection He as <-. right. left. split; [done|]. split; [|done].
      right. by exists doc.
Qed.

Lemma loadConfigFile_error_cases_witness :
  outcome (loadConfigFile fs_none root_toml) = Err (ErrOpen root_toml)
  ∧ ((ErrOpen root_toml = ErrOpen root_toml ∧ fs_files fs_none !! root_toml = None
      ∧ events (loadConfigFile fs_none root_toml) = [EvOpen root_toml])
     ∨ ∃ f, fs_files fs_none !! root_toml = Some f
            ∧ ((ErrOpen root_toml = ErrUnmarshal root_toml ∧ content f = Decoder.Unreadable)
               ∨ (ErrOpen root_toml = ErrUnmarshalAt root_toml
                  ∧ (content f = Decoder.Malformed
                     ∨ ∃ doc, content f = Decoder.Parsed doc
                              ∧ Decoder.decode_Config doc Config.zero = None)
                  ∧ events (loadConfigFile fs_none root_toml)
                    = [EvOpen root_toml; EvErrorUnmarshal root_toml])
               ∨ (ErrOpen root_toml = ErrSeek root_toml ∧ seekable f = false
                  ∧ ∃ doc, content f = Decoder.Parsed doc ∧ Decoder.missing doc ≠ []
                           ∧ is_Some (Decoder.decode_Config doc Config.zero)))).
Proof.
  split; [reflexivity|].
  apply (loadConfigFile_error_cases fs_none root_toml (ErrOpen root_toml)). reflexivity.
Defined.

(** ** Further properties of [resolveImports] *)

(** The slice built so far is a prefix of the result and has no other
    influence. *)
Lemma resolveImports_loop_acc fs parent imports : ∀ acc,
  events (resolveImports_loop fs parent imports acc)
  = events (resolveImports_loop fs parent imports [])
  ∧ outcome (resolveImports_loop fs parent imports acc)
    = match outcome (resolveImports_loop fs parent imports []) with
      | Ok out => Ok (acc ++ out)
      | Err e => Err e
      end.
Proof.
  induction imports as [|expr imports IH]; intros acc; cbn [resolveImports_loop].
  - cbn. by rewrite (right_id_L [] (++)).
  - destruct (strings.Contains expr "*").
    + rewrite !events_bind, !outcome_bind, filepath_Glob_outcome.
      destruct (fs_glob fs expr) as [matches|]; [|done]. cbn beta iota.
      destruct (IH (acc ++ matches)) as [-> ->].
      destruct (IH ([] ++ matches)) as [-> ->].
      split; [done|].
      destruct (outcome (resolveImports_loop fs parent imports [])); [|done].
      by rewrite <- (assoc_L (++)).
    + destruct (IH (acc ++ [if filepath.IsAbs (filepath.Clean expr)
                           then filepath.Clean expr
                           else filepath.Join [filepath.Dir parent; filepath.Clean expr]]))
        as [-> ->].
      destruct (IH ([] ++ [if filepath.IsAbs (filepath.Clean expr)
                           then filepath.Clean expr
                           else filepath.Join [filepath.Dir parent; filepath.Clean expr]]))
        as [-> ->].
      split; [done|].
      destruct (outcome (resolveImports_loop fs parent imports [])); [|done].
      by rewrite <- (assoc_L (++)).
Qed.

(** One step of [resolveImports]. *)
Lemma resolveImports_cons fs parent expr imports :
  outcome (resolveImports fs parent (expr :: imports))
  = (if strings.Contains expr "*" then
       match fs_glob fs expr with
       | None => Err (ErrBadPattern expr)
       | Some matches =>
           match outcome (resolveImports fs parent imports) with
           | Ok out => Ok (matches ++ out)
           | Err e => Err e
           end
       end
     else
       match outcome (resolveImports fs parent imports) with
       | Ok out =>
           Ok ((if filepath.IsAbs (filepath.Clean expr) then filepath.Clean expr
                else filepath.Join [filepath.Dir parent; filepath.Clean expr]) :: out)
       | Err e => Err e
       end)
  ∧ events (resolveImports fs parent (expr :: imports))
    = if strings.Contains expr "*" then
        EvGlob expr :: match fs_glob fs expr with
                       | None => []
                       | Some _ => events (resolveImports fs parent imports)
                       end
      else events (resolveImports fs parent imports).
Proof.
  unfold resolveImports. cbn [resolveImports_loop].
  destruct (strings.Contains expr "*").
  - rewrite events_bind, outcome_bind, filepath_Glob_outcome, filepath_Glob_events.
    destruct (fs_glob fs expr) as [matches|]; [|done]. cbn beta iota.
    destruct (resolveImports_loop_acc fs parent imports ([] ++ matches)) as [-> ->]. done.
  - destruct (resolveImports_loop_acc fs parent imports
                ([] ++ [if filepath.IsAbs (filepath.Clean expr)
                        then filepath.Clean expr
                        else filepath.Join [filepath.Dir parent; filepath.Clean expr]]))
      as [-> ->]. done.
Qed.

Lemma bind_ext {A B} (m : M A) (f g : A -> M B) :
  (∀ a, f a = g a) → m ≫= f = m ≫= g.
Proof.
  intros Hfg. destruct m as [t [a|e]]; [|done].
  unfold mbind, M_bind, bind. cbn. by rewrite Hfg.
Qed.

(** X8. [resolveImports] fails for one reason only, a malformed glob
    pattern: on the first import expression with a wildcard for which
    [filepath.Glob] returns an error, and with that error. The file system
    is asked about the expressions with a wildcard and about nothing else:
    a plain path is resolved whether or not a file is there, and a pattern
    that matches nothing is no error. *)
Theorem resolveImports_error fs parent imports :
  (∀ e, outcome (resolveImports fs parent imports) = Err e ↔
     ∃ before pattern after,
       imports = before ++ pattern :: after
       ∧ Forall (fun expr => strings.Contains expr "*" = true → is_Some (fs_glob fs expr)) before
       ∧ strings.Contains pattern "*" = true
       ∧ fs_glob fs pattern = None
       ∧ e = ErrBadPattern pattern)
  ∧ (∀ ev, ev ∈ events (resolveImports fs parent imports) →
       ∃ pattern, ev = EvGlob pattern ∧ pattern ∈ imports
                  ∧ strings.Contains pattern "*" = true).
Proof.
  induction imports as [|expr imports [IHe IHev]].
  - split.
    + intros e. split; [done|]. intros (before & pattern & after & Heq & _).
      by destruct before.
    + intros ev Hev. cbn in Hev. by apply elem_of_nil in Hev.
  - destruct (resolveImports_cons fs parent expr imports) as [Hout Hevents].
    rewrite Hout, Hevents. clear Hout Hevents.
    destruct (strings.Contains expr "*") eqn:Hglob; split.
    + intros e. destruct (fs_glob fs expr) as [matches|] eqn:Hm.
      * split.
        -- intros He.
           destruct (outcome (resolveImports fs parent imports)) as [out|e'] eqn:Hrest;
             [done|]. injection He as ->.
           destruct (proj1 (IHe e) eq_refl) as (before & pattern & after & -> & Hb & ? & ? & ?).
           exists (expr :: before), pattern, after. split; [done|].
           split; [|done]. constructor; [|done]. intros _. by rewrite Hm.
        -- intros (before & pattern & after & Heq & Hb & Hp & Hnone & ->).
           destruct before as [|expr' before].
           { injection Heq as -> ->. by rewrite Hnone in Hm. }
           injection Heq as -> ->. apply Forall_cons in Hb as [_ Hb].
           assert (Hrest : outcome (resolveImports fs parent (before ++ pattern :: after))
                           = Err (ErrBadPattern pattern)).
           { apply IHe. by exists before, pattern, after. }
           by rewrite Hrest.
      * split.
        -- intros [= <-]. exists [], expr, imports. done.
        -- intros (before & pattern & after & Heq & Hb & Hp & Hnone & ->).
           destruct before as [|expr' before].
           { by injection Heq as -> ->. }
           injection Heq as -> ->. apply Forall_cons in Hb as [Hsome _].
           destruct (Hsome Hglob) as [? Hsome']. by rewrite Hm in Hsome'.
    + intros ev [->|Hev]%elem_of_cons.
      * exists expr. split; [done|]. split; [apply elem_of_cons; by left | done].
      * destruct (fs_glob fs expr); [|by apply elem_of_nil in Hev].
        destruct (IHev ev Hev) as (pattern & -> & Hin & Hp).
        exists pattern. split; [done|]. split; [apply elem_of_cons; by right | done].
    + intros e. split.
      * intros He.
        destruct (outcome (resolveImports fs parent imports)) as [out|e'] eqn:Hrest;
          [done|]. injection He as ->.
        destruct (proj1 (IHe e) eq_refl) as (before & pattern & after & -> & Hb & ? & ? & ?).
        exists (expr :: before), pattern, after. split; [done|].
        split; [|done]. constructor; [|done]. intros Hc. by rewrite Hglob in Hc.
      * intros (before & pattern & after & Heq & Hb & Hp & Hnone & ->).
        destruct before as [|expr' before].
        { injection Heq as -> ->. by rewrite Hglob in Hp. }
        injection Heq as -> ->. apply Forall_cons in Hb as [_ Hb].
        assert (Hrest : outcome (resolveImports fs parent (before ++ pattern :: after))
                        = Err (ErrBadPattern pattern)).
        { apply IHe. by exists before, pattern, after. }
        by rewrite Hrest.
    + intros ev Hev. destruct (IHev ev Hev) as (pattern & -> & Hin & Hp).
      exists pattern. split; [done|]. split; [apply elem_of_cons; by right | done].
Qed.

(** X9. [resolveImports] works expression by expression: the imports of
    a list resolve if and only if those of its two parts do, and to
    the paths of the first part followed by those of the second. Of the
    path of the declaring file only the directory counts. *)
Theorem resolveImports_app fs parent xs ys out :
  (outcome (resolveImports fs parent (xs ++ ys)) = Ok out ↔
     ∃ out1 out2, outcome (resolveImports fs parent xs) = Ok out1
                  ∧ outcome (resolveImports fs parent ys) = Ok out2
                  ∧ out = out1 ++ out2)
  ∧ (∀ parent', filepath.Dir parent' = filepath.Dir parent →
       resolveImports fs parent' xs = resolveImports fs parent xs).
Proof.
  split.
  - revert out. induction xs as [|expr xs IH]; intros out.
    + cbn [app]. split.
      * intros Hout. by exists [], out.
      * intros (out1 & out2 & [= <-] & Hout & ->). done.
    + change ((expr :: xs) ++ ys) with (expr :: (xs ++ ys)).
      rewrite (proj1 (resolveImports_cons fs parent expr (xs ++ ys))).
      rewrite (proj1 (resolveImports_cons fs parent expr xs)).
      destruct (strings.Contains expr "*").
      * destruct (fs_glob fs expr) as [matches|].
        2:{ split; [done|]. by intros (? & ? & ? & _). }
        destruct (outcome (resolveImports fs parent (xs ++ ys))) as [rest|e] eqn:Hrest.
        -- destruct (proj1 (IH rest) eq_refl) as (out1 & out2 & -> & Hys & ->).
           split.
           ++ intros [= <-]. exists (matches ++ out1), out2.
              by rewrite <- (assoc_L (++)).
           ++ intros (o1 & o2 & [= <-] & Hys' & ->).
              rewrite Hys in Hys'. injection Hys' as <-. by rewrite <- (assoc_L (++)).
        -- split; [done|]. intros (o1 & o2 & Ho1 & Hys & ->).
           destruct (outcome (resolveImports fs parent xs)) as [out1|] eqn:Hxs; [|done].
           assert (Hok : outcome (resolveImports fs parent (xs ++ ys)) = Ok (out1 ++ o2)).
           { rewrite Hrest. apply IH. by exists out1, o2. }
           by rewrite Hrest in Hok.
      * destruct (outcome (resolveImports fs parent (xs ++ ys))) as [rest|e] eqn:Hrest.
        -- destruct (proj1 (IH rest) eq_refl) as (out1 & out2 & -> & Hys & ->).
           split.
           ++ intros [= <-]. by eexists (_ :: out1), out2.
           ++ intros (o1 & o2 & [= <-] & Hys' & ->).
              rewrite Hys in Hys'. by injection Hys' as <-.
        -- split; [done|]. intros (o1 & o2 & Ho1 & Hys & ->).
           destruct (outcome (resolveImports fs parent xs)) as [out1|] eqn:Hxs; [|done].
           assert (Hok : outcome (resolveImports fs parent (xs ++ ys)) = Ok (out1 ++ o2)).
           { rewrite Hrest. apply IH. by exists out1, o2. }
           by rewrite Hrest in Hok.
  - intros parent' Hdir. unfold resolveImports. generalize (@nil string).
    induction xs as [|expr xs IH]; intros acc; cbn [resolveImports_loop]; [done|].
    destruct (strings.Contains expr "*").
    + apply bind_ext. intros matches. apply IH.
    + rewrite Hdir. apply IH.
Qed.

(** ** [LoadConfig] as a sequence of merges *)

Lemma merge_all_Err E ro e trees :
  foldl (fun acc tree => out ← acc; mergeConfig E ro out tree) (Err e) trees = Err e.
Proof. induction trees as [|t trees IH]; [done|]. cbn. apply IH. Qed.

Lemma merge_all_cons E ro out tree trees :
  merge_all E ro out (tree :: trees)
  = match mergeConfig E ro out tree with
    | Ok out' => merge_all E ro out' trees
    | Err e => Err e
    end.
Proof.
  unfold merge_all. cbn [foldl]. cbn [mbind result_bind].
  destruct (mergeConfig E ro out tree) as [out'|e]; [done|]. apply merge_all_Err.
Qed.

(** The paths opened by one iteration and the rest of a run. *)
Lemma opened_iteration fs path imports tr :
  opened (events (loadConfigFile fs path) ++ [EvMerge path]
          ++ events (resolveImports fs path imports) ++ tr)
  = path :: opened tr.
Proof.
  rewrite !opened_app.
  rewrite (proj1 (loadConfigFile_opened_merged fs path)).
  unfold resolveImports.
  rewrite (proj1 (resolveImports_loop_opened_merged fs path imports [])). done.
Qed.

Lemma default_last_cons {A} (x p : A) (l : list A) :
  default x (last (p :: l)) = default p (last l).
Proof. rewrite last_cons. by destruct (last l). Qed.

(** A run of the loop that reaches the exit has merged the trees of the
    files it opened, in the order in which it opened them; each of these
    files decoded; and the variable [path] holds the last path that was in
    the queue. *)
Lemma loop_run_merge_all E ro fs st tr st' :
  loop_run E ro fs st tr (Ok st') →
  merge_all E ro (ls_out st) (visited_trees fs tr) = Ok (ls_out st')
  ∧ length (visited_trees fs tr) = length (opened tr)
  ∧ ls_path st'
    = default (ls_path st) (last (ls_pending st ++ concat (resolved fs <$> opened tr))).
Proof.
  remember (Ok st') as r eqn:Hr. intros Hrun. revert st' Hr.
  induction Hrun as [st Hp|st path pending tr r Hp Hl Hrun IH|st path pending e Hp Hl He
                     |st path pending config e Hp Hl Hc He
                     |st path pending config out e Hp Hl Hc Hm He
                     |st path pending config out imports tr r Hp Hl Hc Hm Hi Hrun IH];
    intros st' Hr; try done.
  - injection Hr as <-. rewrite Hp. done.
  - destruct (IH st' Hr) as (Hmerge & Hlen & Hpath). cbn [ls_out ls_path ls_pending] in *.
    split; [done|]. split; [done|].
    rewrite Hpath, Hp. cbn [app]. by rewrite default_last_cons.
  - destruct (IH st' Hr) as (Hmerge & Hlen & Hpath). cbn [ls_out ls_path ls_pending] in *.
    assert (Hdec : decoded fs path = Some config) by (unfold decoded; by rewrite Hc).
    unfold visited_trees in *. rewrite opened_iteration. cbn [omap list_omap length].
    rewrite Hdec. cbn [length].
    split; [|split].
    + rewrite merge_all_cons, Hm. done.
    + by rewrite Hlen.
    + rewrite Hpath, Hp. cbn [fmap list_fmap concat app].
      assert (Hres : resolved fs path = imports).
      { unfold resolved. by rewrite Hdec, Hi. }
      rewrite Hres, (assoc_L (++)). by rewrite default_last_cons.
Qed.

(** What a successful call of [LoadConfig] went through. *)
Lemma LoadConfig_Ok_inv E ro fs path out result :
  outcome (LoadConfig E ro fs path (Some out)) = Ok result →
  ∃ st, loop_run E ro fs (initial_state path out)
          (events (LoadConfig E ro fs path (Some out))) (Ok st)
        ∧ result = Config.set_Imports (ls_out st) (range ro (Some (ls_loaded st))).*1
        ∧ ValidateV2 ro result = None.
Proof.
  destruct (LoadConfig_unfold E ro fs path out) as [Hev Hout]. cbn zeta in Hev, Hout.
  pose proof (LoadConfig_loop_run E ro fs path out) as Hrun.
  rewrite Hev, Hout.
  destruct (outcome (LoadConfig_loop E ro fs (potential fs ∅ [path]) (initial_state path out)))
    as [st|e]; [|done].
  destruct (ValidateV2 ro (Config.set_Imports (ls_out st) (range ro (Some (ls_loaded st))).*1))
    as [err|] eqn:Hv; [done|].
  intros [= <-]. by exists st.
Qed.

(** What a failed call of [LoadConfig] went through: an error from inside
    the loop, or the error of the validation after it. *)
Lemma LoadConfig_Err_inv E ro fs path out e :
  outcome (LoadConfig E ro fs path (Some out)) = Err e →
  loop_run E ro fs (initial_state path out)
    (events (LoadConfig E ro fs path (Some out))) (Err e)
  ∨ ∃ st err, loop_run E ro fs (initial_state path out)
                (events (LoadConfig E ro fs path (Some out))) (Ok st)
              ∧ ValidateV2 ro (ls_out st) = Some err
              ∧ e = ErrLoadTOML (ls_path st) err.
Proof.
  destruct (LoadConfig_unfold E ro fs path out) as [Hev Hout]. cbn zeta in Hev, Hout.
  pose proof (LoadConfig_loop_run E ro fs path out) as Hrun.
  rewrite Hev, Hout.
  destruct (outcome (LoadConfig_loop E ro fs (potential fs ∅ [path]) (initial_state path out)))
    as [st|e']; [|intros [= <-]; by left].
  destruct (ValidateV2 ro (Config.set_Imports (ls_out st) (range ro (Some (ls_loaded st))).*1))
    as [err|] eqn:Hv; [|done].
  intros [= <-]. right. by exists st, err.
Qed.

Lemma merge_all_lists E ro trees : ∀ out r,
  merge_all E ro out trees = Ok r →
  Config.DisabledPlugins r
  = Config.DisabledPlugins out ++ concat (Config.DisabledPlugins <$> trees)
  ∧ Config.RequiredPlugins r
    = Config.RequiredPlugins out ++ concat (Config.RequiredPlugins <$> trees).
Proof.
  induction trees as [|t trees IH]; intros out r.
  - intros [= <-]. cbn. by rewrite !(right_id_L [] (++)).
  - rewrite merge_all_cons.
    destruct (mergeConfig E ro out t) as [out'|e] eqn:Hm; [|done].
    intros [-> ->]%IH.
    destruct (mergeConfig_lists_append_parts E ro out t out' Hm) as (-> & -> & _).
    cbn [fmap list_fmap concat]. by rewrite <- !(assoc_L (++)).
Qed.

Lemma merge_all_scalar E ro i trees : ∀ out r,
  merge_all E ro out trees = Ok r →
  scalars r !! i = match last (settings_at i trees) with
                   | Some y => Some y
                   | None => scalars out !! i
                   end.
Proof.
  induction trees as [|t trees IH]; intros out r.
  - by intros [= <-].
  - rewrite merge_all_cons.
    destruct (mergeConfig E ro out t) as [out'|e] eqn:Hm; [|done].
    intros Hr. rewrite (IH out' r Hr). clear IH Hr.
    unfold settings_at. cbn [omap list_omap].
    destruct (scalars t !! i) as [y|] eqn:Hy.
    + destruct (scalars_lookup_is_Some t out i) as [x Hx]; [by eexists|].
      rewrite (mergeConfig_scalar E ro out t out' i x y Hm Hx Hy), Hx.
      unfold merge_scalar. destruct (is_zero y); [done|].
      rewrite last_cons.
      by destruct (last (omap _ trees)).
    + apply lookup_ge_None in Hy. rewrite scalars_length in Hy.
      rewrite (proj2 (lookup_ge_None (scalars out') i)) by by rewrite scalars_length.
      rewrite (proj2 (lookup_ge_None (scalars out) i)) by by rewrite scalars_length.
      done.
Qed.

Lemma merge_all_map {V} (f : Config.t -> gomap V) E ro :
  (∀ to from to', mergeConfig E ro to from = Ok to' → replaced_by (f to) (f from) (f to')) →
  ∀ k trees out r,
    merge_all E ro out trees = Ok r →
    map_index (f r) k = match last (values_at f k trees) with
                        | Some v => Some v
                        | None => map_index (f out) k
                        end.
Proof.
  intros Hf k trees. induction trees as [|t trees IH]; intros out r.
  - by intros [= <-].
  - rewrite merge_all_cons.
    destruct (mergeConfig E ro out t) as [out'|e] eqn:Hm; [|done].
    intros Hr. rewrite (IH out' r Hr). clear IH Hr.
    rewrite (replaced_by_lookup _ _ _ k (Hf out t out' Hm)).
    unfold values_at. cbn [omap list_omap].
    destruct (map_index (f t) k) as [v|]; [|done].
    rewrite last_cons. by destruct (last (omap _ trees)).
Qed.

Lemma last_values_at {V} (f : Config.t -> gomap V) k trees t :
  t ∈ trees → is_Some (map_index (f t) k) → is_Some (last (values_at f k trees)).
Proof.
  intros Ht [v Hv]. induction trees as [|t' trees IH]; [by apply elem_of_nil in Ht|].
  unfold values_at in *. cbn [omap list_omap].
  apply elem_of_cons in Ht as [<-|Ht].
  - rewrite Hv, last_cons. destruct (last (omap _ trees)); by eexists.
  - specialize (IH Ht). destruct (map_index (f t') k); [|done].
    rewrite last_cons. destruct (last (omap _ trees)); by eexists.
Qed.

(** X10. A successful call of [LoadConfig] is a sequence of merges: the
    tree it leaves in [out] is what [mergeConfig] makes of [out] and the
    trees of the files opened, one after the other in the order in which
    they were opened, and differs from that only in the field
    [Imports]. Every file opened was decoded and merged. *)
Theorem LoadConfig_merges_visited E ro fs path out result :
  outcome (LoadConfig E ro fs path (Some out)) = Ok result →
  ∃ merged_tree,
    merge_all E ro out (visited_trees fs (events (LoadConfig E ro fs path (Some out))))
    = Ok merged_tree
    ∧ result = Config.set_Imports merged_tree (Config.Imports result)
    ∧ length (visited_trees fs (events (LoadConfig E ro fs path (Some out))))
      = length (opened (events (LoadConfig E ro fs path (Some out)))).
Proof.
  intros (st & Hrun & -> & _)%LoadConfig_Ok_inv.
  destruct (loop_run_merge_all E ro fs _ _ _ Hrun) as (Hmerge & Hlen & _).
  exists (ls_out st). done.
Qed.

Lemma LoadConfig_merges_visited_witness :
  ∃ result,
    outcome (LoadConfig mergo.union_elems range_id fs_overlay root_toml (Some Config.zero))
    = Ok result
    ∧ ∃ merged_tree,
        merge_all mergo.union_elems range_id Config.zero
          (visited_trees fs_overlay
             (events (LoadConfig mergo.union_elems range_id fs_overlay root_toml
                        (Some Config.zero))))
        = Ok merged_tree
        ∧ result = Config.set_Imports merged_tree (Config.Imports result)
        ∧ length (visited_trees fs_overlay
                    (events (LoadConfig mergo.union_elems range_id fs_overlay root_toml
                               (Some Config.zero))))
          = length (opened (events (LoadConfig mergo.union_elems range_id fs_overlay
                                      root_toml (Some Config.zero)))).
Proof.
  eexists. split; [vm_compute; reflexivity|].
  apply (LoadConfig_merges_visited mergo.union_elems range_id fs_overlay root_toml Config.zero).
  vm_compute. reflexivity.
Defined.

(** X11. After a successful call of [LoadConfig] the lists of disabled
    and of required plugins are those that [out] had, followed by those of
    every file opened, in the order in which the files were opened:
    nothing is dropped, reordered or deduplicated. *)
Theorem LoadConfig_lists_visit_order E ro fs path out result :
  outcome (LoadConfig E ro fs path (Some out)) = Ok result →
  Config.DisabledPlugins result
  = Config.DisabledPlugins out
    ++ concat (Config.DisabledPlugins
                 <$> visited_trees fs (events (LoadConfig E ro fs path (Some out))))
  ∧ Config.RequiredPlugins result
    = Config.RequiredPlugins out
      ++ concat (Config.RequiredPlugins
                   <$> visited_trees fs (events (LoadConfig E ro fs path (Some out)))).
Proof.
  intros (st & Hrun & -> & _)%LoadConfig_Ok_inv.
  destruct (loop_run_merge_all E ro fs _ _ _ Hrun) as (Hmerge & _ & _).
  apply (merge_all_lists E ro _ _ _ Hmerge).
Qed.

Lemma LoadConfig_lists_visit_order_witness :
  ∃ result,
    outcome (LoadConfig mergo.union_elems range_id fs_overlay root_toml (Some tree_valid))
    = Ok result
    ∧ Config.DisabledPlugins result
      = Config.DisabledPlugins tree_valid
        ++ concat (Config.DisabledPlugins
                     <$> visited_trees fs_overlay
                           (events (LoadConfig mergo.union_elems range_id fs_overlay root_toml
                                      (Some tree_valid))))
    ∧ Config.RequiredPlugins result
      = Config.RequiredPlugins tree_valid
        ++ concat (Config.RequiredPlugins
                     <$> visited_trees fs_overlay
                           (events (LoadConfig mergo.union_elems range_id fs_overlay root_toml
                                      (Some tree_valid)))).
Proof.
  eexists. split; [vm_compute; reflexivity|].
  apply (LoadConfig_lists_visit_order mergo.union_elems range_id fs_overlay root_toml tree_valid).
  vm_compute. reflexivity.
Defined.

(** X12. After a successful call of [LoadConfig] every scalar field has
    the value of the last file opened that sets it to something other
    than the zero value of its type; if no file does, it has the value
    that [out] had. *)
Theorem LoadConfig_scalar_last_set E ro fs path out result i :
  outcome (LoadConfig E ro fs path (Some out)) = Ok result →
  scalars result !! i
  = match last (settings_at i
                  (visited_trees fs (events (LoadConfig E ro fs path (Some out))))) with
    | Some y => Some y
    | None => scalars out !! i
    end.
Proof.
  intros (st & Hrun & -> & _)%LoadConfig_Ok_inv.
  destruct (loop_run_merge_all E ro fs _ _ _ Hrun) as (Hmerge & _ & _).
  apply (merge_all_scalar E ro i _ _ _ Hmerge).
Qed.

Lemma LoadConfig_scalar_last_set_witness :
  ∃ result,
    outcome (LoadConfig mergo.union_elems range_id fs_overlay root_toml (Some Config.zero))
    = Ok result
    ∧ scalars result !! 1%nat
      = match last (settings_at 1
                      (visited_trees fs_overlay
                         (events (LoadConfig mergo.union_elems range_id fs_overlay root_toml
                                    (Some Config.zero))))) with
        | Some y => Some y
        | None => scalars Config.zero !! 1%nat
        end.
Proof.
  eexists. split; [vm_compute; reflexivity|].
  apply (LoadConfig_scalar_last_set mergo.union_elems range_id fs_overlay root_toml
           Config.zero).
  vm_compute. reflexivity.
Defined.

(** X13. After a successful call of [LoadConfig] the value under a key
    of the map of plugins, of stream processors, of proxy plugins or of
    timeouts is the one of the last file opened that has the key, whole:
    nothing of the values that earlier files or [out] had under the key
    is left. A key that no file has keeps the value that [out] had. *)
Theorem LoadConfig_maps_last_visited E ro fs path out result k :
  outcome (LoadConfig E ro fs path (Some out)) = Ok result →
  map_index (Config.Plugins result) k
  = match last (values_at Config.Plugins k
                  (visited_trees fs (events (LoadConfig E ro fs path (Some out))))) with
    | Some v => Some v
    | None => map_index (Config.Plugins out) k
    end
  ∧ map_index (Config.StreamProcessors result) k
    = match last (values_at Config.StreamProcessors k
                    (visited_trees fs (events (LoadConfig E ro fs path (Some out))))) with
      | Some v => Some v
      | None => map_index (Config.StreamProcessors out) k
      end
  ∧ map_index (Config.ProxyPlugins result) k
    = match last (values_at Config.ProxyPlugins k
                    (visited_trees fs (events (LoadConfig E ro fs path (Some out))))) with
      | Some v => Some v
      | None => map_index (Config.ProxyPlugins out) k
      end
  ∧ map_index (Config.Timeouts result) k
    = match last (values_at Config.Timeouts k
                    (visited_trees fs (events (LoadConfig E ro fs path (Some out))))) with
      | Some v => Some v
      | None => map_index (Config.Timeouts out) k
      end.
Proof.
  intros (st & Hrun & -> & _)%LoadConfig_Ok_inv.
  destruct (loop_run_merge_all E ro fs _ _ _ Hrun) as (Hmerge & _ & _).
  cbn [initial_state ls_out] in Hmerge.
  pose proof (merge_all_map Config.Plugins E ro
    (fun to from to' Hm => proj1 (mergeConfig_replaced E ro to from to' Hm))
    k _ _ _ Hmerge) as H1.
  pose proof (merge_all_map Config.StreamProcessors E ro
    (fun to from to' Hm => proj1 (proj2 (mergeConfig_replaced E ro to from to' Hm)))
    k _ _ _ Hmerge) as H2.
  pose proof (merge_all_map Config.ProxyPlugins E ro
    (fun to from to' Hm => proj1 (proj2 (proj2 (mergeConfig_replaced E ro to from to' Hm))))
    k _ _ _ Hmerge) as H3.
  pose proof (merge_all_map Config.Timeouts E ro
    (fun to from to' Hm => proj2 (proj2 (proj2 (mergeConfig_replaced E ro to from to' Hm))))
    k _ _ _ Hmerge) as H4.
  exact (conj H1 (conj H2 (conj H3 H4))).
Qed.

Lemma LoadConfig_maps_last_visited_witness :
  ∃ result,
    outcome (LoadConfig mergo.union_elems range_id fs_overlay root_toml (Some Config.zero))
    = Ok result
    ∧ map_index (Config.Plugins result) plugin_snap = Some (TTable [("b", TInt 2)])
    ∧ last (values_at Config.Plugins plugin_snap
              (visited_trees fs_overlay
                 (events (LoadConfig mergo.union_elems range_id fs_overlay root_toml
                            (Some Config.zero)))))
      = Some (TTable [("b", TInt 2)]).
Proof.
  eexists. split; [vm_compute; reflexivity|].
  split; [|vm_compute; reflexivity].
  rewrite (proj1 (LoadConfig_maps_last_visited mergo.union_elems range_id fs_overlay root_toml
                    Config.zero _ plugin_snap ltac:(vm_compute; reflexivity))).
  vm_compute. reflexivity.
Defined.

(** ** [LoadConfig] and the validation *)

(** X14. A successful call of [LoadConfig] returns a tree that passes
    [ValidateV2], and so vouches for every file opened and for what [out]
    held before: each of their disabled and required plugins and each key
    of their tables of plugins is a well-formed identifier, and the
    version that the merge leaves is [2]. *)
Theorem LoadConfig_visited_valid E ro fs path out result :
  outcome (LoadConfig E ro fs path (Some out)) = Ok result →
  ValidateV2 ro result = None
  ∧ Config.Version result = 2%Z
  ∧ Forall (fun tree =>
              Forall well_formed_URI (Config.DisabledPlugins tree)
              ∧ Forall well_formed_URI (Config.RequiredPlugins tree)
              ∧ ∀ k, is_Some (map_index (Config.Plugins tree) k) → well_formed_URI k)
      (out :: visited_trees fs (events (LoadConfig E ro fs path (Some out)))).
Proof.
  intros (st & Hrun & -> & Hvalid)%LoadConfig_Ok_inv.
  split; [done|].
  apply ValidateV2_None in Hvalid as (Hversion & Hdisabled & Hrequired & Hkeys).
  split; [done|].
  destruct (loop_run_merge_all E ro fs _ _ _ Hrun) as (Hmerge & _ & _).
  cbn [initial_state ls_out] in Hmerge.
  destruct (merge_all_lists E ro _ _ _ Hmerge) as [Hd Hr].
  pose proof (fun k => merge_all_map Config.Plugins E ro
    (fun to from to' Hm => proj1 (mergeConfig_replaced E ro to from to' Hm))
    k _ _ _ Hmerge) as Hp.
  cbn [Config.set_Imports Config.DisabledPlugins Config.RequiredPlugins Config.Plugins]
    in Hdisabled, Hrequired, Hkeys.
  rewrite Hd in Hdisabled. rewrite Hr in Hrequired.
  apply Forall_app in Hdisabled as [Hd0 Hds]. apply Forall_app in Hrequired as [Hr0 Hrs].
  apply Forall_cons. split.
  - split; [done|]. split; [done|]. intros k Hk. apply Hkeys. rewrite Hp.
    by destruct (last _).
  - apply Forall_forall. intros t Ht. split; [|split].
    + rewrite Forall_concat, Forall_fmap, Forall_forall in Hds. by apply Hds.
    + rewrite Forall_concat, Forall_fmap, Forall_forall in Hrs. by apply Hrs.
    + intros k Hk. apply Hkeys. rewrite Hp.
      destruct (last_values_at Config.Plugins k _ t Ht Hk) as [v ->]. by eexists.
Qed.

Lemma LoadConfig_visited_valid_witness :
  ∃ result,
    outcome (LoadConfig mergo.union_elems range_id fs_overlay root_toml (Some Config.zero))
    = Ok result
    ∧ ValidateV2 range_id result = None
    ∧ Config.Version result = 2%Z
    ∧ Forall (fun tree =>
                Forall well_formed_URI (Config.DisabledPlugins tree)
                ∧ Forall well_formed_URI (Config.RequiredPlugins tree)
                ∧ ∀ k, is_Some (map_index (Config.Plugins tree) k) → well_formed_URI k)
        (Config.zero
           :: visited_trees fs_overlay
                (events (LoadConfig mergo.union_elems range_id fs_overlay root_toml
                           (Some Config.zero)))).
Proof.
  eexists. split; [vm_compute; reflexivity|].
  apply (LoadConfig_visited_valid mergo.union_elems range_id fs_overlay root_toml Config.zero).
  vm_compute. reflexivity.
Defined.

(** An error from inside the loop comes from the last file opened: from
    [loadConfigFile] on it, from the merge of its tree, or from
    [resolveImports] on its imports. *)
Lemma loop_run_Err E ro fs st tr e :
  loop_run E ro fs st tr (Err e) →
  ∃ p, last (opened tr) = Some p
       ∧ (outcome (loadConfigFile fs p) = Err e
          ∨ ∃ config, outcome (loadConfigFile fs p) = Ok config
                      ∧ ((∃ detail, e = ErrMerge detail)
                         ∨ outcome (resolveImports fs p (Config.Imports config)) = Err e)).
Proof.
  remember (Err e) as r eqn:Hr. intros Hrun. revert Hr.
  induction Hrun as [st Hp|st path pending tr r Hp Hl Hrun IH|st path pending e' Hp Hl He
                     |st path pending config e' Hp Hl Hc He
                     |st path pending config out e' Hp Hl Hc Hm He
                     |st path pending config out imports tr r Hp Hl Hc Hm Hi Hrun IH];
    intros Hr; try done.
  - by apply IH.
  - injection Hr as ->. exists path.
    rewrite (proj1 (loadConfigFile_opened_merged fs path)). split; [done|]. by left.
  - injection Hr as ->. exists path.
    rewrite opened_app, (proj1 (loadConfigFile_opened_merged fs path)). split; [done|].
    right. exists config. split; [done|]. left. by apply (mergeConfig_Err E ro _ _ _ He).
  - injection Hr as ->. exists path.
    pose proof (opened_iteration fs path (Config.Imports config) []) as Ho.
    rewrite (right_id_L [] (++)) in Ho. rewrite Ho. split; [done|].
    right. exists config. split; [done|]. by right.
  - destruct (IH Hr) as (p & Hlast & Hcases). exists p. split; [|done].
    rewrite opened_iteration, last_cons, Hlast. done.
Qed.

Lemma last_elem_of {A} (l : list A) x : last l = Some x → x ∈ l.
Proof.
  induction l as [|y l IH]; [done|]. rewrite last_cons.
  destruct (last l) as [z|].
  - intros [= ->]. apply elem_of_cons. right. by apply IH.
  - intros [= ->]. apply elem_of_cons. by left.
Qed.

(** The errors of [ValidateV2]. *)
Lemma ValidateV2_Some_kind ro c e :
  ValidateV2 ro c = Some e → version_error e ∨ identifier_error e.
Proof.
  destruct (decide (Config.Version c = 2%Z)) as [Hv|Hv].
  - intros He. right. apply (ValidateV2_version2_error ro c e Hv He).
  - unfold ValidateV2, GetVersion. repeat case_decide; try done.
    + intros [= <-]. left. by left.
    + intros [= <-]. left. by left.
    + intros [= <-]. left. right. by eexists.
Qed.

(** X15. When [LoadConfig] fails in the validation, the tree that was
    refused is the merge of [out] and of all the files opened, and the
    error is one of [ValidateV2] about the version or about an
    identifier. The path named in the message is the last path that
    entered the queue: the last resolved import of the last file opened
    that has imports, be it a file that was skipped, and the root only if
    no file has imports. It need not be the file the error is about. *)
Theorem LoadConfig_validation_error E ro fs path out p err :
  outcome (LoadConfig E ro fs path (Some out)) = Err (ErrLoadTOML p err) →
  last (enqueued fs path (events (LoadConfig E ro fs path (Some out)))) = Some p
  ∧ (version_error err ∨ identifier_error err)
  ∧ ∃ merged_tree,
      merge_all E ro out (visited_trees fs (events (LoadConfig E ro fs path (Some out))))
      = Ok merged_tree
      ∧ ValidateV2 ro merged_tree = Some err.
Proof.
  intros [Hrun|(st & err' & Hrun & Hvalid & [= -> ->])]%LoadConfig_Err_inv.
  { apply loop_run_Err in Hrun as (q & _ & [He|(config & _ & [[detail He]|He])]).
    - by destruct (loadConfigFile_Err fs q _ He) as [?|[?|[?|?]]].
    - done.
    - unfold resolveImports in He.
      by destruct (resolveImports_loop_Err fs q _ _ _ He) as [pattern ?]. }
  destruct (loop_run_merge_all E ro fs _ _ _ Hrun) as (Hmerge & _ & Hpath).
  cbn [initial_state ls_out ls_path ls_pending] in Hmerge, Hpath.
  split; [|split].
  - unfold enqueued. rewrite Hpath. cbn [app]. rewrite last_cons.
    by destruct (last (concat _)).
  - apply (ValidateV2_Some_kind ro _ _ Hvalid).
  - by exists (ls_out st).
Qed.

Lemma LoadConfig_validation_error_witness :
  outcome (LoadConfig mergo.union_elems range_id fs_bad_key root_toml (Some Config.zero))
  = Err (ErrLoadTOML b_toml (ErrPluginKey "cri"))
  ∧ last (enqueued fs_bad_key root_toml
            (events (LoadConfig mergo.union_elems range_id fs_bad_key root_toml
                       (Some Config.zero))))
    = Some b_toml
  ∧ (version_error (ErrPluginKey "cri") ∨ identifier_error (ErrPluginKey "cri"))
  ∧ ∃ merged_tree,
      merge_all mergo.union_elems range_id Config.zero
        (visited_trees fs_bad_key
           (events (LoadConfig mergo.union_elems range_id fs_bad_key root_toml
                      (Some Config.zero))))
      = Ok merged_tree
      ∧ ValidateV2 range_id merged_tree = Some (ErrPluginKey "cri").
Proof.
  split; [vm_compute; reflexivity|].
  apply (LoadConfig_validation_error mergo.union_elems range_id fs_bad_key root_toml
           Config.zero b_toml (ErrPluginKey "cri")).
  vm_compute. reflexivity.
Defined.

(** The pattern behind an error of [resolveImports]. *)
Lemma resolveImports_pattern fs parent imports e :
  outcome (resolveImports fs parent imports) = Err e →
  ∃ pattern, e = ErrBadPattern pattern ∧ pattern ∈ imports ∧ fs_glob fs pattern = None.
Proof.
  induction imports as [|expr imports IH]; [done|].
  rewrite (proj1 (resolveImports_cons fs parent expr imports)).
  destruct (strings.Contains expr "*").
  - destruct (fs_glob fs expr) as [matches|] eqn:Hm.
    + destruct (outcome (resolveImports fs parent imports)) as [out|e']; [done|].
      intros [= <-]. destruct (IH eq_refl) as (pattern & -> & Hin & Hnone).
      exists pattern. split; [done|]. split; [apply elem_of_cons; by right | done].
    + intros [= <-]. exists expr. split; [done|]. split; [apply elem_of_cons; by left | done].
  - destruct (outcome (resolveImports fs parent imports)) as [out|e']; [done|].
    intros [= <-]. destruct (IH eq_refl) as (pattern & -> & Hin & Hnone).
    exists pattern. split; [done|]. split; [apply elem_of_cons; by right | done].
Qed.

(** X16. An error of [LoadConfig] on an [out] that is not nil is the
    error of the validation, wrapped, or the first error met in the loop,
    returned as it is; nothing is opened after it. In the second case the
    file opened last, which is the root or an import of a file loaded
    before, is the one that failed: it could not be loaded, or its tree
    could not be merged, or one of its import expressions with a wildcard
    is a malformed pattern. *)
Theorem LoadConfig_error_cases E ro fs path out e :
  outcome (LoadConfig E ro fs path (Some out)) = Err e →
  (∃ p err, e = ErrLoadTOML p err ∧ (version_error err ∨ identifier_error err))
  ∨ ∃ p, last (opened (events (LoadConfig E ro fs path (Some out)))) = Some p
         ∧ reachable fs path p
         ∧ (outcome (loadConfigFile fs p) = Err e
            ∨ ∃ config,
                outcome (loadConfigFile fs p) = Ok config
                ∧ ((∃ detail, e = ErrMerge detail)
                   ∨ ∃ pattern, e = ErrBadPattern pattern
                                ∧ pattern ∈ Config.Imports config
                                ∧ fs_glob fs pattern = None)).
Proof.
  intros [Hrun|(st & err' & Hrun & Hvalid & ->)]%LoadConfig_Err_inv.
  2:{ left. exists (ls_path st), err'. split; [done|].
      apply (ValidateV2_Some_kind ro _ _ Hvalid). }
  right. destruct (loop_run_Err E ro fs _ _ _ Hrun) as (p & Hlast & Hcases).
  exists p. split; [done|]. split.
  { apply (loop_run_opened_reachable E ro fs path _ _ _ Hrun).
    - intros q Hq. cbn in Hq. apply list_elem_of_singleton in Hq as ->. constructor.
    - by apply last_elem_of. }
  destruct Hcases as [He|(config & Hc & [Hm|Hr])]; [by left|right; exists config..].
  - split; [done|]. by left.
  - split; [done|]. right. apply resolveImports_pattern in Hr. exact Hr.
Qed.

Lemma LoadConfig_error_cases_witness :
  outcome (LoadConfig mergo.union_elems range_id fs_none root_toml (Some Config.zero))
  = Err (ErrOpen root_toml)
  ∧ ((∃ p err, ErrOpen root_toml = ErrLoadTOML p err
               ∧ (version_error err ∨ identifier_error err))
     ∨ ∃ p, last (opened (events (LoadConfig mergo.union_elems range_id fs_none root_toml
                                    (Some Config.zero)))) = Some p
            ∧ reachable fs_none root_toml p
            ∧ (outcome (loadConfigFile fs_none p) = Err (ErrOpen root_toml)
               ∨ ∃ config,
                   outcome (loadConfigFile fs_none p) = Ok config
                   ∧ ((∃ detail, ErrOpen root_toml = ErrMerge detail)
                      ∨ ∃ pattern, ErrOpen root_toml = ErrBadPattern pattern
                                   ∧ pattern ∈ Config.Imports config
                                   ∧ fs_glob fs_none pattern = None))).
Proof.
  split; [vm_compute; reflexivity|].
  apply (LoadConfig_error_cases mergo.union_elems range_id fs_none root_toml Config.zero).
  vm_compute. reflexivity.
Defined.

(** ** [LoadConfig] and the import graph *)

(** In a run that reaches the exit every file opened was loaded and its
    imports were resolved. *)
Lemma loop_run_opened_loaded E ro fs st tr st' :
  loop_run E ro fs st tr (Ok st') →
  ∀ p, p ∈ opened tr →
       ∃ config imports,
         outcome (loadConfigFile fs p) = Ok config
         ∧ outcome (resolveImports fs p (Config.Imports config)) = Ok imports.
Proof.
  remember (Ok st') as r eqn:Hr. intros Hrun. revert st' Hr.
  induction Hrun as [st Hp|st path pending tr r Hp Hl Hrun IH|st path pending e Hp Hl He
                     |st path pending config e Hp Hl Hc He
                     |st path pending config out e Hp Hl Hc Hm He
                     |st path pending config out imports tr r Hp Hl Hc Hm Hi Hrun IH];
    intros st' Hr; try done.
  - intros p Hin. by apply elem_of_nil in Hin.
  - by apply (IH st').
  - intros p. rewrite opened_iteration. intros [->|Hin]%elem_of_cons.
    + by exists config, imports.
    + by apply (IH st').
Qed.

(** X17. Imports are not optional. If [LoadConfig] gets through the
    loop, then every path that can be reached from the root by imports
    names a file that exists, that decodes, and whose import expressions
    all resolve; so a single import path without a file makes the call
    fail before the validation. *)
Theorem LoadConfig_reachable_loaded E ro fs path out p :
  traversal_completed (outcome (LoadConfig E ro fs path (Some out))) →
  reachable fs path p →
  p ∈ dom (fs_files fs)
  ∧ ∃ config imports,
      outcome (loadConfigFile fs p) = Ok config
      ∧ outcome (resolveImports fs p (Config.Imports config)) = Ok imports.
Proof.
  intros Hdone Hreach.
  destruct (LoadConfig_terminates_visits_once_aux E ro fs path out) as [_ Hvisits].
  apply (Hvisits Hdone) in Hreach.
  destruct (traversal_completed_loop E ro fs path out Hdone) as [st Hst].
  pose proof (LoadConfig_loop_run E ro fs path out) as Hrun.
  rewrite Hst in Hrun.
  rewrite (proj1 (LoadConfig_unfold E ro fs path out)) in Hreach.
  destruct (loop_run_opened_loaded E ro fs _ _ _ Hrun p Hreach) as (config & imports & Hc & Hi).
  split; [by apply (loadConfigFile_Ok_file fs p config) | by exists config, imports].
Qed.

Lemma LoadConfig_reachable_loaded_witness :
  traversal_completed
    (outcome (LoadConfig mergo.replace_elems range_id fs_cycle root_toml (Some Config.zero)))
  ∧ reachable fs_cycle root_toml root_toml
  ∧ root_toml ∈ dom (fs_files fs_cycle)
  ∧ ∃ config imports,
      outcome (loadConfigFile fs_cycle root_toml) = Ok config
      ∧ outcome (resolveImports fs_cycle root_toml (Config.Imports config)) = Ok imports.
Proof.
  split; [vm_compute; exact I|]. split; [constructor|].
  apply (LoadConfig_reachable_loaded mergo.replace_elems range_id fs_cycle root_toml
           Config.zero root_toml); [vm_compute; exact I | constructor].
Defined.

(** Two runs of the loop that start with the same queue and the same set
    of loaded paths and both reach the exit open the same files in the
    same order and load the same set of paths, whatever the trees they
    merge into and the way map entries are merged. *)
Lemma loop_run_opened_indep E ro fs st tr st1 :
  loop_run E ro fs st tr (Ok st1) →
  ∀ E' ro' st' tr' st1',
    ls_pending st' = ls_pending st → ls_loaded st' = ls_loaded st →
    loop_run E' ro' fs st' tr' (Ok st1') →
    opened tr' = opened tr ∧ ls_loaded st1' = ls_loaded st1.
Proof.
  remember (Ok st1) as r eqn:Hr. intros Hrun. revert st1 Hr.
  induction Hrun as [st Hp|st path pending tr r Hp Hl Hrun IH|st path pending e Hp Hl He
                     |st path pending config e Hp Hl Hc He
                     |st path pending config out e Hp Hl Hc Hm He
                     |st path pending config out imports tr r Hp Hl Hc Hm Hi Hrun IH];
    intros st1 Hr E' ro' st' tr' st1' Hpend Hload Hrun'; try done.
  - injection Hr as <-. rewrite Hp in Hpend.
    inversion Hrun' as [st0 Hp' Hst0 Htr0 Hr0| | | | |]; try congruence.
    split; [done|]. congruence.
  - rewrite Hp in Hpend.
    inversion Hrun' as [st0 Hp'|st0 path' pending' tr0 r0 Hp' Hl' Hrun0 Hst0 Htr0 Hr0
                        | | |
                        |st0 path' pending' config' out' imports' tr0 r0 Hp' Hl' Hc' Hm' Hi'
                           Hrun0 Hst0 Htr0 Hr0]; try congruence.
    + rewrite Hpend in Hp'. injection Hp' as <- <-.
      eapply (IH st1 Hr E' ro'); [| |exact Hrun0]; [done | exact Hload].
    + rewrite Hpend in Hp'. injection Hp' as <- <-.
      rewrite Hload in Hl'. destruct Hl as [? Hl]. congruence.
  - rewrite Hp in Hpend.
    inversion Hrun' as [st0 Hp'|st0 path' pending' tr0 r0 Hp' Hl' Hrun0 Hst0 Htr0 Hr0
                        | | |
                        |st0 path' pending' config' out' imports' tr0 r0 Hp' Hl' Hc' Hm' Hi'
                           Hrun0 Hst0 Htr0 Hr0]; try congruence.
    + rewrite Hpend in Hp'. injection Hp' as <- <-.
      rewrite Hload in Hl'. destruct Hl' as [? Hl']. congruence.
    + rewrite Hpend in Hp'. injection Hp' as <- <-.
      rewrite Hc in Hc'. injection Hc' as <-.
      rewrite Hi in Hi'. injection Hi' as <-.
      rewrite <- ?Htr0, !opened_iteration.
      assert (opened tr0 = opened tr ∧ ls_loaded st1' = ls_loaded st1) as [-> ?].
      { eapply (IH st1 Hr E' ro'); [| |exact Hrun0]; [done | by cbn; rewrite Hload]. }
      done.
Qed.

(** X18. The files that [LoadConfig] loads are determined by the files
    themselves: the imports followed are those that each file declares
    in its own tree, not those of the merged tree. Two calls on the same
    root that both get through the loop open the same files in the same
    order, whatever [out] held before, its field [Imports] included,
    however map entries are merged and in whatever order maps are ranged
    over; and if both succeed, the lists they leave in [Imports] hold the
    same paths, possibly in different orders. *)
Theorem LoadConfig_visits_independent E ro E' ro' fs path out out' :
  traversal_completed (outcome (LoadConfig E ro fs path (Some out))) →
  traversal_completed (outcome (LoadConfig E' ro' fs path (Some out'))) →
  opened (events (LoadConfig E ro fs path (Some out)))
  = opened (events (LoadConfig E' ro' fs path (Some out')))
  ∧ (∀ result result',
       outcome (LoadConfig E ro fs path (Some out)) = Ok result →
       outcome (LoadConfig E' ro' fs path (Some out')) = Ok result' →
       Config.Imports result ≡ₚ Config.Imports result').
Proof.
  intros [st Hst]%traversal_completed_loop [st' Hst']%traversal_completed_loop.
  pose proof (LoadConfig_loop_run E ro fs path out) as Hrun.
  pose proof (LoadConfig_loop_run E' ro' fs path out') as Hrun'.
  rewrite Hst in Hrun. rewrite Hst' in Hrun'.
  destruct (LoadConfig_unfold E ro fs path out) as [Hev Hout].
  destruct (LoadConfig_unfold E' ro' fs path out') as [Hev' Hout'].
  cbn zeta in Hev, Hout, Hev', Hout'.
  rewrite Hev, Hev', Hout, Hout', Hst, Hst'.
  destruct (loop_run_opened_indep E' ro' fs _ _ _ Hrun' E ro (initial_state path out) _ _
              eq_refl eq_refl Hrun) as [Ho Hl].
  split; [done|].
  intros result result'.
  destruct (ValidateV2 ro _); [done|]. intros [= <-].
  destruct (ValidateV2 ro' _); [done|]. intros [= <-].
  cbn [Config.set_Imports Config.Imports]. rewrite Hl.
  apply fmap_Permutation.
  etrans; [apply (range_perm ro (ls_loaded st'))|].
  symmetry. apply (range_perm ro' (ls_loaded st')).
Qed.

Lemma LoadConfig_visits_independent_witness :
  traversal_completed
    (outcome (LoadConfig mergo.replace_elems range_id fs_cycle root_toml (Some Config.zero)))
  ∧ traversal_completed
      (outcome (LoadConfig mergo.union_elems range_rev fs_cycle root_toml (Some tree_valid)))
  ∧ opened (events (LoadConfig mergo.replace_elems range_id fs_cycle root_toml
                      (Some Config.zero)))
    = opened (events (LoadConfig mergo.union_elems range_rev fs_cycle root_toml
                        (Some tree_valid)))
  ∧ (∀ result result',
       outcome (LoadConfig mergo.replace_elems range_id fs_cycle root_toml (Some Config.zero))
       = Ok result →
       outcome (LoadConfig mergo.union_elems range_rev fs_cycle root_toml (Some tree_valid))
       = Ok result' →
       Config.Imports result ≡ₚ Config.Imports result').
Proof.
  split; [vm_compute; exact I|]. split; [vm_compute; exact I|].
  apply (LoadConfig_visits_independent mergo.replace_elems range_id mergo.union_elems
           range_rev fs_cycle root_toml Config.zero tree_valid); vm_compute; exact I.
Defined.

(** ** [Decode] and [GetVersion] on merged trees *)

(** [Decode] reads of the tree only what the map of plugins has under
    the identifier of the registration. *)
Lemma Config_Decode_lookup {T} (codec : PluginCodec T) c c' p :
  map_index (Config.Plugins c) (plugin.URI p) = map_index (Config.Plugins c') (plugin.URI p) →
  Config_Decode codec c p = Config_Decode codec c' p.
Proof. intros Heq. unfold Config_Decode. by rewrite Heq. Qed.

Lemma Config_Decode_merge_aux {T} (codec : PluginCodec T) E ro to from to' p :
  mergeConfig E ro to from = Ok to' →
  Config_Decode codec to' p
  = if decide (is_Some (map_index (Config.Plugins from) (plugin.URI p)))
    then Config_Decode codec from p
    else Config_Decode codec to p.
Proof.
  intros Hm. pose proof (proj1 (mergeConfig_replaced E ro to from to' Hm)) as Hrep.
  apply (replaced_by_lookup _ _ _ (plugin.URI p)) in Hrep.
  case_decide as Hk; apply Config_Decode_lookup; rewrite Hrep.
  - by destruct Hk as [v ->].
  - destruct (map_index (Config.Plugins from) (plugin.URI p)); [|done].
    exfalso. apply Hk. by eexists.
Qed.

(** X19. [Decode] after a merge: if [from] has a section for the plugin,
    [Decode] on the merged tree gives what it gives on [from] alone, the
    same configuration or error and the same warnings, so that nothing of
    the section that [to] had for the plugin is decoded; otherwise it
    gives what it gives on [to]. A plugin that has a section in neither
    gets the configuration of its registration back, without any
    warning. *)
Theorem Config_Decode_merge {T} (codec : PluginCodec T) E ro to from to' p :
  mergeConfig E ro to from = Ok to' →
  Config_Decode codec to' p
  = (if decide (is_Some (map_index (Config.Plugins from) (plugin.URI p)))
     then Config_Decode codec from p
     else Config_Decode codec to p)
  ∧ (map_index (Config.Plugins from) (plugin.URI p) = None →
     map_index (Config.Plugins to) (plugin.URI p) = None →
     Config_Decode codec to' p = ([], inr (plugin.Config p))).
Proof.
  intros Hm. split; [by apply (Config_Decode_merge_aux codec E ro)|].
  intros Hfrom Hto. rewrite (Config_Decode_merge_aux codec E ro to from to' p Hm).
  rewrite Hfrom. case_decide as Hk; [by destruct Hk|].
  unfold Config_Decode. by rewrite Hto.
Qed.

Lemma Config_Decode_merge_witness :
  ∃ to',
    mergeConfig mergo.union_elems range_id tree_A tree_B = Ok to'
    ∧ Config_Decode example_codec to'
        {| plugin.URI := plugin_cri; plugin.Config := ProxyPlugin.zero |}
      = (if decide (is_Some (map_index (Config.Plugins tree_B) plugin_cri))
         then Config_Decode example_codec tree_B
                {| plugin.URI := plugin_cri; plugin.Config := ProxyPlugin.zero |}
         else Config_Decode example_codec tree_A
                {| plugin.URI := plugin_cri; plugin.Config := ProxyPlugin.zero |})
    ∧ (map_index (Config.Plugins tree_B) plugin_cri = None →
       map_index (Config.Plugins tree_A) plugin_cri = None →
       Config_Decode example_codec to'
         {| plugin.URI := plugin_cri; plugin.Config := ProxyPlugin.zero |}
       = ([], inr ProxyPlugin.zero)).
Proof.
  eexists. split; [vm_compute; reflexivity|].
  apply (Config_Decode_merge example_codec mergo.union_elems range_id tree_A tree_B _
           {| plugin.URI := plugin_cri; plugin.Config := ProxyPlugin.zero |}).
  vm_compute. reflexivity.
Defined.

Lemma merge_all_Decode {T} (codec : PluginCodec T) E ro p trees : ∀ out r,
  merge_all E ro out trees = Ok r →
  Config_Decode codec r p
  = match last (filter (fun tree => is_Some (map_index (Config.Plugins tree) (plugin.URI p)))
                  trees) with
    | Some tree => Config_Decode codec tree p
    | None => Config_Decode codec out p
    end.
Proof.
  induction trees as [|t trees IH]; intros out r.
  - by intros [= <-].
  - rewrite merge_all_cons.
    destruct (mergeConfig E ro out t) as [out'|e] eqn:Hm; [|done].
    intros Hr. rewrite (IH out' r Hr). clear IH Hr.
    rewrite (Config_Decode_merge_aux codec E ro out t out' p Hm).
    rewrite filter_cons. case_decide as Hk; [|done].
    rewrite last_cons. by destruct (last (filter _ trees)).
Qed.

(** X20. [Decode] after [LoadConfig]: on the tree that a successful call
    leaves, [Decode] for a plugin gives what it gives on the tree of the
    last file opened that has a section for the plugin, taken alone; the
    sections that files opened earlier have for the plugin contribute
    nothing, not even the keys that the last one leaves out. If no file
    has a section for it, [Decode] gives what it gives on what [out]
    held. *)
Theorem Config_Decode_LoadConfig {T} (codec : PluginCodec T) E ro fs path out result p :
  outcome (LoadConfig E ro fs path (Some out)) = Ok result →
  Config_Decode codec result p
  = match last (filter (fun tree => is_Some (map_index (Config.Plugins tree) (plugin.URI p)))
                  (visited_trees fs (events (LoadConfig E ro fs path (Some out))))) with
    | Some tree => Config_Decode codec tree p
    | None => Config_Decode codec out p
    end.
Proof.
  intros (st & Hrun & -> & _)%LoadConfig_Ok_inv.
  destruct (loop_run_merge_all E ro fs _ _ _ Hrun) as (Hmerge & _ & _).
  cbn [initial_state ls_out] in Hmerge.
  rewrite <- (merge_all_Decode codec E ro p _ _ _ Hmerge).
  by apply Config_Decode_lookup.
Qed.

Lemma Config_Decode_LoadConfig_witness :
  ∃ result,
    outcome (LoadConfig mergo.union_elems range_id fs_overlay root_toml (Some Config.zero))
    = Ok result
    ∧ Config_Decode example_codec result
        {| plugin.URI := plugin_snap; plugin.Config := ProxyPlugin.zero |}
      = match last (filter (fun tree => is_Some (map_index (Config.Plugins tree) plugin_snap))
                      (visited_trees fs_overlay
                         (events (LoadConfig mergo.union_elems range_id fs_overlay root_toml
                                    (Some Config.zero))))) with
        | Some tree =>
            Config_Decode example_codec tree
              {| plugin.URI := plugin_snap; plugin.Config := ProxyPlugin.zero |}
        | None =>
            Config_Decode example_codec Config.zero
              {| plugin.URI := plugin_snap; plugin.Config := ProxyPlugin.zero |}
        end.
Proof.
  eexists. split; [vm_compute; reflexivity|].
  apply (Config_Decode_LoadConfig example_codec mergo.union_elems range_id fs_overlay
           root_toml Config.zero _
           {| plugin.URI := plugin_snap; plugin.Config := ProxyPlugin.zero |}).
  vm_compute. reflexivity.
Defined.

(** X21. The version after a merge: [GetVersion] of the merged tree is
    that of [from] if [from] states a version, and that of [to] if it
    does not; it is never [0]. So a file without a version header neither
    sets nor resets the version, and is taken for a version-1 file only
    if nothing before it stated a version. *)
Theorem GetVersion_merge E ro to from to' :
  mergeConfig E ro to from = Ok to' →
  GetVersion to' = (if decide (Config.Version from = 0%Z) then GetVersion to
                    else GetVersion from)
  ∧ GetVersion to' ≠ 0%Z.
Proof.
  intros Hm.
  pose proof (mergeConfig_scalar E ro to from to' 0 _ _ Hm eq_refl eq_refl) as Hv.
  cbn in Hv. injection Hv as Hv.
  unfold merge_scalar, is_zero in Hv. unfold GetVersion.
  case_bool_decide as Hz; injection Hv as ->.
  - destruct (decide (Config.Version from = 0%Z)) as [_|Hn]; [|done].
    split; [done|]. by destruct (decide (Config.Version to = 0%Z)).
  - destruct (decide (Config.Version from = 0%Z)) as [He|_]; [done|].
    split; [done|]. exact Hz.
Qed.

Lemma GetVersion_merge_witness :
  ∃ to',
    mergeConfig mergo.union_elems range_id tree_valid tree_A = Ok to'
    ∧ GetVersion to' = (if decide (Config.Version tree_A = 0%Z) then GetVersion tree_valid
                        else GetVersion tree_A)
    ∧ GetVersion to' ≠ 0%Z.
Proof.
  eexists. split; [vm_compute; reflexivity|].
  apply (GetVersion_merge mergo.union_elems range_id tree_valid tree_A). vm_compute. reflexivity.
Defined.

(** ** Termination and the visit of the import graph *)

(** A run that starts with a path at the head of the queue that is not
    loaded yet opens that path first. *)
Lemma loop_run_opens_first E ro fs st tr r p pending :
  loop_run E ro fs st tr r →
  ls_pending st = p :: pending → ls_loaded st !! p = None →
  ∃ rest, opened tr = p :: rest.
Proof.
  intros Hrun.
  destruct Hrun as [st Hp|st path pending' tr r Hp Hl Hrun|st path pending' e Hp Hl He
                    |st path pending' config e Hp Hl Hc He
                    |st path pending' config out e Hp Hl Hc Hm He
                    |st path pending' config out imports tr r Hp Hl Hc Hm Hi Hrun];
    intros Hp' Hl'; rewrite Hp in Hp'; try done; injection Hp' as -> ->.
  - rewrite Hl' in Hl. by destruct Hl.
  - exists []. apply loadConfigFile_opened_merged.
  - exists []. rewrite opened_app, (proj1 (loadConfigFile_opened_merged fs p)). done.
  - exists []. pose proof (opened_iteration fs p (Config.Imports config) []) as Ho.
    by rewrite (right_id_L [] (++)) in Ho.
  - exists (opened tr). apply opened_iteration.
Qed.

(** A run that ends with an error although every reachable file loads
    and has imports that resolve has failed in a merge. *)
Lemma loop_run_Err_merge E ro fs root st tr e :
  loop_run E ro fs st tr (Err e) →
  (∀ p, p ∈ ls_pending st → reachable fs root p) →
  (∀ p, reachable fs root p →
        ∃ config imports,
          outcome (loadConfigFile fs p) = Ok config
          ∧ outcome (resolveImports fs p (Config.Imports config)) = Ok imports) →
  ∃ e', merge_all E ro (ls_out st) (visited_trees fs tr) = Err e'.
Proof.
  remember (Err e) as r eqn:Hr. intros Hrun. revert Hr.
  induction Hrun as [st Hp|st path pending tr r Hp Hl Hrun IH|st path pending e' Hp Hl He
                     |st path pending config e' Hp Hl Hc He
                     |st path pending config out e' Hp Hl Hc Hm He
                     |st path pending config out imports tr r Hp Hl Hc Hm Hi Hrun IH];
    intros Hr Hpend Hall; try done.
  - apply IH; [done| |done]. intros p Hin. apply Hpend. rewrite Hp.
    apply elem_of_cons. by right.
  - destruct (Hall path) as (config & imports & Hc & _).
    { apply Hpend. rewrite Hp. apply elem_of_cons. by left. }
    by rewrite Hc in He.
  - exists e'. unfold visited_trees.
    rewrite opened_app, (proj1 (loadConfigFile_opened_merged fs path)).
    cbn [opened omap list_omap app]. unfold decoded. rewrite Hc.
    by rewrite merge_all_cons, He.
  - destruct (Hall path) as (config' & imports & Hc' & Hi).
    { apply Hpend. rewrite Hp. apply elem_of_cons. by left. }
    rewrite Hc in Hc'. injection Hc' as <-. by rewrite Hi in He.
  - assert (Hpath : reachable fs root path).
    { apply Hpend. rewrite Hp. apply elem_of_cons. by left. }
    destruct IH as [e'' IH]; [done| |done|].
    { cbn [ls_pending]. intros p [Hin|Hin]%elem_of_app.
      - apply Hpend. rewrite Hp. apply elem_of_cons. by right.
      - by apply (reachable_import fs root path p config imports). }
    exists e''. cbn [ls_out] in IH. unfold visited_trees in *.
    rewrite opened_iteration. cbn [omap list_omap]. unfold decoded at 1. rewrite Hc.
    by rewrite merge_all_cons, Hm.
Qed.

(** C3. For every file system, and so for every import graph, cyclic or
    not, [LoadConfig] terminates: the bounded loop of the model, given the
    potential of the initial state as its bound, does not run out, and a
    larger bound changes nothing. Every call opens the root first. In
    every call no path is opened and decoded twice and none is merged
    twice; only reachable paths are opened; every path merged was opened
    before. The call gets through the loop if and only if every reachable
    path names a file that decodes and whose imports resolve, and the
    merges of the trees of the files opened succeed. When it gets through
    the loop, the paths merged are the paths opened, these are exactly the
    paths reachable from the root, and each of them was decoded: each
    reachable file is decoded and merged exactly once. *)
Theorem LoadConfig_terminates_visits_once E ro fs path out :
  let run := LoadConfig E ro fs path (Some out) in
  outcome run ≠ Err OutOfFuel
  ∧ (∀ fuel, (potential fs ∅ [path] ≤ fuel)%nat →
       LoadConfig_loop E ro fs fuel (initial_state path out)
       = LoadConfig_loop E ro fs (potential fs ∅ [path]) (initial_state path out))
  ∧ (∃ rest, opened (events run) = path :: rest)
  ∧ NoDup (opened (events run))
  ∧ NoDup (merged (events run))
  ∧ merged (events run) `prefix_of` opened (events run)
  ∧ (∀ p, p ∈ opened (events run) → reachable fs path p)
  ∧ (traversal_completed (outcome run) ↔
       (∀ p, reachable fs path p →
             ∃ config imports,
               outcome (loadConfigFile fs p) = Ok config
               ∧ outcome (resolveImports fs p (Config.Imports config)) = Ok imports)
       ∧ ∃ merged_tree,
           merge_all E ro out (visited_trees fs (events run)) = Ok merged_tree)
  ∧ (traversal_completed (outcome run) →
       merged (events run) = opened (events run)
       ∧ (∀ p, reachable fs path p ↔ p ∈ opened (events run))
       ∧ length (visited_trees fs (events run)) = length (opened (events run))).
Proof.
  intros run.
  destruct (LoadConfig_unfold E ro fs path out) as [Hev Hout].
  pose proof (LoadConfig_loop_run E ro fs path out) as Hrun.
  pose proof (traversal_completed_loop E ro fs path out) as Hdone.
  destruct (LoadConfig_terminates_visits_once_aux E ro fs path out) as [_ Hvisit].
  fold run in Hev, Hout, Hdone, Hvisit. rewrite Hev in Hvisit. rewrite Hev.
  set (loop := LoadConfig_loop E ro fs (potential fs ∅ [path]) (initial_state path out)) in *.
  destruct (loop_run_visits _ _ _ _ _ _ Hrun) as (Hnd & Hnew & Hpre & Hok).
  pose proof (loop_run_result _ _ _ _ _ _ Hrun) as Hfuel.
  assert (Hreach : ∀ p, p ∈ opened (events loop) → reachable fs path p).
  { eapply loop_run_opened_reachable; [exact Hrun|].
    intros p ->%list_elem_of_singleton. constructor. }
  split; [|split; [|split; [|split; [|split; [|split; [|split; [|split]]]]]]]; try done.
  - rewrite Hout. destruct (outcome loop) as [st|e].
    + cbn zeta. by destruct (ValidateV2 ro _).
    + intros [= ->]. by apply Hfuel.
  - intros fuel Hle.
    pose proof (LoadConfig_loop_runs E ro fs fuel (initial_state path out) Hle) as Hrun'.
    destruct (loop_run_functional _ _ _ _ _ _ Hrun' _ _ Hrun) as [Ht Hr].
    rewrite (M_eta (LoadConfig_loop E ro fs fuel _)), Ht, Hr. symmetry. apply M_eta.
  - by apply (loop_run_opens_first E ro fs _ _ _ path [] Hrun).
  - destruct Hpre as [k Hk]. rewrite Hk in Hnd. by apply NoDup_app in Hnd as [? _].
  - split.
    + intros Hcompleted. destruct (Hdone Hcompleted) as [st Hst]. rewrite Hst in Hrun.
      split.
      * intros p Hp. apply (Hvisit Hcompleted) in Hp.
        apply (loop_run_opened_loaded E ro fs _ _ _ Hrun p Hp).
      * exists (ls_out st). apply (loop_run_merge_all E ro fs _ _ _ Hrun).
    + intros [Hall [merged_tree Hmerge]]. rewrite Hout.
      destruct (outcome loop) as [st|e] eqn:Hloop.
      * cbn zeta. by destruct (ValidateV2 ro _).
      * destruct (loop_run_Err_merge E ro fs path _ _ _ Hrun) as [e' He']; [|done|].
        { intros p ->%list_elem_of_singleton. constructor. }
        cbn [initial_state ls_out] in He'. by rewrite Hmerge in He'.
  - intros Hcompleted. destruct (Hdone Hcompleted) as [st Hst].
    destruct (Hok _ Hst) as (Hm & _ & _). split; [done|].
    split; [by apply Hvisit|].
    rewrite Hst in Hrun. apply (loop_run_merge_all E ro fs _ _ _ Hrun).
Qed.

Lemma LoadConfig_terminates_visits_once_witness :
  traversal_completed
    (outcome (LoadConfig mergo.replace_elems range_id fs_cycle root_toml (Some Config.zero)))
  ∧ opened (events (LoadConfig mergo.replace_elems range_id fs_cycle root_toml
                      (Some Config.zero)))
    = [root_toml; b_toml; c_toml]
  ∧ merged (events (LoadConfig mergo.replace_elems range_id fs_cycle root_toml
                      (Some Config.zero)))
    = [root_toml; b_toml; c_toml]
  ∧ (∀ p, reachable fs_cycle root_toml p ↔ p ∈ [root_toml; b_toml; c_toml])
  ∧ length (visited_trees fs_cycle
              (events (LoadConfig mergo.replace_elems range_id fs_cycle root_toml
                         (Some Config.zero)))) = 3%nat.
Proof.
  assert (Hdone : traversal_completed
            (outcome (LoadConfig mergo.replace_elems range_id fs_cycle root_toml
                        (Some Config.zero)))) by (vm_compute; exact I).
  assert (Hopened : opened (events (LoadConfig mergo.replace_elems range_id fs_cycle root_toml
                                      (Some Config.zero)))
                    = [root_toml; b_toml; c_toml]) by (vm_compute; reflexivity).
  destruct (LoadConfig_terminates_visits_once mergo.replace_elems range_id fs_cycle root_toml
              Config.zero) as (_ & _ & _ & _ & _ & _ & _ & _ & Hvisits).
  destruct (Hvisits Hdone) as (Hmerged & Hreach & Hlen).
  rewrite Hopened in Hmerged, Hreach, Hlen.
  split; [exact Hdone|]. split; [exact Hopened|]. split; [exact Hmerged|].
  split; [exact Hreach | exact Hlen].
Defined.
